(** * Grokgates terminal front end: reconciliation and ASCII animation

    A shallow embedding of [static/ascii_animator.js]:

    - [Reconciler] embeds [updateCurrentConversation], the function that
      merges a conversation snapshot into the rendered message list, together
      with the browser state it reads and writes (the children of
      [#current-conversation], the [currentMessages] Map, the
      [window.processedMessageIds] Set, [window.currentConversationId] and the
      two [localStorage] items).
    - [Animator] embeds the [ASCIIAnimator] class: constructor, the eight
      effects and the start/stop/frame scheduling, and the page script's
      [randomAnimation], which plays the effects at random.
    - [Widgets] embeds the smaller functions of the terminal interface:
      [escapeHtml], [updateBeacon], [updateStats], [updateMemory],
      [animateBeaconIcon], the theme switcher, [typewriterEffect] and the
      clean-up of [applyProposalHighlight].
    - [Doubles] is the rounding of a real result to a double.
    - [DoublesProofs], [ReconcilerProofs], [AnimatorProofs] and
      [WidgetsProofs] hold the properties proved of the embeddings.

    Modelling conventions.  A JavaScript string is a Rocq [string] (or, for a
    row of the art grid, a [list ascii]); one Rocq character stands for one
    UTF-16 code unit, so the model covers text whose code units are below 256.
    Numbers that the source only uses as integers are [Z]; the floating-point
    expressions of the effects are evaluated over the rationals [Q], with
    [Math.sin] and the successive results of [Math.random()] taken as
    parameters.  The frame index of [animate()] and the value of
    [updateMemory] depend on how the operations round: there every operation
    is followed by a rounding [round], a parameter whose instance for the
    browser is [Doubles.binary64]. *)

From Stdlib Require Import ZArith QArith Qpower Qround Lqa String Ascii List Lia.
From stdpp Require Import base option list strings gmap pretty.

Local Open Scope string_scope.
Local Open Scope list_scope.

(** ** The state reconciler *)

Module Reconciler.

(** *** Snapshot data *)

(** A message of a snapshot.  [content] is [None] when the field is missing
    ([undefined] or [null]); the source reads it as [msg.content || ''].
    [agent] is a string and [timestamp] an integer, as the server sends
    them.  A message whose [agent] is missing or is no string, on which
    [msg.agent.toLowerCase()] throws after the message has been entered into
    [currentMessages], is outside this data model, and so is the exception
    it raises. *)
Record Message := mkMessage {
  agent : string;
  timestamp : Z;
  content : option string
}.

(** [conversation.id] and [conversation.messages] may be missing. *)
Record Conversation := mkConversation {
  id : option string;
  messages : option (list Message)
}.

#[global] Instance Message_eq_dec : EqDecision Message.
Proof. solve_decision. Defined.

(** [`${msg.agent}-${msg.timestamp}`]; an integer timestamp of magnitude below
    1e21 prints in plain decimal notation. *)
Definition msgId (m : Message) : string :=
  agent m +:+ "-" +:+ pretty (timestamp m).

(** [msg.content || ''] *)
Definition contentOrEmpty (m : Message) : string :=
  default "" (content m).

(** *** The rendered message list *)

(** [displayAgent]: the three labels of the [msg-agent] span. *)
Inductive AgentLabel := LabelObserver | LabelSystem | LabelEgo.

#[global] Instance AgentLabel_eq_dec : EqDecision AgentLabel.
Proof. solve_decision. Defined.

(** A [div.message] element.  [msg_time] is the timestamp whose
    [toLocaleTimeString()] the header shows; [msg_content] is the
    [textContent] of its [.msg-content] child. *)
Record MsgDiv := mkMsgDiv {
  elem_id : string;
  className : string;
  msg_agent : AgentLabel;
  msg_time : Z;
  msg_content : string
}.

#[global] Instance MsgDiv_eq_dec : EqDecision MsgDiv.
Proof. solve_decision. Defined.

(** A child of [#current-conversation]: markup assigned through [innerHTML]
    (or present in the page), or a message element. *)
Inductive Child :=
| Static (html : string)
| MsgNode (d : MsgDiv).

#[global] Instance Child_eq_dec : EqDecision Child.
Proof. solve_decision. Defined.

(** The markup assigned to [innerHTML] when there is nothing to show (the
    banner's box-drawing frame is left out). *)
Definition placeholder : string :=
  "<div class=loading-ascii> AWAITING DIALOGUE </div>".

(** The two [localStorage] items; the processed-id item holds a JSON array
    of strings, kept here in parsed form.  An item that is no JSON, on which
    [JSON.parse] throws in the start-up handler, or no array, on which
    [new Set] throws, is outside this data model. *)
Record LocalStorage := mkLocalStorage {
  ls_conversation : option string;
  ls_processed : option (list string)
}.

(** A JavaScript [Map] with string keys: entries in insertion order. *)
Definition JsMap (V : Type) : Type := list (string * V).

Definition map_keys {V} (m : JsMap V) : list string := m.*1.

Definition map_has {V} (k : string) (m : JsMap V) : bool :=
  bool_decide (k ∈ map_keys m).

Fixpoint map_set {V} (k : string) (v : V) (m : JsMap V) : JsMap V :=
  match m with
  | [] => [(k, v)]
  | (k', v') :: r =>
      if decide (k' = k) then (k, v) :: r else (k', v') :: map_set k v r
  end.

Definition map_delete {V} (k : string) (m : JsMap V) : JsMap V :=
  filter (λ kv, kv.1 ≠ k) m.

(** The browser state [updateCurrentConversation] works on.  [dom] is the
    child list of [#current-conversation]; ids of the form the function
    builds are taken to occur nowhere else in the document.  [messageQueue]
    and [isTyping], which the function only resets and nothing else of the
    reconciliation reads, are left out. *)
Record Store := mkStore {
  dom : list Child;
  currentMessages : JsMap Message;
  processedMessageIds : gset string;
  currentConversationId : option string;
  autoScroll : bool;
  localStorage : LocalStorage
}.

Definition with_dom (d : list Child) (s : Store) : Store :=
  mkStore d (currentMessages s) (processedMessageIds s)
          (currentConversationId s) (autoScroll s) (localStorage s).

(** Observable writes, in program order. *)
Inductive Effect :=
| SetInnerHTML (html : string)
| AppendChild (k : string)
| SetTextContent (k text : string)
| RemoveElement (k : string)
| ScrollToBottom
| SetItem (key value : string).

#[global] Instance Effect_eq_dec : EqDecision Effect.
Proof. solve_decision. Defined.

(** A step either throws ([None]) or yields the next store and its writes.
    On the data of this model the one exception a call can raise is the
    [TypeError] of [existing.querySelector] when [getElementById] finds no
    element for a key that [currentMessages] holds. *)
Definition Act : Type := Store → option (Store * list Effect).

Definition skip : Act := λ s, Some (s, []).

Definition andThen (a b : Act) : Act := λ s,
  match a s with
  | None => None
  | Some (s1, e1) =>
      match b s1 with
      | None => None
      | Some (s2, e2) => Some (s2, e1 ++ e2)
      end
  end.

(** *** DOM primitives *)

Definition node_ids (d : list Child) : list string :=
  omap (λ c, match c with MsgNode n => Some (elem_id n) | Static _ => None end) d.

(** [document.getElementById]: the first element carrying the id. *)
Fixpoint getElementById (k : string) (d : list Child) : option MsgDiv :=
  match d with
  | [] => None
  | MsgNode n :: r => if decide (elem_id n = k) then Some n else getElementById k r
  | Static _ :: r => getElementById k r
  end.

(** Assignment to the [textContent] of the [.msg-content] child of the
    element [getElementById] returns. *)
Fixpoint setTextContent (k text : string) (d : list Child) : list Child :=
  match d with
  | [] => []
  | MsgNode n :: r =>
      if decide (elem_id n = k)
      then MsgNode (mkMsgDiv (elem_id n) (className n) (msg_agent n) (msg_time n) text) :: r
      else MsgNode n :: setTextContent k text r
  | Static h :: r => Static h :: setTextContent k text r
  end.

(** [elem.remove()] on the element [getElementById] returns. *)
Fixpoint removeElement (k : string) (d : list Child) : list Child :=
  match d with
  | [] => []
  | MsgNode n :: r =>
      if decide (elem_id n = k) then r else MsgNode n :: removeElement k r
  | Static h :: r => Static h :: removeElement k r
  end.

(** *** [updateCurrentConversation] *)

Definition lower_ascii (c : ascii) : ascii :=
  let n := nat_of_ascii c in
  if (65 <=? n)%nat && (n <=? 90)%nat then ascii_of_nat (n + 32) else c.

Fixpoint toLowerCase (s : string) : string :=
  match s with
  | EmptyString => EmptyString
  | String c r => String (lower_ascii c) (toLowerCase r)
  end.

Definition displayAgent (a : string) : AgentLabel :=
  if decide (a = "OBSERVER") then LabelObserver
  else if decide (a = "SYSTEM") then LabelSystem
  else LabelEgo.

(** The element built for a message not seen before. *)
Definition newMsgDiv (m : Message) : MsgDiv :=
  let extraClass := if decide (agent m = "SYSTEM") then " system" else "" in
  mkMsgDiv (msgId m)
           ("message " +:+ toLowerCase (agent m) +:+ extraClass)
           (displayAgent (agent m))
           (timestamp m)
           (contentOrEmpty m).

Definition scrollIfAuto (s : Store) : list Effect :=
  if autoScroll s then [ScrollToBottom] else [].

(** The body of [msgs.forEach]. *)
Definition processMsg (msg : Message) : Act := λ s,
  let k := msgId msg in
  if negb (map_has k (currentMessages s)) then
    Some (mkStore (dom s ++ [MsgNode (newMsgDiv msg)])
                  (map_set k msg (currentMessages s))
                  (processedMessageIds s) (currentConversationId s)
                  (autoScroll s) (localStorage s),
          AppendChild k :: scrollIfAuto s)
  else
    match getElementById k (dom s) with
    | None => None
    | Some existing =>
        let newText := contentOrEmpty msg in
        let oldText := msg_content existing in
        if (String.length oldText <=? String.length newText)%nat
           && negb (bool_decide (newText = oldText))
        then Some (with_dom (setTextContent k newText (dom s)) s,
                   SetTextContent k newText :: scrollIfAuto s)
        else Some (s, [])
    end.

Definition forEachMsg (msgs : list Message) : Act :=
  foldr (λ m rest, andThen (processMsg m) rest) skip msgs.

(** The body of [toRemove.forEach]. *)
Definition removeStale (k : string) : Act := λ s,
  Some (mkStore (removeElement k (dom s))
                (map_delete k (currentMessages s))
                (processedMessageIds s ∖ {[k]})
                (currentConversationId s) (autoScroll s) (localStorage s),
        match getElementById k (dom s) with
        | Some _ => [RemoveElement k]
        | None => []
        end).

Definition validMsgIds (msgs : list Message) : gset string :=
  list_to_set (msgId <$> msgs).

Definition toRemove (msgs : list Message) (s : Store) : list string :=
  filter (λ k, k ∉ validMsgIds msgs) (map_keys (currentMessages s)).

Definition removeAll (ks : list string) : Act :=
  foldr (λ k rest, andThen (removeStale k) rest) skip ks.

Definition cleanUp (msgs : list Message) : Act := λ s,
  removeAll (toRemove msgs s) s.

(** [conversation.id && window.currentConversationId !== conversation.id] *)
Definition isNewConversation (c : Conversation) (s : Store) : bool :=
  match id c with
  | None => false
  | Some i => negb (bool_decide (i = "")) && negb (bool_decide (currentConversationId s = Some i))
  end.

Definition resetFor (c : Conversation) : Act := λ s,
  if isNewConversation c s then
    Some (mkStore [] [] ∅ (id c) (autoScroll s) (mkLocalStorage (id c) (Some [])),
          [SetInnerHTML "";
           SetItem "grokgates-current-conversation" (default "" (id c));
           SetItem "grokgates-processed-messages" "[]"])
  else Some (s, []).

(** The messages of a snapshot that passes the guard
    [!conversation || !conversation.messages || conversation.messages.length === 0]. *)
Definition snapshotMessages (conversation : option Conversation) : list Message :=
  match conversation with
  | Some c => default [] (messages c)
  | None => []
  end.

(** The store after the early return: placeholder shown, [currentMessages]
    and [processedMessageIds] cleared, nothing else touched. *)
Definition awaiting (s : Store) : Store :=
  mkStore [Static placeholder] [] ∅ (currentConversationId s)
          (autoScroll s) (localStorage s).

Definition updateCurrentConversation (conversation : option Conversation) : Act :=
  match conversation with
  | Some c =>
      match messages c with
      | Some (m :: ms) =>
          andThen (resetFor c)
            (andThen (forEachMsg (m :: ms)) (cleanUp (m :: ms)))
      | _ => λ s, Some (awaiting s, [SetInnerHTML placeholder])
      end
  | None => λ s, Some (awaiting s, [SetInnerHTML placeholder])
  end.

(** The [DOMContentLoaded] handler: the in-memory cache is read from
    [localStorage]; [currentMessages] starts empty.  [page] is the markup the
    container holds when the script starts. *)
Definition startup (page : list string) (scroll : bool) (ls : LocalStorage) : Store :=
  mkStore (Static <$> page) []
          (list_to_set (default [] (ls_processed ls)))
          (ls_conversation ls) scroll ls.

(** *** Well-formed stores *)

(** The message elements of the container and the entries of
    [currentMessages] carry the same ids in the same order, without
    repetition. *)
Definition wf (s : Store) : Prop :=
  NoDup (node_ids (dom s)) ∧ node_ids (dom s) = map_keys (currentMessages s).

(** What the page shows for a key. *)
Definition rendered (k : string) (s : Store) : option string :=
  msg_content <$> getElementById k (dom s).

(** A message whose element needs no further write. *)
Definition settled (m : Message) (s : Store) : Prop :=
  ∃ e, getElementById (msgId m) (dom s) = Some e ∧
       ((String.length (msg_content e) <=? String.length (contentOrEmpty m))%nat
        && negb (bool_decide (contentOrEmpty m = msg_content e))) = false.

(** The persisted processed-id set as the start-up code would read it. *)
Definition persistedIds (s : Store) : gset string :=
  list_to_set (default [] (ls_processed (localStorage s))).

(** *** Relations between the stores of a call *)

(** An element keeps its id, class and header, and its text does not get
    shorter. *)
Definition grows (e e' : MsgDiv) : Prop :=
  elem_id e' = elem_id e ∧ className e' = className e ∧
  msg_agent e' = msg_agent e ∧ msg_time e' = msg_time e ∧
  (String.length (msg_content e) ≤ String.length (msg_content e'))%nat.

(** The store fields the merge loop never writes. *)
Definition same_cache (s s' : Store) : Prop :=
  processedMessageIds s' = processedMessageIds s ∧
  currentConversationId s' = currentConversationId s ∧
  autoScroll s' = autoScroll s ∧
  localStorage s' = localStorage s.

(** The relation between the stores before and after one message. *)
Record msg_step (m : Message) (s s' : Store) : Prop := {
  step_cache : same_cache s s';
  step_other : ∀ k, k ≠ msgId m →
    getElementById k (dom s') = getElementById k (dom s);
  step_grows : ∀ e, getElementById (msgId m) (dom s) = Some e →
    ∃ e', getElementById (msgId m) (dom s') = Some e' ∧ grows e e' ∧
          (msg_content e' = msg_content e ∨ msg_content e' = contentOrEmpty m);
  step_keys : ∀ k, k ∈ map_keys (currentMessages s') ↔
    k ∈ map_keys (currentMessages s) ∨ k = msgId m;
  step_settled : settled m s'
}.

(** The relation between the stores before and after the merge loop. *)
Record merged (msgs : list Message) (s s' : Store) : Prop := {
  merged_cache : same_cache s s';
  merged_other : ∀ k, k ∉ msgId <$> msgs →
    getElementById k (dom s') = getElementById k (dom s);
  merged_grows : ∀ k e, getElementById k (dom s) = Some e →
    ∃ e', getElementById k (dom s') = Some e' ∧ grows e e' ∧
          (msg_content e' = msg_content e ∨
           ∃ m, m ∈ msgs ∧ msgId m = k ∧ msg_content e' = contentOrEmpty m);
  merged_keys : ∀ k, k ∈ map_keys (currentMessages s') ↔
    k ∈ map_keys (currentMessages s) ∨ k ∈ msgId <$> msgs;
  merged_settled : NoDup (msgId <$> msgs) → ∀ m, m ∈ msgs → settled m s'
}.

(** The relation between the stores before and after the removal of the
    keys [ks]. *)
Record swept (ks : list string) (s s' : Store) : Prop := {
  swept_conversation : currentConversationId s' = currentConversationId s;
  swept_scroll : autoScroll s' = autoScroll s;
  swept_storage : localStorage s' = localStorage s;
  swept_processed : processedMessageIds s' = processedMessageIds s ∖ list_to_set ks;
  swept_other : ∀ k, k ∉ ks →
    getElementById k (dom s') = getElementById k (dom s);
  swept_keys : map_keys (currentMessages s')
    = filter (λ k, k ∉ ks) (map_keys (currentMessages s))
}.

(** The three phases of a call on a snapshot that carries messages: reset
    (or not), merge loop, clean-up loop. *)
Definition phases (c : Conversation) (msgs : list Message)
           (s s' : Store) (ev : list Effect) : Prop :=
  ∃ s0 ev0 s1 ev1 ev2,
    resetFor c s = Some (s0, ev0) ∧ wf s0 ∧
    forEachMsg msgs s0 = Some (s1, ev1) ∧ wf s1 ∧ merged msgs s0 s1 ∧
    removeAll (toRemove msgs s1) s1 = Some (s', ev2) ∧ wf s' ∧
    swept (toRemove msgs s1) s1 s' ∧
    ev = ev0 ++ ev1 ++ ev2.

#[global] Instance wf_dec s : Decision (wf s).
Proof. unfold wf. apply _. Defined.

(** A child after the text [t] was written into the element of key [k]. *)
Definition retext (k t : string) (ch : Child) : Child :=
  match ch with
  | MsgNode n =>
      if decide (elem_id n = k)
      then MsgNode (mkMsgDiv (elem_id n) (className n) (msg_agent n) (msg_time n) t)
      else MsgNode n
  | Static h => Static h
  end.

(** *** Texts over a whole snapshot *)

(** The rule of the update branch, as a function of the displayed text and
    the content of the message. *)
Definition stepText (oldText newText : string) : string :=
  if (String.length oldText <=? String.length newText)%nat
     && negb (bool_decide (newText = oldText))
  then newText else oldText.

(** The rule applied for a series of contents, in order. *)
Definition runTexts (c : string) (ts : list string) : string :=
  foldl stepText c ts.

(** The contents of the messages of a snapshot that carry the key [k]. *)
Definition keyTexts (k : string) (msgs : list Message) : list string :=
  contentOrEmpty <$> filter (λ m, msgId m = k) msgs.

(** A child after the merge loop ran over messages whose keys are all
    stored. *)
Definition advance (msgs : list Message) (ch : Child) : Child :=
  match ch with
  | MsgNode n =>
      MsgNode (mkMsgDiv (elem_id n) (className n) (msg_agent n) (msg_time n)
                        (runTexts (msg_content n) (keyTexts (elem_id n) msgs)))
  | Static h => Static h
  end.

(** A child whose text is what the rule leaves after the messages [msgs]. *)
Definition ranOver (msgs : list Message) (ch : Child) : Prop :=
  match ch with
  | MsgNode n => ∃ c0, msg_content n = runTexts c0 (keyTexts (elem_id n) msgs)
  | Static _ => True
  end.

(** A write of the merge loop on a stored key. *)
Definition isTextWrite (e : Effect) : Prop :=
  match e with
  | SetTextContent _ _ | ScrollToBottom => True
  | _ => False
  end.

(** *** Scenario data *)

(** A snapshot's current conversation with an id and messages. *)
Definition conversation (i : string) (msgs : list Message) : option Conversation :=
  Some (mkConversation (Some i) (Some msgs)).

(** A first visit: nothing persisted, empty container, viewport at the bottom. *)
Definition first_visit : Store :=
  startup [] true (mkLocalStorage None None).

Definition ego_hello : Message := mkMessage "EGO" 1000 (Some "Hello").
Definition ego_hi : Message := mkMessage "EGO" 1000 (Some "Hi").

(** The store of a first visit once conversation c1 showed Hello. *)
Definition showing_hello : Store :=
  mkStore [MsgNode (newMsgDiv ego_hello)] [("EGO-1000", ego_hello)] ∅
          (Some "c1") true (mkLocalStorage (Some "c1") (Some [])).

Definition observer_hi : Message := mkMessage "OBSERVER" 1000 (Some "Hi").
Definition observer_hi_there : Message := mkMessage "OBSERVER" 1000 (Some "Hi there").

(** Decide a closed decidable proposition by evaluation. *)
Ltac by_evaluation := apply (bool_decide_unpack _); vm_compute; exact I.

Definition ego_hello_world : Message := mkMessage "EGO" 1000 (Some "Hello, world").
Definition system_note : Message := mkMessage "SYSTEM" 2000 (Some "note").

(** A later visit: the browser kept an id and one processed key. *)
Definition returning_visit : Store :=
  startup [] true (mkLocalStorage (Some "c1") (Some ["EGO-1000"])).

(** A store outside the invariant: [currentMessages] holds a key that has
    no element in the container. *)
Definition orphan_key : Store :=
  mkStore [] [("EGO-1000", ego_hello)] ∅
          (Some "c1") true (mkLocalStorage (Some "c1") (Some [])).

(** The text under a key after the merge loop met the contents [ts] in
    order, starting from the text shown ([None]: no element).  The first
    content is the text of the element the loop creates. *)
Definition textAfter (shown : option string) (ts : list string) : option string :=
  match shown, ts with
  | Some old, _ => Some (runTexts old ts)
  | None, [] => None
  | None, c :: r => Some (runTexts c r)
  end.

(** *** Sessions *)

(** The calls of a session: [updateCurrentConversation] on the snapshot of
    each [update] event (or poll of [fetchConversations]) in turn; the writes
    are concatenated. *)
Definition updateAll (convs : list (option Conversation)) : Act :=
  foldr (λ conv rest, andThen (updateCurrentConversation conv) rest) skip convs.

(** A store whose remembered conversation is c1 and whose container shows
    Hello and an older note. *)
Definition showing_two : Store :=
  mkStore [MsgNode (newMsgDiv system_note); MsgNode (newMsgDiv ego_hello)]
          [("SYSTEM-2000", system_note); ("EGO-1000", ego_hello)] ∅
          (Some "c1") false (mkLocalStorage (Some "c1") (Some [])).

End Reconciler.

(** ** Doubles *)

(** A JavaScript number is an IEEE 754 double, and an arithmetic operation
    returns the double nearest to the real result, a tie going to the double
    with the even significand.  [binary64] is that rounding on the
    rationals, for results in the normal range (no overflow, no
    subnormals). *)

Module Doubles.

(** The exponent of a positive rational: the [e] with [2^e <= x < 2^(e+1)]. *)
Definition exponent (x : Q) : Z :=
  let e := (Z.log2 (Qnum x) - Z.log2 (Zpos (Qden x)))%Z in
  if Qle_bool (2 ^ e) x then e else (e - 1)%Z.

(** The integer nearest to [x], the even one of the two when [x] is halfway. *)
Definition roundHalfEven (x : Q) : Z :=
  let f := Qfloor x in
  match (x - inject_Z f ?= 1 # 2)%Q with
  | Lt => f
  | Gt => (f + 1)%Z
  | Eq => if Z.even f then f else (f + 1)%Z
  end.

(** The nearest number with a significand of 53 bits, for a positive [x]. *)
Definition nearest (x : Q) : Q :=
  let ulp := (2 ^ (exponent x - 52))%Q in
  Qred (inject_Z (roundHalfEven (x / ulp)) * ulp).

Definition binary64 (x : Q) : Q :=
  match Qnum x with
  | Z0 => 0
  | Zpos _ => nearest x
  | Zneg _ => - nearest (- x)
  end.

End Doubles.

(** ** The ASCII animator *)

Module Animator.

Local Open Scope nat_scope.

(** A row of the grid: its UTF-16 code units. *)
Definition Row : Type := list ascii.

Definition space : ascii := " "%char.
Definition newline : ascii := ascii_of_nat 10.

(** *** String primitives *)

(** The index conversion of [String.prototype.slice]: a negative index
    counts from the end, and the result is clamped to the string. *)
Definition sliceIndex (len : nat) (i : Z) : nat :=
  if (i <? 0)%Z then Z.to_nat (Z.max (Z.of_nat len + i) 0)
  else Nat.min (Z.to_nat i) len.

(** [s.slice(start, end)] *)
Definition slice (s : Row) (start stop : Z) : Row :=
  let from := sliceIndex (length s) start in
  let to := sliceIndex (length s) stop in
  take (to - from) (drop from s).

(** [s.slice(start)] *)
Definition sliceFrom (s : Row) (start : Z) : Row :=
  drop (sliceIndex (length s) start) s.

(** [' '.repeat(n)], called with [n >= 0] only. *)
Definition blanks (n : Z) : Row := replicate (Z.to_nat n) space.

(** [s.padEnd(n, ' ')] *)
Definition padEnd (n : nat) (s : Row) : Row :=
  s ++ replicate (n - length s) space.

(** White space and line terminators among the code units below 256. *)
Definition isWhiteSpace (c : ascii) : bool :=
  let n := nat_of_ascii c in
  ((9 <=? n) && (n <=? 13) || (n =? 32) || (n =? 160))%nat.

Fixpoint trimStart (s : Row) : Row :=
  match s with
  | c :: r => if isWhiteSpace c then trimStart r else s
  | [] => []
  end.

(** [s.trim()] *)
Definition trim (s : Row) : Row :=
  reverse (trimStart (reverse (trimStart s))).

(** [s.split('\n')]: never empty. *)
Fixpoint splitLines (s : Row) : list Row :=
  match s with
  | [] => [[]]
  | c :: r =>
      if decide (c = newline) then [] :: splitLines r
      else match splitLines r with
           | l :: ls => (c :: l) :: ls
           | [] => [[c]]
           end
  end.

(** [lines.join('\n')] *)
Fixpoint joinLines (ls : list Row) : Row :=
  match ls with
  | [] => []
  | [l] => l
  | l :: r => l ++ newline :: joinLines r
  end.

(** *** The animator object *)

Record ASCIIAnimator := mkAnimator {
  originalLines : list Row;
  height : nat;
  width : nat;
  lines : list Row;
  animationFrame : Z;
  animationId : option positive;
  currentAnimation : option string;
  fps : Z
}.

(** [constructor(asciiArt)] *)
Definition new_ASCIIAnimator (asciiArt : string) : ASCIIAnimator :=
  let originalLines := splitLines (trim (list_ascii_of_string asciiArt)) in
  let width := max_list (length <$> originalLines) in
  mkAnimator originalLines (length originalLines) width
             (padEnd width <$> originalLines) 0 None None 20.

(** *** The effects *)

(** The shift written out in [waveEffect] and [shakeEffect]. *)
Definition shiftRow (offset : Z) (line : Row) : Row :=
  if (0 <? offset)%Z then blanks offset ++ slice line 0 (- offset)
  else if (offset <? 0)%Z then sliceFrom line (- offset) ++ blanks (- offset)
  else line.

(** The shift written out in [glitchEffect] and [danceEffect]: the [else]
    branch also takes offset 0. *)
Definition shiftRowElse (offset : Z) (line : Row) : Row :=
  if (0 <? offset)%Z then blanks offset ++ slice line 0 (- offset)
  else sliceFrom line (- offset) ++ blanks (- offset).

Definition Qltb (x y : Q) : bool := negb (Qle_bool y x).

(** [' '.repeat(this.width)] *)
Definition blankRow (a : ASCIIAnimator) : Row := replicate (width a) space.

(** ['!@#$%^&*'] *)
Definition glitchSymbols : Row := list_ascii_of_string "!@#$%^&*".

(** ['oO0@*'] *)
Definition blinkGlyphs : Row := list_ascii_of_string "oO0@*".

(** A computation that calls [Math.random()]: it receives the number of
    calls made so far and returns it updated. *)
Definition Rand (A : Type) : Type := nat → A * nat.

Definition ret {A} (x : A) : Rand A := λ n, (x, n).

Definition bind {A B} (m : Rand A) (f : A → Rand B) : Rand B :=
  λ n, let '(x, n') := m n in f x n'.

Notation "x ←$ m ; k" := (bind m (λ x, k))
  (at level 20, m at level 100, k at level 200, only parsing).

(** A loop that pushes the rows a body produces for each line. *)
Fixpoint forRows {A} (body : A → Rand (list Row)) (xs : list A) : Rand (list Row) :=
  match xs with
  | [] => ret []
  | x :: r => out ←$ body x; rest ←$ forRows body r; ret (out ++ rest)
  end.

(** A loop that appends the characters a body produces for each character. *)
Fixpoint forChars (body : ascii → Rand Row) (line : Row) : Rand Row :=
  match line with
  | [] => ret []
  | c :: r => out ←$ body c; rest ←$ forChars body r; ret (out ++ rest)
  end.

Section Effects.

(** [Math.sin], and the result of the n-th call of [Math.random()]. *)
Variable sin : Q → Q.
Variable random : nat → Q.

Definition nextRandom : Rand Q := λ n, (random n, S n).

Definition waveOffset (y : nat) (frame : Z) : Z :=
  Qfloor (sin (inject_Z (Z.of_nat y) * (1 # 5) + inject_Z frame * (1 # 5)) * 4).

Definition waveEffect (a : ASCIIAnimator) (frame : Z) : list Row :=
  imap (λ y line, shiftRow (waveOffset y frame) line) (lines a).

Definition pulseScale (frame : Z) : Q :=
  1 + sin (inject_Z frame * (1 # 10)) * (1 # 10).

Definition pulseEmptyLines (a : ASCIIAnimator) (frame : Z) : Z :=
  Qfloor (inject_Z (Z.of_nat (height a)) * (pulseScale frame - 1) / 2).

Definition pulseEffect (a : ASCIIAnimator) (frame : Z) : Rand (list Row) :=
  let scale := pulseScale frame in
  let top :=
    if Qltb 1 scale then replicate (Z.to_nat (pulseEmptyLines a frame)) (blankRow a)
    else [] in
  rows ←$ forRows (λ line,
            if Qltb 1 scale then
              stretched ←$ forChars (λ char,
                  r ←$ nextRandom;
                  ret (if Qltb r (scale - 1) then [char; char] else [char])) line;
              ret [slice stretched 0 (Z.of_nat (width a))]
            else
              r ←$ nextRandom;
              ret (if Qltb (1 - scale) r then [line] else [])) (lines a);
  ret (top ++ rows).

Definition bounceHeight (frame : Z) : Z :=
  Z.abs (Qfloor (sin (inject_Z frame * (1 # 5)) * 5)).

Definition bounceEffect (a : ASCIIAnimator) (frame : Z) : list Row :=
  take (height a)
       (replicate (Z.to_nat (bounceHeight frame)) (blankRow a) ++ lines a).

(** [Math.floor(Math.random() * 5) - 2] and [Math.floor(Math.random() * 3) - 1] *)
Definition shakeX (r : Q) : Z := (Qfloor (r * 5) - 2)%Z.
Definition shakeY (r : Q) : Z := (Qfloor (r * 3) - 1)%Z.

Definition shakeEffect (a : ASCIIAnimator) (frame : Z) : Rand (list Row) :=
  rx ←$ nextRandom;
  ry ←$ nextRandom;
  let top :=
    if (0 <? shakeY ry)%Z then replicate (Z.to_nat (shakeY ry)) (blankRow a)
    else [] in
  ret (take (height a) (top ++ (shiftRow (shakeX rx) <$> lines a))).

Definition glitchEffect (a : ASCIIAnimator) (frame : Z) : Rand (list Row) :=
  glitchIntensity ←$ nextRandom;
  forRows (λ line,
    r ←$ nextRandom;
    if Qltb r (glitchIntensity * (1 # 10)) then
      r2 ←$ nextRandom;
      if Qltb r2 (1 # 2) then
        r3 ←$ nextRandom;
        ret [shiftRowElse (Qfloor (r3 * 11) - 5) line]
      else
        newLine ←$ forChars (λ char,
            if decide (char = space) then ret [char]
            else
              r4 ←$ nextRandom;
              if Qltb r4 (3 # 10) then
                r5 ←$ nextRandom;
                ret (match glitchSymbols !! Z.to_nat (Qfloor (r5 * 8)) with
                     | Some sym => [sym]
                     | None => list_ascii_of_string "undefined"
                     end)
              else ret [char]) line;
        ret [newLine]
    else ret [line]) (lines a).

Definition matrixEffect (a : ASCIIAnimator) (frame : Z) : Rand (list Row) :=
  forRows (λ line,
    newLine ←$ forChars (λ char,
        if decide (char = space) then ret [char]
        else
          r ←$ nextRandom;
          if Qltb r (1 # 20) then
            r2 ←$ nextRandom;
            ret [if Qltb r2 (1 # 2) then "0"%char else "1"%char]
          else ret [char]) line;
    ret [newLine]) (lines a).

Definition blinkOn (frame : Z) : bool := (5 <? Z.rem frame 30)%Z.

Definition blinkEffect (a : ASCIIAnimator) (frame : Z) : list Row :=
  (λ line : Row,
     (λ char, if bool_decide (char ∈ blinkGlyphs) && negb (blinkOn frame)
              then "-"%char else char) <$> line) <$> lines a.

Definition danceEffect (a : ASCIIAnimator) (frame : Z) : Rand (list Row) :=
  let currentMove := Z.rem (frame / 20) 4 in
  if (currentMove =? 0)%Z then
    let offset := Qfloor (sin (inject_Z frame * (3 # 10)) * 5) in
    ret (shiftRowElse offset <$> lines a)
  else if (currentMove =? 1)%Z then ret (bounceEffect a frame)
  else if (currentMove =? 2)%Z then ret (waveEffect a frame)
  else shakeEffect a frame.

(** The [switch] of the frame callback. *)
Definition effectFrame (name : string) (a : ASCIIAnimator) (frame : Z)
  : Rand (list Row) :=
  if decide (name = "wave") then ret (waveEffect a frame)
  else if decide (name = "pulse") then pulseEffect a frame
  else if decide (name = "bounce") then ret (bounceEffect a frame)
  else if decide (name = "shake") then shakeEffect a frame
  else if decide (name = "glitch") then glitchEffect a frame
  else if decide (name = "dance") then danceEffect a frame
  else if decide (name = "matrix") then matrixEffect a frame
  else if decide (name = "blink") then ret (blinkEffect a frame)
  else ret (lines a).

End Effects.

(** *** Scheduling *)

(** The page as the animator sees it.  [artText] is the [textContent] of
    [#ascii-art], [None] when the element is missing.  [pending] lists the
    callbacks registered with [requestAnimationFrame] that were neither run
    nor cancelled, each with its handle and the [startTime] its closure
    captured.  [randomCalls] counts the calls of [Math.random()]. *)
Record Page := mkPage {
  animator : ASCIIAnimator;
  artText : option Row;
  pending : list (positive * Q);
  nextHandle : positive;
  randomCalls : nat
}.

(** [displayFrame(lines)] *)
Definition displayFrame (ls : list Row) (p : Page) : Page :=
  mkPage (animator p)
         (match artText p with Some _ => Some (joinLines ls) | None => None end)
         (pending p) (nextHandle p) (randomCalls p).

(** [cancelAnimationFrame(h)] *)
Definition cancelAnimationFrame (h : positive) (p : Page) : Page :=
  mkPage (animator p) (artText p) (filter (λ cb, cb.1 ≠ h) (pending p))
         (nextHandle p) (randomCalls p).

(** [stopAnimation()] *)
Definition stopAnimation (p : Page) : Page :=
  let p1 :=
    match animationId (animator p) with
    | Some h => cancelAnimationFrame h p
    | None => p
    end in
  let a := animator p1 in
  displayFrame (lines a)
    (mkPage (mkAnimator (originalLines a) (height a) (width a) (lines a)
                        (animationFrame a) None None (fps a))
            (artText p1) (pending p1) (nextHandle p1) (randomCalls p1)).

Section Scheduler.

Variable sin : Q → Q.
Variable random : nat → Q.

(** The clock readings are doubles and so are the difference and the
    quotients [animate()] takes of them: [round] is the rounding of a real
    result to the double that the operation returns. *)
Variable round : Q → Q.

(** The closure [frame] of [animate()], whose [startTime] is [start], run
    when [performance.now()] reads [now]:
    [deltaTime = currentTime - startTime] and
    [animationFrame = Math.floor(deltaTime / (1000 / this.fps))]. *)
Definition frame (start now : Q) (p : Page) : Page :=
  let a := animator p in
  let deltaTime := round (now - start)%Q in
  let animationFrame := Qfloor (round (deltaTime / round (1000 / inject_Z (fps a)))) in
  let '(animatedLines, calls) :=
    match currentAnimation a with
    | Some name => effectFrame sin random name a animationFrame (randomCalls p)
    | None => (lines a, randomCalls p)
    end in
  let p1 := displayFrame animatedLines p in
  let h := nextHandle p in
  mkPage (mkAnimator (originalLines a) (height a) (width a) (lines a)
                     animationFrame (Some h) (currentAnimation a) (fps a))
         (artText p1) (pending p ++ [(h, start)]) (Pos.succ h) calls.

(** [animate()]; [start] and [now] are its two readings of the clock. *)
Definition animate (start now : Q) (p : Page) : Page :=
  match currentAnimation (animator p) with
  | None => p
  | Some name => if decide (name = "") then p else frame start now p
  end.

(** [startAnimation(animationType)] *)
Definition startAnimation (animationType : string) (start now : Q) (p : Page) : Page :=
  let p1 := stopAnimation p in
  let a := animator p1 in
  animate start now
    (mkPage (mkAnimator (originalLines a) (height a) (width a) (lines a)
                        0 (animationId a) (Some animationType) (fps a))
            (artText p1) (pending p1) (nextHandle p1) (randomCalls p1)).

(** The browser runs the pending callback with handle [h]. *)
Definition runCallback (h : positive) (now : Q) (p : Page) : Page :=
  match list_find (λ cb, cb.1 = h) (pending p) with
  | Some (_, (_, start)) =>
      frame start now
        (mkPage (animator p) (artText p) (filter (λ cb, cb.1 ≠ h) (pending p))
                (nextHandle p) (randomCalls p))
  | None => p
  end.

End Scheduler.

(** The page once the art has been fetched:
    [asciiAnimator = new ASCIIAnimator(data.ascii_art)] and
    [asciiAnimator.displayFrame(asciiAnimator.lines)]. *)
Definition loadPage (asciiArt : string) (elem : option Row) : Page :=
  let a := new_ASCIIAnimator asciiArt in
  displayFrame (lines a) (mkPage a elem [] 1%positive 0).

(** The grid the constructor builds, written out: [asciiArt.trim()] is split
    at the newlines and each row is followed by spaces up to the length of
    the longest. *)
Definition paddedLines (asciiArt : string) : list Row :=
  let original := splitLines (trim (list_ascii_of_string asciiArt)) in
  (λ l, l ++ replicate (max_list (length <$> original) - length l) space)
    <$> original.

(** The grid in the words of the specification, which does not trim: the
    rows of the source art, each right-padded with spaces to the length of
    the longest. *)
Definition sourceRowsPadded (asciiArt : string) : list Row :=
  let rows := splitLines (list_ascii_of_string asciiArt) in
  (λ l, l ++ replicate (max_list (length <$> rows) - length l) space) <$> rows.

(** [asciiArt.trim()] as a string. *)
Definition trimmed (asciiArt : string) : string :=
  string_of_list_ascii (trim (list_ascii_of_string asciiArt)).

(** A row in which the characters marked in [dups] stand twice. *)
Definition stretch (dups : list bool) (line : Row) : Row :=
  concat (zip_with (λ (c : ascii) (d : bool), if d then [c; c] else [c]) line dups).

(** *** The director *)

(** The page script plays the effects at random: [randomAnimation] starts
    one, registers a timeout that stops the animator and a timeout that runs
    [randomAnimation] again.  Neither timeout is ever cleared. *)

(** [['wave', 'pulse', 'bounce', 'shake', 'glitch', 'dance', 'matrix', 'blink']] *)
Definition animations : list string :=
  ["wave"; "pulse"; "bounce"; "shake"; "glitch"; "dance"; "matrix"; "blink"].

(** The two callbacks [randomAnimation] passes to [setTimeout]. *)
Inductive Timeout := StopTimeout | NextTimeout.

#[global] Instance Timeout_eq_dec : EqDecision Timeout.
Proof. solve_decision. Defined.

(** The page together with the timeouts that are registered and have not
    run, each with the time at which it is due, in the order of their
    registration.  The mirror of the frames in [#ascii-art-mobile], which
    does not touch the animator, is left out. *)
Record Stage := mkStage {
  page : Page;
  timeouts : list (Q * Timeout)
}.

(** [(Math.random() * 10 + 5) * 1000] and [(Math.random() * 55 + 5) * 1000] *)
Definition animDuration (r : Q) : Q := (r * 10 + 5) * 1000.
Definition nextDelay (r : Q) : Q := (r * 55 + 5) * 1000.

Section Director.

Variable sin : Q → Q.
Variable random : nat → Q.
Variable round : Q → Q.

(** A call of [Math.random()] outside the effects. *)
Definition draw (p : Page) : Q * Page :=
  (random (randomCalls p),
   mkPage (animator p) (artText p) (pending p) (nextHandle p) (S (randomCalls p))).

(** [randomAnimation()], called when the clock of [setTimeout] reads
    [clock]; [start] and [now] are the two readings of [performance.now()]
    in [startAnimation].  An index outside the array gives [undefined], on
    which [toUpperCase] throws: the result is [None]. *)
Definition randomAnimation (clock start now : Q) (st : Stage) : option Stage :=
  let '(r1, p1) := draw (page st) in
  let randomIndex := Qfloor (r1 * inject_Z (Z.of_nat (length animations))) in
  match (if (randomIndex <? 0)%Z then None
         else animations !! Z.to_nat randomIndex) with
  | None => None
  | Some animationType =>
      let p2 := startAnimation sin random round animationType start now p1 in
      let '(r2, p3) := draw p2 in
      let '(r3, p4) := draw p3 in
      Some (mkStage p4 (timeouts st ++ [((clock + animDuration r2)%Q, StopTimeout);
                                        ((clock + nextDelay r3)%Q, NextTimeout)]))
  end.

(** The browser runs the [i]-th registered timeout. *)
Definition runTimeout (i : nat) (clock start now : Q) (st : Stage) : option Stage :=
  match timeouts st !! i with
  | None => Some st
  | Some (_, StopTimeout) =>
      Some (mkStage (stopAnimation (page st)) (delete i (timeouts st)))
  | Some (_, NextTimeout) =>
      randomAnimation clock start now (mkStage (page st) (delete i (timeouts st)))
  end.

End Director.

(** The stage once the art is loaded, at clock reading [clock]:
    [animationTimeout = setTimeout(randomAnimation, 3000)]. *)
Definition loadStage (asciiArt : string) (elem : option Row) (clock : Q) : Stage :=
  mkStage (loadPage asciiArt elem) [((clock + 3000)%Q, NextTimeout)].

(** Draws for the director's examples: effect index 0 (wave), then a stop
    delay of 9 s and a next delay of 5 s, then the same again. *)
Definition director_draws (i : nat) : Q :=
  match i with
  | 1 => 2 # 5
  | 4 => 2 # 5
  | _ => 0
  end.

(** *** Invariants and sessions *)

(** At most one loop: the pending callbacks are exactly the one the animator
    remembers, if any. *)
Definition oneLoop (p : Page) : Prop :=
  match animationId (animator p) with
  | Some h => ∃ start, pending p = [(h, start)]
  | None => pending p = []
  end.

(** The rows of a grid have its width and are as many as its height. *)
Definition gridShape (a : ASCIIAnimator) : Prop :=
  length (lines a) = height a ∧ Forall (λ r, length r = width a) (lines a).

(** The pages a session can be in: the art is loaded, then animations are
    started and stopped and the browser runs frame callbacks. *)
Inductive reachable (sin : Q → Q) (random : nat → Q) (round : Q → Q)
          (asciiArt : string) (elem : option Row) : Page → Prop :=
| reach_load : reachable sin random round asciiArt elem (loadPage asciiArt elem)
| reach_start p ty start now :
    reachable sin random round asciiArt elem p →
    reachable sin random round asciiArt elem (startAnimation sin random round ty start now p)
| reach_stop p :
    reachable sin random round asciiArt elem p →
    reachable sin random round asciiArt elem (stopAnimation p)
| reach_run p h now :
    reachable sin random round asciiArt elem p →
    reachable sin random round asciiArt elem (runCallback sin random round h now p).

(** What every operation maintains. *)
Definition session (asciiArt : string) (elem : option Row) (p : Page) : Prop :=
  lines (animator p) = paddedLines asciiArt ∧ oneLoop p ∧
  (is_Some (artText p) ↔ is_Some elem).

(** *** Example data *)

(** Arithmetic in which no operation rounds. *)
Definition no_rounding : Q → Q := λ x, x.

(** A grid of forty rows. *)
Definition tall_art : string :=
  string_of_list_ascii
    (concat (replicate 39 ["x"%char; newline]) ++ ["x"%char]).

(** [Math.sin(0.6)] is 0.5646...; the pulse example, at frame 6, takes the
    sine as 14/25. *)
Definition sine_at_frame_6 : Q → Q := λ _, 14 # 25.

(** Draws of 1/2: pulse duplicates no character. *)
Definition even_draws : nat → Q := λ _, 1 # 2.

(** The draws of the glitch example: intensity 1/2, the row is picked (0),
    it is shifted (0), and the offset draw is 15/16. *)
Definition glitch_draws (i : nat) : Q :=
  match i with
  | 0 => 1 # 2
  | 1 => 0
  | 2 => 0
  | _ => 15 # 16
  end.


End Animator.

(** ** The beacon feed and the status widgets *)

Module Widgets.

Local Open Scope nat_scope.

(** A JavaScript string as the list of its code units. *)
Abbreviation Text := (list ascii) (only parsing).

Definition txt (s : string) : Text := list_ascii_of_string s.

(** [a || b] for a string [a] that may be missing: [undefined], [null] and
    the empty string are falsy. *)
Definition orElse (a : option Text) (b : Text) : Text :=
  match a with
  | Some (c :: r) => c :: r
  | _ => b
  end.

(** *** [escapeHtml] *)

(** [escapeHtml(text)] assigns [text] to the [textContent] of a new [div]
    and returns its [innerHTML]: the serialisation of one text node, in
    which the browser writes the ampersand, the no-break space and the two
    angle brackets as character references. *)
Definition escapeChar (c : ascii) : Text :=
  if decide (c = "&"%char) then txt "&amp;"
  else if decide (c = ascii_of_nat 160) then txt "&nbsp;"
  else if decide (c = "<"%char) then txt "&lt;"
  else if decide (c = ">"%char) then txt "&gt;"
  else [c].

Definition escapeHtml (text : Text) : Text := text ≫= escapeChar.

(** The no-break space. *)
Definition nbsp : ascii := ascii_of_nat 160.

(** *** [updateBeacon] *)

Record Tweet := mkTweet {
  tweet_type : option Text;
  tweet_handle : option Text;
  tweet_author : option Text;
  tweet_text : option Text;
  tweet_content : option Text
}.

Record Post := mkPost {
  post_author : option Text;
  post_text : option Text;
  post_content : option Text
}.

(** A beacon of the feed.  [tweets] is an array when present; a count of 0
    is falsy. *)
Record Beacon := mkBeacon {
  formatted : option Text;
  tweets : option (list Tweet);
  posts : option (list Post);
  phase : option Text;
  beacon_timestamp : Z;
  tweet_count : option Z
}.

(** The content given to a [div.beacon-entry]: the variable parts of the
    markup assigned to its [innerHTML].  A line of a beacon is the markup of
    its author span (without the glyph in front and the colon behind) and
    the markup of its text span; [time] is the timestamp whose
    [toLocaleTimeString()] is shown. *)
Inductive BeaconEntry :=
| Formatted (html : Text)
| Signals (phase : Text) (time : Z) (posts : list (Text * Text)) (count : option Z)
| Intercept (time : Z) (posts : list (Text * Text))
| EmptyEntry.

(** A child of [#beacon-feed]. *)
Inductive FeedChild :=
| NoSignal
| Entry (e : BeaconEntry).

(** [beacon.tweets && beacon.tweets.length === 1 && beacon.tweets[0].type === 'error'] *)
Definition isErrorBeacon (b : Beacon) : bool :=
  match tweets b with
  | Some [t] => bool_decide (tweet_type t = Some (txt "error"))
  | _ => false
  end.

(** The line of a tweet: the text is cut after 150 code units. *)
Definition tweetLine (tweet : Tweet) : Text * Text :=
  let author :=
    orElse (tweet_handle tweet)
           ("@"%char :: orElse (tweet_author tweet) (txt "unknown")) in
  let text := orElse (tweet_text tweet) (orElse (tweet_content tweet) []) in
  (escapeHtml author,
   escapeHtml (take 150 text) ++ (if 150 <? length text then txt "..." else [])).

(** The line of a post of the legacy format. *)
Definition postLine (post : Post) : Text * Text :=
  let author := orElse (post_author post) (txt "unknown") in
  let text := orElse (post_text post) (orElse (post_content post) []) in
  ("@"%char :: escapeHtml author, escapeHtml text).

Definition beaconEntry (beacon : Beacon) : BeaconEntry :=
  match formatted beacon with
  | Some (c :: r) => Formatted (escapeHtml (c :: r))
  | _ =>
      match tweets beacon with
      | Some ts =>
          Signals (orElse (phase beacon) (txt "UNKNOWN")) (beacon_timestamp beacon)
                  (foldl (λ tweetsHtml tweet, tweetsHtml ++ [tweetLine tweet]) [] ts)
                  (match tweet_count beacon with
                   | Some n => if decide (n = 0%Z) then None else Some n
                   | None => None
                   end)
      | None =>
          match posts beacon with
          | Some (p :: ps) =>
              Intercept (beacon_timestamp beacon)
                        (foldl (λ postsHtml post, postsHtml ++ [postLine post])
                               [] (p :: ps))
          | _ => EmptyEntry
          end
      end
  end.

(** [updateBeacon(beaconData)]: the children of [#beacon-feed] after the
    call.  Whatever the feed held before is discarded. *)
Definition updateBeacon (beaconData : option (list Beacon)) : list FeedChild :=
  match beaconData with
  | Some (b :: bs) =>
      foldl (λ feed beacon,
               if isErrorBeacon beacon then feed
               else feed ++ [Entry (beaconEntry beacon)])
            [] (b :: bs)
  | _ => [NoSignal]
  end.

(** The markup of the lines of an entry. *)
Definition entryMarkup (child : FeedChild) : list Text :=
  match child with
  | Entry (Formatted html) => [html]
  | Entry (Signals _ _ ls _) | Entry (Intercept _ ls) => ls ≫= (λ l, [l.1; l.2])
  | _ => []
  end.

(** *** [updateStats] *)

(** [s.padStart(n, fill)] with a one-character [fill]. *)
Definition padStart (n : nat) (fill : ascii) (s : Text) : Text :=
  replicate (n - length s) fill ++ s.

(** The [textContent] of [#beacon-count] and of [#mobile-beacon-count]
    ([None]: the page has no such element). *)
Record Counters := mkCounters {
  beaconCount : Text;
  mobileBeaconCount : option Text
}.

Record Stats := mkStats {
  beacon_count : option Z
}.

(** [updateStats(stats)]; an integer count prints in decimal notation. *)
Definition updateStats (stats : option Stats) (c : Counters) : Counters :=
  match stats with
  | None => c
  | Some st =>
      match beacon_count st with
      | None => c
      | Some n =>
          let shown := padStart 3 "0" (txt (pretty n)) in
          mkCounters shown
                     (match mobileBeaconCount c with
                      | Some _ => Some shown
                      | None => None
                      end)
      end
  end.

(** *** [updateMemory] *)

(** [Math.min] and [Math.max] of two numbers. *)
Definition Math_min (x y : Q) : Q := if Qle_bool x y then x else y.
Definition Math_max (x y : Q) : Q := if Qle_bool x y then y else x.

(** The [textContent] of [#memory] and of [#mobile-memory]. *)
Record MemoryDisplays := mkMemoryDisplays {
  memoryDisplay : Text;
  mobileMemory : option Text
}.

Section Memory.

(** [parseInt] on the text of the display; [None] stands for [NaN]. *)
Variable parseInt : Text → option Z.

(** The rounding of a real result to the double that the subtraction, the
    multiplication and the addition return. *)
Variable round : Q → Q.

(** [memValue] for the draw [r]. *)
Definition memValue (shown : Text) (r : Q) : Z :=
  let base :=
    match parseInt shown with
    | Some n => if decide (n = 0%Z) then 45%Z else n
    | None => 45%Z
    end in
  let change := round (round (r - (1 # 2)) * 10)%Q in
  let newMem := Math_min 99 (Math_max 10 (round (inject_Z base + change))) in
  Qfloor newMem.

(** [updateMemory()] *)
Definition updateMemory (r : Q) (d : MemoryDisplays) : MemoryDisplays :=
  let shown := txt (pretty (memValue (memoryDisplay d) r)) in
  mkMemoryDisplays shown
                   (match mobileMemory d with
                    | Some _ => Some shown
                    | None => None
                    end).

End Memory.

(** *** [animateBeaconIcon] *)

(** [iconFrame] and the [textContent] of [#beacon-icon] ([None]: no such
    element). *)
Record Icon := mkIcon {
  iconFrame : nat;
  beaconIcon : option Text
}.

Section BeaconIcon.

(** The array [beaconIconFrames]; the script fills it with four drawings. *)
Variable beaconIconFrames : list Text.

(** [animateBeaconIcon()]; an index outside the array reads [undefined]. *)
Definition animateBeaconIcon (i : Icon) : Icon :=
  match beaconIcon i with
  | Some _ =>
      mkIcon ((iconFrame i + 1) `mod` length beaconIconFrames)
             (Some (default (txt "undefined") (beaconIconFrames !! iconFrame i)))
  | None => i
  end.

End BeaconIcon.

(** *** The theme switcher *)

(** What the switcher reads and writes: whether [body] carries the class
    [inverted], the [localStorage] item [grokgates-theme], and the text of
    the two buttons ([None]: the page has no such button).  The half-second
    [psychedelic] animation of the body is left out. *)
Record Theme := mkTheme {
  bodyInverted : bool;
  savedTheme : option string;
  desktopButton : option string;
  mobileButton : option string
}.

Definition setButton (text : string) (button : option string) : option string :=
  match button with
  | Some _ => Some text
  | None => None
  end.

(** The text of a button for a state of the body. *)
Definition themeLabel (inverted : bool) : string :=
  if inverted then "[REVERT]" else "[INVERT]".

(** [updateThemeButton(isInverted)] *)
Definition updateThemeButton (isInverted : bool) (t : Theme) : Theme :=
  let text := if isInverted then "[REVERT]" else "[INVERT]" in
  mkTheme (bodyInverted t) (savedTheme t)
          (setButton text (desktopButton t)) (setButton text (mobileButton t)).

(** The body of [setupThemeSwitcher()] up to the click handlers. *)
Definition setupThemeSwitcher (t : Theme) : Theme :=
  if decide (savedTheme t = Some "normal") then
    updateThemeButton false
      (mkTheme false (savedTheme t) (desktopButton t) (mobileButton t))
  else updateThemeButton true t.

(** [toggleTheme()], the click handler of both buttons. *)
Definition toggleTheme (t : Theme) : Theme :=
  let isInverted := negb (bodyInverted t) in
  updateThemeButton isInverted
    (mkTheme isInverted (Some (if isInverted then "inverted" else "normal"))
             (desktopButton t) (mobileButton t)).

(** A page as the server sends it ([body] carries [inverted]) in a browser
    that holds the theme item [saved]. *)
Definition servedPage (saved : option string) (desktop mobile : option string) : Theme :=
  mkTheme true saved desktop mobile.

(** *** [typewriterEffect] *)

(** The state of one [typewriterEffect(element, text, callback)]: the
    [textContent] of the element, the closure's [index], whether
    [#typing-indicator] carries the class [active], whether a timeout for
    [type] is registered, and how often the end of the text was reached
    (where [callback], if given, is called). *)
Record Typewriter := mkTypewriter {
  elementText : Text;
  index : nat;
  indicatorActive : bool;
  timerSet : bool;
  finished : nat
}.

(** [text.charAt(i)] *)
Definition charAt (text : Text) (i : nat) : Text := take 1 (drop i text).

(** The closure [type]. *)
Definition type (text : Text) (t : Typewriter) : Typewriter :=
  if index t <? length text then
    mkTypewriter (elementText t ++ charAt text (index t)) (S (index t))
                 (indicatorActive t) true (finished t)
  else
    mkTypewriter (elementText t) (index t) false false (S (finished t)).

(** [typewriterEffect(element, text, callback)] up to its return, on an
    element that shows [shown]. *)
Definition typewriterEffect (shown text : Text) : Typewriter :=
  type text (mkTypewriter shown 0 true false 0).

(** The state after the timeout ran [n] more times. *)
Definition afterTimeouts (text : Text) (n : nat) (t : Typewriter) : Typewriter :=
  Nat.iter n (type text) t.

(** *** The clean-up of [applyProposalHighlight] *)

(** The loop over the lines: a line whose trimmed text is longer than 60 is
    dropped when that text was seen before.  [seen] is the [Set]. *)
Fixpoint dedupe (seen : gset Text) (ls : list Text) : list Text :=
  match ls with
  | [] => []
  | line :: r =>
      let key := Animator.trim line in
      if 60 <? length key then
        if bool_decide (key ∈ seen) then dedupe seen r
        else line :: dedupe ({[key]} ∪ seen) r
      else line :: dedupe seen r
  end.

(** [cleaned], for the [textContent] [raw] of the container. *)
Definition cleaned (raw : Text) : Text :=
  Animator.joinLines (dedupe ∅ (Animator.splitLines raw)).

(** A line that the clean-up may drop. *)
Definition isLong (line : Text) : Prop := 60 < length (Animator.trim line).

#[global] Instance isLong_dec line : Decision (isLong line).
Proof. unfold isLong. apply _. Defined.

End Widgets.

(** ** Properties of the rounding of doubles *)

Module DoublesProofs.

Import Doubles.

Local Open Scope Q_scope.

Lemma pow2_pos e : 0 < 2 ^ e.
Proof. by apply Qpower_0_lt. Qed.

Lemma pow2_le a b : (a ≤ b)%Z → 2 ^ a <= 2 ^ b.
Proof. intros H. by apply Qpower_le_compat_l. Qed.

Lemma pow2_succ a : 2 ^ (a + 1) == 2 * 2 ^ a.
Proof. rewrite Qpower_plus by done. change (2 ^ 1) with 2. ring. Qed.

Lemma pow2_Z n : (0 ≤ n)%Z → inject_Z (2 ^ n) == 2 ^ n.
Proof. apply (Zpower_Qpower 2 n). Qed.

Lemma log2_bounds n :
  (0 < n)%Z → 2 ^ Z.log2 n <= inject_Z n ∧ inject_Z n < 2 * 2 ^ Z.log2 n.
Proof.
  intros Hn. destruct (Z.log2_spec n Hn) as [H1 H2].
  rewrite <- pow2_Z by apply Z.log2_nonneg. split.
  - by rewrite <- Zle_Qle.
  - change 2 with (inject_Z 2) at 1. rewrite <- inject_Z_mult, <- Zlt_Qlt.
    rewrite Z.pow_succ_r in H2 by apply Z.log2_nonneg. done.
Qed.

Lemma exponent_spec x :
  0 < x → 2 ^ exponent x <= x ∧ x < 2 ^ (exponent x + 1).
Proof.
  intros Hx. unfold exponent.
  set (a := Z.log2 (Qnum x)). set (b := Z.log2 (Z.pos (Qden x))).
  assert (0 < Qnum x)%Z as Hn.
  { destruct x as [n d]. unfold Qlt in Hx. cbn in *. lia. }
  destruct (log2_bounds (Qnum x) Hn) as [A1 A2]. fold a in A1, A2.
  destruct (log2_bounds (Z.pos (Qden x)) eq_refl) as [B1 B2]. fold b in B1, B2.
  pose proof (pow2_pos a) as PA. pose proof (pow2_pos b) as PB.
  assert (x * inject_Z (Z.pos (Qden x)) == inject_Z (Qnum x)) as Ex.
  { destruct x as [n d]. unfold Qeq, Qmult, inject_Z. cbn. lia. }
  set (N := inject_Z (Qnum x)) in *. set (D := inject_Z (Z.pos (Qden x))) in *.
  assert (2 ^ (a - b) * 2 ^ b == 2 ^ a) as Eab.
  { rewrite <- Qpower_plus by done. by replace (a - b + b)%Z with a by lia. }
  pose proof (pow2_pos (a - b)) as PAB.
  set (P := 2 ^ (a - b)) in *. set (A := 2 ^ a) in *. set (B := 2 ^ b) in *.
  destruct (Qle_bool P x) eqn:E.
  - apply Qle_bool_iff in E. split; [done|]. rewrite pow2_succ. fold P.
    apply Qnot_le_lt. intros Hc. nra.
  - assert (x < P) as Hlt.
    { apply Qnot_le_lt. intros Hc. apply Qle_bool_iff in Hc. congruence. }
    replace (a - b - 1 + 1)%Z with (a - b)%Z by lia. fold P. split; [|done].
    assert (2 * 2 ^ (a - b - 1) == P) as Ehalf.
    { rewrite <- pow2_succ. unfold P. by replace (a - b - 1 + 1)%Z with (a - b)%Z by lia. }
    pose proof (pow2_pos (a - b - 1)) as PH.
    set (H := 2 ^ (a - b - 1)) in *.
    apply Qnot_lt_le. intros Hc. nra.
Qed.

Lemma roundHalfEven_bounds x :
  (Qfloor x ≤ roundHalfEven x ≤ Qfloor x + 1)%Z.
Proof.
  unfold roundHalfEven. destruct (_ ?= _); [destruct (Z.even _)|..]; lia.
Qed.

Lemma roundHalfEven_Z n : roundHalfEven (inject_Z n) = n.
Proof.
  unfold roundHalfEven. rewrite Qfloor_Z.
  destruct (Qcompare_spec (inject_Z n - inject_Z n) (1 # 2)) as [H|H|H];
    [exfalso; lra|done|exfalso; lra].
Qed.

Lemma roundHalfEven_mono x y : x <= y → (roundHalfEven x ≤ roundHalfEven y)%Z.
Proof.
  intros Hxy. pose proof (Qfloor_resp_le _ _ Hxy) as Hf.
  pose proof (roundHalfEven_bounds x). pose proof (roundHalfEven_bounds y).
  destruct (decide (Qfloor x = Qfloor y)) as [E|]; [|lia].
  unfold roundHalfEven. rewrite <- E.
  destruct (Qcompare_spec (x - inject_Z (Qfloor x)) (1 # 2)) as [Hx|Hx|Hx];
    destruct (Qcompare_spec (y - inject_Z (Qfloor x)) (1 # 2)) as [Hy|Hy|Hy];
    try destruct (Z.even _); try lia; exfalso; lra.
Qed.

Lemma significand x :
  0 < x →
  let ulp := 2 ^ (exponent x - 52) in
  inject_Z (2 ^ 52) <= x / ulp ∧ x / ulp <= inject_Z (2 ^ 53).
Proof.
  intros Hx ulp. destruct (exponent_spec x Hx) as [H1 H2].
  pose proof (pow2_pos (exponent x - 52)) as Pu. fold ulp in Pu.
  assert (2 ^ exponent x == inject_Z (2 ^ 52) * ulp) as E.
  { rewrite pow2_Z by done. unfold ulp. rewrite <- Qpower_plus by done.
    by replace (52 + (exponent x - 52))%Z with (exponent x) by lia. }
  rewrite pow2_succ, E in H2. rewrite E in H1.
  assert (inject_Z (2 ^ 53) == 2 * inject_Z (2 ^ 52)) as -> by done.
  split.
  - apply Qle_shift_div_l; [done|]. done.
  - apply Qle_shift_div_r; [done|]. lra.
Qed.

Lemma nearest_bounds x :
  0 < x → 2 ^ exponent x <= nearest x ∧ nearest x <= 2 ^ (exponent x + 1).
Proof.
  intros Hx. destruct (significand x Hx) as [H1 H2]. unfold nearest.
  rewrite Qred_correct.
  pose proof (pow2_pos (exponent x - 52)) as Pu.
  set (ulp := 2 ^ (exponent x - 52)) in *.
  apply roundHalfEven_mono in H1, H2. rewrite roundHalfEven_Z in H1, H2.
  rewrite Zle_Qle in H1, H2.
  assert (2 ^ exponent x == inject_Z (2 ^ 52) * ulp) as E.
  { rewrite pow2_Z by done. unfold ulp. rewrite <- Qpower_plus by done.
    by replace (52 + (exponent x - 52))%Z with (exponent x) by lia. }
  rewrite pow2_succ, E.
  assert (inject_Z (2 ^ 53) == 2 * inject_Z (2 ^ 52)) as E53 by done.
  rewrite E53 in H2.
  set (m := inject_Z (roundHalfEven (x / ulp))) in *.
  set (c := inject_Z (2 ^ 52)) in *.
  split; nra.
Qed.

Lemma nearest_mono x y : 0 < x → x <= y → nearest x <= nearest y.
Proof.
  intros Hx Hxy. assert (0 < y) as Hy by lra.
  destruct (exponent_spec x Hx) as [X1 X2]. destruct (exponent_spec y Hy) as [Y1 Y2].
  destruct (nearest_bounds x Hx) as [_ NX]. destruct (nearest_bounds y Hy) as [NY _].
  assert (exponent x < exponent y + 1)%Z as He.
  { apply (Qpower_lt_compat_l_inv 2); [lra|done]. }
  destruct (decide (exponent x = exponent y)) as [E|Hne].
  - unfold nearest. rewrite !Qred_correct, E.
    pose proof (pow2_pos (exponent y - 52)) as Pu.
    set (ulp := 2 ^ (exponent y - 52)) in *.
    apply Qmult_le_compat_r; [|lra]. rewrite <- Zle_Qle.
    apply roundHalfEven_mono. apply Qmult_le_compat_r; [done|].
    apply Qlt_le_weak, Qinv_lt_0_compat. done.
  - pose proof (pow2_le (exponent x + 1) (exponent y) ltac:(lia)). lra.
Qed.

Lemma nearest_pos x : 0 < x → 0 < nearest x.
Proof.
  intros Hx. destruct (nearest_bounds x Hx) as [H _].
  pose proof (pow2_pos (exponent x)). lra.
Qed.

(** Rounding to the nearest double is monotone. *)
Lemma binary64_mono x y : x <= y → binary64 x <= binary64 y.
Proof.
  intros Hxy. unfold binary64.
  destruct x as [[|n|n] d] eqn:Ex; destruct y as [[|m|m] e] eqn:Ey; cbn [Qnum];
    try (exfalso; unfold Qle in Hxy; cbn in Hxy; lia).
  - done.
  - apply Qlt_le_weak, nearest_pos. done.
  - by apply nearest_mono.
  - assert (0 < nearest (- (Z.neg n # d))) by (by apply nearest_pos). lra.
  - assert (0 < nearest (- (Z.neg n # d))) by (by apply nearest_pos).
    assert (0 < nearest (Z.pos m # e)) by (by apply nearest_pos). lra.
  - apply Qopp_le_compat. apply nearest_mono; [done|]. by apply Qopp_le_compat.
Qed.

(** The halves of the integers up to 198 in magnitude are doubles. *)
Lemma binary64_halves k : (-198 ≤ k ≤ 198)%Z → binary64 (k # 2) == k # 2.
Proof.
  intros Hk.
  assert (forallb (λ i, Qeq_bool (binary64 ((Z.of_nat i - 198) # 2)) ((Z.of_nat i - 198) # 2))
                  (seq 0 397) = true) as Hall by (by vm_compute).
  rewrite forallb_forall in Hall.
  specialize (Hall (Z.to_nat (k + 198))).
  replace (Z.of_nat (Z.to_nat (k + 198)) - 198)%Z with k in Hall by lia.
  apply Qeq_bool_iff, Hall, in_seq. lia.
Qed.

End DoublesProofs.

(** ** Properties of the state reconciler *)

Module ReconcilerProofs.

Import Reconciler.

(** *** Lemmas on the primitives *)

Lemma filter_all {A} (P : A → Prop) `{∀ x, Decision (P x)} (l : list A) :
  (∀ x, x ∈ l → P x) → filter P l = l.
Proof.
  induction l as [|a r IH]; intros Hall; [done|].
  rewrite filter_cons_True by (apply Hall; left).
  f_equal. apply IH. intros x Hx. apply Hall. by right.
Qed.

Lemma filter_none {A} (P : A → Prop) `{∀ x, Decision (P x)} (l : list A) :
  (∀ x, x ∈ l → ¬ P x) → filter P l = [].
Proof.
  induction l as [|a r IH]; intros Hall; [done|].
  rewrite filter_cons_False by (apply Hall; left).
  apply IH. intros x Hx. apply Hall. by right.
Qed.

Lemma node_ids_app d1 d2 : node_ids (d1 ++ d2) = node_ids d1 ++ node_ids d2.
Proof. unfold node_ids. apply omap_app. Qed.

Lemma node_ids_msg n r : node_ids (MsgNode n :: r) = elem_id n :: node_ids r.
Proof. reflexivity. Qed.

Lemma node_ids_static_cons h r : node_ids (Static h :: r) = node_ids r.
Proof. reflexivity. Qed.

Lemma node_ids_static page : node_ids (Static <$> page) = [].
Proof. induction page as [|h r IH]; [done|]. exact IH. Qed.

Lemma getElementById_id k d e : getElementById k d = Some e → elem_id e = k.
Proof.
  induction d as [|[h|n] r IH]; cbn [getElementById setTextContent removeElement app]; [done|done|].
  destruct (decide (elem_id n = k)); [by intros [= <-] | done].
Qed.

Lemma getElementById_None k d : getElementById k d = None ↔ k ∉ node_ids d.
Proof.
  induction d as [|[h|n] r IH]; cbn [getElementById setTextContent removeElement app].
  - split; [intros _; apply not_elem_of_nil | done].
  - exact IH.
  - rewrite node_ids_msg, not_elem_of_cons.
    destruct (decide (elem_id n = k)) as [->|Hne].
    + split; [done | intros [? _]; done].
    + rewrite IH. split; [intros ?; split; [congruence|done] | intros [_ ?]; done].
Qed.

Lemma getElementById_is_Some k d : is_Some (getElementById k d) ↔ k ∈ node_ids d.
Proof.
  destruct (getElementById k d) eqn:E.
  - split; [intros _|eauto]. destruct (decide (k ∈ node_ids d)) as [|Hn]; [done|].
    apply getElementById_None in Hn. congruence.
  - apply getElementById_None in E. split; [intros [? ?]; done | done].
Qed.

Lemma getElementById_app_l k d1 d2 :
  k ∈ node_ids d1 → getElementById k (d1 ++ d2) = getElementById k d1.
Proof.
  induction d1 as [|[h|n] r IH]; cbn [getElementById setTextContent removeElement app]; intros Hin.
  - by apply elem_of_nil in Hin.
  - by apply IH.
  - destruct (decide (elem_id n = k)); [done|]. apply IH.
    rewrite node_ids_msg in Hin.
    apply elem_of_cons in Hin as [?|?]; [congruence | done].
Qed.

Lemma getElementById_app_r k d1 d2 :
  k ∉ node_ids d1 → getElementById k (d1 ++ d2) = getElementById k d2.
Proof.
  induction d1 as [|[h|n] r IH]; cbn [getElementById setTextContent removeElement app]; intros Hin; [done|by apply IH|].
  rewrite node_ids_msg in Hin. apply not_elem_of_cons in Hin as [? ?].
  rewrite decide_False by congruence. by apply IH.
Qed.

Lemma node_ids_setTextContent k t d : node_ids (setTextContent k t d) = node_ids d.
Proof.
  induction d as [|[h|n] r IH]; cbn [getElementById setTextContent removeElement app]; [done|exact IH|].
  destruct (decide (elem_id n = k)); [done|].
  by rewrite !node_ids_msg, IH.
Qed.

Lemma getElementById_setTextContent_eq k t d e :
  getElementById k d = Some e →
  getElementById k (setTextContent k t d)
  = Some (mkMsgDiv (elem_id e) (className e) (msg_agent e) (msg_time e) t).
Proof.
  induction d as [|[h|n] r IH]; cbn [getElementById setTextContent removeElement app]; [done|exact IH|].
  destruct (decide (elem_id n = k)) as [Hk|Hk]; cbn [getElementById setTextContent removeElement app].
  - intros [= ->]. by rewrite decide_True.
  - intros H'. rewrite decide_False by done. by apply IH.
Qed.

Lemma getElementById_setTextContent_ne k k' t d :
  k' ≠ k → getElementById k' (setTextContent k t d) = getElementById k' d.
Proof.
  intros Hne. induction d as [|[h|n] r IH]; cbn [getElementById setTextContent removeElement app]; [done|exact IH|].
  destruct (decide (elem_id n = k)) as [Hk|Hk]; cbn [getElementById setTextContent removeElement app].
  - cbn [elem_id]. by rewrite !decide_False by congruence.
  - destruct (decide (elem_id n = k')); [done|exact IH].
Qed.

Lemma node_ids_removeElement k d :
  NoDup (node_ids d) → node_ids (removeElement k d) = filter (λ x, x ≠ k) (node_ids d).
Proof.
  induction d as [|[h|n] r IH]; cbn [getElementById setTextContent removeElement app]; intros Hnd; [done|by apply IH|].
  rewrite node_ids_msg in Hnd. apply NoDup_cons in Hnd as [Hni Hnd].
  rewrite node_ids_msg.
  destruct (decide (elem_id n = k)) as [Hk|Hk].
  - rewrite filter_cons_False by (intros Hc; by apply Hc).
    symmetry. apply filter_all. intros x Hx ->. by subst.
  - rewrite filter_cons_True by done. by rewrite node_ids_msg, IH.
Qed.

Lemma node_ids_lookup d i n :
  d !! i = Some (MsgNode n) → elem_id n ∈ node_ids d.
Proof.
  revert i. induction d as [|[h|n'] r IH]; intros [|i]; cbn [lookup list_lookup]; try done.
  - rewrite node_ids_static_cons. apply IH.
  - intros [= ->]. rewrite node_ids_msg. left.
  - rewrite node_ids_msg. intros H. right. by eapply IH.
Qed.

Lemma setTextContent_lookup k t d i ch :
  NoDup (node_ids d) → d !! i = Some ch →
  setTextContent k t d !! i = Some (retext k t ch).
Proof.
  revert i. induction d as [|[h|n] r IH]; intros i Hnd Hi; [done| |].
  - destruct i as [|i]; cbn in Hi |- *; [by simplify_eq|]. by apply IH.
  - rewrite node_ids_msg in Hnd. apply NoDup_cons in Hnd as [Hni Hnd].
    cbn [setTextContent]. destruct (decide (elem_id n = k)) as [Hk|Hk].
    + destruct i as [|i]; cbn in Hi |- *.
      * simplify_eq. cbn. by rewrite decide_True.
      * rewrite Hi. f_equal. destruct ch as [h|n2]; [done|].
        cbn. rewrite decide_False; [done|]. intros Heq. apply Hni.
        rewrite Hk, <- Heq. by eapply node_ids_lookup.
    + destruct i as [|i]; cbn in Hi |- *.
      * simplify_eq. cbn. by rewrite decide_False.
      * by apply IH.
Qed.

Lemma length_setTextContent k t d : length (setTextContent k t d) = length d.
Proof.
  induction d as [|[h|n] r IH]; cbn [setTextContent]; [done|by cbn; rewrite IH|].
  destruct (decide (elem_id n = k)); cbn; [done|by rewrite IH].
Qed.

Lemma getElementById_removeElement_ne k k' d :
  k' ≠ k → getElementById k' (removeElement k d) = getElementById k' d.
Proof.
  intros Hne. induction d as [|[h|n] r IH]; cbn [getElementById setTextContent removeElement app]; [done|exact IH|].
  destruct (decide (elem_id n = k)) as [Hk|Hk]; cbn [getElementById setTextContent removeElement app].
  - by rewrite decide_False by congruence.
  - destruct (decide (elem_id n = k')); [done|exact IH].
Qed.

Lemma map_keys_delete {V} k (m : JsMap V) :
  map_keys (map_delete k m) = filter (λ x, x ≠ k) (map_keys m).
Proof.
  unfold map_keys, map_delete. induction m as [|[k' v] r IH]; [done|].
  rewrite fmap_cons. cbn [fst].
  destruct (decide (k' ≠ k)) as [Hk|Hk].
  - rewrite (filter_cons_True (λ x, x ≠ k)) by done.
    rewrite (filter_cons_True (λ kv : string * V, kv.1 ≠ k)) by exact Hk.
    rewrite fmap_cons. cbn [fst]. f_equal. exact IH.
  - rewrite (filter_cons_False (λ x, x ≠ k)) by done.
    rewrite (filter_cons_False (λ kv : string * V, kv.1 ≠ k)) by exact Hk.
    exact IH.
Qed.

Lemma map_keys_set_new {V} k (v : V) (m : JsMap V) :
  k ∉ map_keys m → map_set k v m = m ++ [(k, v)].
Proof.
  unfold map_keys. induction m as [|[k' v'] r IH]; simpl; intros Hni; [done|].
  apply not_elem_of_cons in Hni as [? ?]. rewrite decide_False by done.
  by rewrite IH.
Qed.

Lemma map_has_true {V} k (m : JsMap V) : map_has k m = true ↔ k ∈ map_keys m.
Proof. unfold map_has. by rewrite bool_decide_eq_true. Qed.

Lemma map_has_false {V} k (m : JsMap V) : map_has k m = false ↔ k ∉ map_keys m.
Proof. unfold map_has. by rewrite bool_decide_eq_false. Qed.

(** *** One message of the merge loop *)

Lemma grows_refl e : grows e e.
Proof. by repeat split. Qed.

Lemma grows_trans e1 e2 e3 : grows e1 e2 → grows e2 e3 → grows e1 e3.
Proof.
  intros (?&?&?&?&?) (?&?&?&?&?). repeat split; try congruence. lia.
Qed.

Lemma same_cache_refl s : same_cache s s.
Proof. by repeat split. Qed.

Lemma same_cache_trans s1 s2 s3 :
  same_cache s1 s2 → same_cache s2 s3 → same_cache s1 s3.
Proof. intros (?&?&?&?) (?&?&?&?). repeat split; congruence. Qed.

Lemma processMsg_new m s :
  msgId m ∉ map_keys (currentMessages s) →
  processMsg m s =
  Some (mkStore (dom s ++ [MsgNode (newMsgDiv m)])
                (currentMessages s ++ [(msgId m, m)])
                (processedMessageIds s) (currentConversationId s)
                (autoScroll s) (localStorage s),
        AppendChild (msgId m) :: scrollIfAuto s).
Proof.
  intros Hni. unfold processMsg.
  rewrite (proj2 (map_has_false _ _) Hni). cbn [negb].
  by rewrite map_keys_set_new.
Qed.

Lemma processMsg_seen m s e :
  msgId m ∈ map_keys (currentMessages s) →
  getElementById (msgId m) (dom s) = Some e →
  processMsg m s =
  if (String.length (msg_content e) <=? String.length (contentOrEmpty m))%nat
     && negb (bool_decide (contentOrEmpty m = msg_content e))
  then Some (with_dom (setTextContent (msgId m) (contentOrEmpty m) (dom s)) s,
             SetTextContent (msgId m) (contentOrEmpty m) :: scrollIfAuto s)
  else Some (s, []).
Proof.
  intros Hin He. unfold processMsg.
  rewrite (proj2 (map_has_true _ _) Hin). cbn [negb]. by rewrite He.
Qed.

(** A settled message is skipped: no write at all. *)
Lemma processMsg_settled m s :
  msgId m ∈ map_keys (currentMessages s) → settled m s →
  processMsg m s = Some (s, []).
Proof.
  intros Hin (e & He & Hc). by rewrite (processMsg_seen m s e), Hc.
Qed.

Lemma settled_fresh m : 
  ((String.length (msg_content (newMsgDiv m)) <=? String.length (contentOrEmpty m))%nat
   && negb (bool_decide (contentOrEmpty m = msg_content (newMsgDiv m)))) = false.
Proof.
  cbn [newMsgDiv msg_content]. rewrite bool_decide_eq_true_2 by done.
  apply andb_false_r.
Qed.

Lemma processMsg_wf m s :
  wf s → ∃ s' ev, processMsg m s = Some (s', ev) ∧ wf s' ∧ msg_step m s s'.
Proof.
  intros [Hnd Hids].
  destruct (decide (msgId m ∈ map_keys (currentMessages s))) as [Hin|Hni].
  - assert (is_Some (getElementById (msgId m) (dom s))) as [e He].
    { apply getElementById_is_Some. by rewrite Hids. }
    rewrite (processMsg_seen m s e Hin He).
    destruct (_ && _) eqn:Hc.
    + eexists _, _. split; [done|]. split.
      * split; cbn [with_dom dom currentMessages];
          by rewrite node_ids_setTextContent.
      * split.
        -- by repeat split.
        -- intros k Hk. cbn [with_dom dom].
           by apply getElementById_setTextContent_ne.
        -- intros e0 He0. cbn [with_dom dom]. rewrite He0 in He. simplify_eq.
           eexists. split; [by apply getElementById_setTextContent_eq|].
           apply andb_true_iff in Hc as [Hlen _]. apply Nat.leb_le in Hlen.
           split; [by repeat split | by right].
        -- intros k. cbn [with_dom currentMessages].
           split; [tauto | intros [?|Heq]; [done | by subst]].
        -- eexists. split.
           { cbn [with_dom dom]. by apply getElementById_setTextContent_eq. }
           cbn [msg_content]. rewrite bool_decide_eq_true_2 by done.
           apply andb_false_r.
    + eexists _, _. split; [done|]. split; [done|]. split.
      * apply same_cache_refl.
      * done.
      * intros e0 He0. exists e0. split; [done|]. split; [apply grows_refl | by left].
      * intros k. split; [tauto | intros [?|Heq]; [done | by subst]].
      * by exists e.
  - rewrite (processMsg_new m s Hni).
    assert (msgId m ∉ node_ids (dom s)) as Hnid by (by rewrite Hids).
    eexists _, _. split; [done|]. split.
    + split; cbn [dom currentMessages].
      * rewrite node_ids_app. apply NoDup_app. split; [done|]. split.
        -- intros x Hx Hx'. apply list_elem_of_singleton in Hx'. by subst.
        -- apply NoDup_singleton.
      * rewrite node_ids_app. unfold map_keys. rewrite fmap_app. by rewrite Hids.
    + split.
      * by repeat split.
      * intros k Hk. cbn [dom].
        destruct (decide (k ∈ node_ids (dom s))) as [Hk'|Hk'].
        -- by apply getElementById_app_l.
        -- rewrite getElementById_app_r by done.
           rewrite (proj2 (getElementById_None _ _) Hk').
           cbn [getElementById]. by rewrite decide_False by (cbn; congruence).
      * intros e0 He0. exfalso. apply Hnid. apply getElementById_is_Some. eauto.
      * intros k. cbn [currentMessages]. unfold map_keys. rewrite fmap_app.
        rewrite elem_of_app. cbn. rewrite list_elem_of_singleton. done.
      * exists (newMsgDiv m). split; [|apply settled_fresh].
        cbn [dom]. rewrite getElementById_app_r by done.
        cbn [getElementById]. by rewrite decide_True.
Qed.

(** *** The merge loop *)

Lemma forEachMsg_cons m msgs s :
  forEachMsg (m :: msgs) s = andThen (processMsg m) (forEachMsg msgs) s.
Proof. reflexivity. Qed.

Lemma forEachMsg_wf msgs s :
  wf s → ∃ s' ev, forEachMsg msgs s = Some (s', ev) ∧ wf s' ∧ merged msgs s s'.
Proof.
  revert s. induction msgs as [|m msgs IH]; intros s Hwf.
  - exists s, []. split; [done|]. split; [done|]. split.
    + apply same_cache_refl.
    + done.
    + intros k e He. exists e. split; [done|]. split; [apply grows_refl | by left].
    + intros k. rewrite fmap_nil, elem_of_nil. tauto.
    + intros _ m Hm. by apply elem_of_nil in Hm.
  - destruct (processMsg_wf m s Hwf) as (s1 & ev1 & Hp & Hwf1 & Hstep).
    destruct (IH s1 Hwf1) as (s2 & ev2 & Hf & Hwf2 & Hm).
    exists s2, (ev1 ++ ev2). split.
    { rewrite forEachMsg_cons. unfold andThen. by rewrite Hp, Hf. }
    split; [done|].
    destruct Hstep as [Hc1 Ho1 Hg1 Hk1 Hs1], Hm as [Hc2 Ho2 Hg2 Hk2 Hs2].
    split.
    + by eapply same_cache_trans.
    + intros k Hk. rewrite fmap_cons, not_elem_of_cons in Hk. destruct Hk as [Hk Hk'].
      rewrite Ho2 by done. by apply Ho1.
    + intros k e He. destruct (decide (k = msgId m)) as [->|Hne].
      * destruct (Hg1 e He) as (e1 & He1 & Hgr1 & Hsrc1).
        destruct (Hg2 _ e1 He1) as (e2 & He2 & Hgr2 & Hsrc2).
        exists e2. split; [done|]. split; [by eapply grows_trans|].
        destruct Hsrc2 as [Heq|(m' & Hm' & Hk' & Hc')].
        -- rewrite Heq. destruct Hsrc1 as [?|?]; [by left|].
           right. exists m. split; [left|done].
        -- right. exists m'. split; [by right|done].
      * rewrite <- (Ho1 k Hne) in He.
        destruct (Hg2 _ e He) as (e2 & He2 & Hgr2 & Hsrc2).
        exists e2. split; [done|]. split; [done|].
        destruct Hsrc2 as [?|(m' & Hm' & Hk' & Hc')]; [by left|].
        right. exists m'. split; [by right|done].
    + intros k. rewrite Hk2, Hk1, fmap_cons, elem_of_cons. tauto.
    + intros Hnd m' Hm'. rewrite fmap_cons in Hnd. apply NoDup_cons in Hnd as [Hni Hnd].
      apply elem_of_cons in Hm' as [->|Hm']; [|by apply Hs2].
      destruct Hs1 as (e & He & Hcond). exists e. split; [|done].
      by rewrite Ho2.
Qed.

(** When every message is settled the loop writes nothing. *)
Lemma forEachMsg_settled msgs s :
  (∀ m, m ∈ msgs → msgId m ∈ map_keys (currentMessages s) ∧ settled m s) →
  forEachMsg msgs s = Some (s, []).
Proof.
  induction msgs as [|m msgs IH]; intros Hall; [done|].
  rewrite forEachMsg_cons. unfold andThen.
  destruct (Hall m) as [Hin Hs]; [left|].
  rewrite (processMsg_settled m s Hin Hs), IH; [done|].
  intros m' Hm'. apply Hall. by right.
Qed.

(** Messages with fresh, pairwise distinct keys are appended in order. *)
Lemma forEachMsg_fresh msgs s :
  NoDup (msgId <$> msgs) →
  (∀ m, m ∈ msgs → msgId m ∉ map_keys (currentMessages s)) →
  ∃ ev, forEachMsg msgs s =
    Some (mkStore (dom s ++ (MsgNode ∘ newMsgDiv <$> msgs))
                  (currentMessages s ++ ((λ m, (msgId m, m)) <$> msgs))
                  (processedMessageIds s) (currentConversationId s)
                  (autoScroll s) (localStorage s), ev).
Proof.
  revert s. induction msgs as [|m msgs IH]; intros s Hnd Hfresh.
  - exists []. cbn. rewrite !app_nil_r. by destruct s.
  - rewrite fmap_cons in Hnd. apply NoDup_cons in Hnd as [Hni Hnd].
    rewrite forEachMsg_cons. unfold andThen.
    rewrite processMsg_new by (apply Hfresh; left).
    edestruct (IH (mkStore (dom s ++ [MsgNode (newMsgDiv m)])
                  (currentMessages s ++ [(msgId m, m)])
                  (processedMessageIds s) (currentConversationId s)
                  (autoScroll s) (localStorage s))) as [ev Hev]; [done| |].
    + intros m' Hm'. cbn [currentMessages]. unfold map_keys.
      rewrite fmap_app, not_elem_of_app. split; [apply Hfresh; by right|].
      cbn. rewrite list_elem_of_singleton. intros Heq. apply Hni.
      rewrite <- Heq. by apply list_elem_of_fmap_2.
    + rewrite Hev. cbn [dom currentMessages processedMessageIds
                        currentConversationId autoScroll localStorage].
      eexists. rewrite !fmap_cons, <- !app_assoc. reflexivity.
Qed.

(** *** The clean-up loop *)

Lemma removeAll_nil s : removeAll [] s = Some (s, []).
Proof. reflexivity. Qed.

Lemma removeAll_cons k ks s :
  removeAll (k :: ks) s = andThen (removeStale k) (removeAll ks) s.
Proof. reflexivity. Qed.

Lemma removeAll_wf ks s :
  wf s → ∃ s' ev, removeAll ks s = Some (s', ev) ∧ wf s' ∧ swept ks s s'.
Proof.
  revert s. induction ks as [|k ks IH]; intros s Hwf.
  - exists s, []. split; [done|]. split; [done|]. split; try done.
    + cbn. by rewrite difference_empty_L.
    + symmetry. apply filter_all. intros x _. apply not_elem_of_nil.
  - destruct Hwf as [Hnd Hids].
    set (s1 := mkStore (removeElement k (dom s)) (map_delete k (currentMessages s))
                 (processedMessageIds s ∖ {[k]}) (currentConversationId s)
                 (autoScroll s) (localStorage s)).
    assert (wf s1) as Hwf1.
    { split; cbn [s1 dom currentMessages].
      - rewrite node_ids_removeElement by done. by apply NoDup_filter.
      - rewrite node_ids_removeElement by done. by rewrite map_keys_delete, Hids. }
    destruct (IH s1 Hwf1) as (s2 & ev2 & Hr & Hwf2 & [H1 H2 H3 H4 H5 H6]).
    eexists s2, _. split.
    { rewrite removeAll_cons. unfold andThen, removeStale. fold s1. by rewrite Hr. }
    split; [done|]. split; try done.
    + rewrite H4. cbn [s1 processedMessageIds].
      by rewrite list_to_set_cons, difference_difference_l_L.
    + intros k' Hk'. apply not_elem_of_cons in Hk' as [Hne Hk'].
      rewrite H5 by done. cbn [s1 dom]. by apply getElementById_removeElement_ne.
    + rewrite H6. cbn [s1 currentMessages]. rewrite map_keys_delete.
      rewrite list_filter_filter. apply list_filter_iff.
      intros x. rewrite not_elem_of_cons. tauto.
Qed.

(** *** The whole call *)

Lemma update_empty conv s :
  snapshotMessages conv = [] →
  updateCurrentConversation conv s = Some (awaiting s, [SetInnerHTML placeholder]).
Proof.
  destruct conv as [[i [[|m ms]|]]|]; cbn; done.
Qed.

Lemma update_nonempty c msgs s :
  messages c = Some msgs → msgs ≠ [] →
  updateCurrentConversation (Some c) s
  = andThen (resetFor c) (andThen (forEachMsg msgs) (cleanUp msgs)) s.
Proof.
  intros Hm Hne. unfold updateCurrentConversation. rewrite Hm.
  by destruct msgs.
Qed.

Lemma snapshot_cases conv :
  snapshotMessages conv = [] ∨
  ∃ c, conv = Some c ∧ messages c = Some (snapshotMessages conv)
       ∧ snapshotMessages conv ≠ [].
Proof.
  destruct conv as [[i [[|m ms]|]]|]; cbn; eauto.
Qed.

Lemma wf_awaiting s : wf (awaiting s).
Proof. split; cbn; [apply NoDup_nil_2 | done]. Qed.

Lemma wf_startup page scroll ls : wf (startup page scroll ls).
Proof.
  split; cbn [startup dom currentMessages]; rewrite node_ids_static;
    [apply NoDup_nil_2 | done].
Qed.

Lemma resetFor_new c s :
  isNewConversation c s = true →
  resetFor c s =
  Some (mkStore [] [] ∅ (id c) (autoScroll s) (mkLocalStorage (id c) (Some [])),
        [SetInnerHTML "";
         SetItem "grokgates-current-conversation" (default "" (id c));
         SetItem "grokgates-processed-messages" "[]"]).
Proof. intros H. unfold resetFor. by rewrite H. Qed.

Lemma resetFor_same c s :
  isNewConversation c s = false → resetFor c s = Some (s, []).
Proof. intros H. unfold resetFor. by rewrite H. Qed.

Lemma isNewConversation_true c s :
  isNewConversation c s = true ↔
  ∃ i, id c = Some i ∧ i ≠ "" ∧ currentConversationId s ≠ Some i.
Proof.
  unfold isNewConversation. destruct (id c) as [i|].
  - rewrite andb_true_iff, !negb_true_iff, !bool_decide_eq_false.
    split; [intros [? ?]; eauto | intros (? & [= <-] & ? & ?); done].
  - split; [done | intros (? & ? & _); done].
Qed.

Lemma isNewConversation_recorded c s :
  currentConversationId s = id c → isNewConversation c s = false.
Proof.
  intros H. unfold isNewConversation. destruct (id c) as [i|]; [|done].
  rewrite (bool_decide_eq_true_2 _ H). apply andb_false_r.
Qed.

Lemma update_phases c msgs s :
  wf s → messages c = Some msgs → msgs ≠ [] →
  ∃ s' ev, updateCurrentConversation (Some c) s = Some (s', ev)
           ∧ phases c msgs s s' ev.
Proof.
  intros Hwf Hm Hne. rewrite (update_nonempty c msgs s Hm Hne).
  assert (∃ s0 ev0, resetFor c s = Some (s0, ev0) ∧ wf s0) as (s0 & ev0 & Hr & Hwf0).
  { destruct (isNewConversation c s) eqn:E.
    - rewrite (resetFor_new c s E). eexists _, _. split; [done|].
      split; cbn; [apply NoDup_nil_2 | done].
    - rewrite (resetFor_same c s E). eauto. }
  destruct (forEachMsg_wf msgs s0 Hwf0) as (s1 & ev1 & Hf & Hwf1 & Hmg).
  destruct (removeAll_wf (toRemove msgs s1) s1 Hwf1) as (s2 & ev2 & Hc & Hwf2 & Hsw).
  exists s2, (ev0 ++ ev1 ++ ev2). split.
  - unfold andThen, cleanUp. by rewrite Hr, Hf, Hc.
  - by exists s0, ev0, s1, ev1, ev2.
Qed.

(** Every call on a well-formed store returns, and the result is well formed. *)
Lemma update_total conv s :
  wf s → ∃ s' ev, updateCurrentConversation conv s = Some (s', ev) ∧ wf s'.
Proof.
  intros Hwf. destruct (snapshot_cases conv) as [He|(c & -> & Hm & Hne)].
  - rewrite (update_empty conv s He). eexists _, _. split; [done|apply wf_awaiting].
  - destruct (update_phases c _ s Hwf Hm Hne) as (s' & ev & Hu & Hph).
    exists s', ev. split; [done|].
    by destruct Hph as (?&?&?&?&?&?&?&?&?&?&?&?&?&?).
Qed.

Lemma elem_of_toRemove k msgs s :
  k ∈ toRemove msgs s ↔
  k ∈ map_keys (currentMessages s) ∧ k ∉ msgId <$> msgs.
Proof.
  unfold toRemove, validMsgIds.
  rewrite list_elem_of_filter, elem_of_list_to_set. tauto.
Qed.

(** After the clean-up the stored keys are the keys of the snapshot. *)
Lemma phases_keys c msgs s s' ev k :
  phases c msgs s s' ev →
  k ∈ map_keys (currentMessages s') ↔ k ∈ msgId <$> msgs.
Proof.
  intros (s0 & ev0 & s1 & ev1 & ev2 & _ & _ & _ & _ & Hmg & _ & _ & Hsw & _).
  rewrite (swept_keys _ _ _ Hsw), list_elem_of_filter, elem_of_toRemove.
  rewrite (merged_keys _ _ _ Hmg).
  destruct (decide (k ∈ msgId <$> msgs)); tauto.
Qed.

(** The clean-up leaves the elements of the snapshot's messages alone. *)
Lemma phases_kept c msgs s s' ev k :
  phases c msgs s s' ev → k ∈ msgId <$> msgs →
  ∃ s0 ev0 s1,
    resetFor c s = Some (s0, ev0) ∧ merged msgs s0 s1 ∧
    getElementById k (dom s') = getElementById k (dom s1).
Proof.
  intros (s0 & ev0 & s1 & ev1 & ev2 & Hr & _ & _ & _ & Hmg & _ & _ & Hsw & _) Hk.
  exists s0, ev0, s1. split; [done|]. split; [done|].
  apply (swept_other _ _ _ Hsw). rewrite elem_of_toRemove. tauto.
Qed.

(** *** Garbage collection *)

(** C3.  For every call on a well-formed store the call returns, and every
    key that is absent from the messages of the snapshot's current
    conversation is afterwards absent from [currentMessages] and has no
    element in the container; if the key was an entry of [currentMessages]
    before the call it is also no longer a member of
    [processedMessageIds]. *)
Theorem gc_removes_absent_keys conv s :
  wf s →
  ∃ s' ev, updateCurrentConversation conv s = Some (s', ev) ∧
    ∀ k, k ∉ msgId <$> snapshotMessages conv →
      (k ∉ map_keys (currentMessages s')) ∧
      (k ∉ node_ids (dom s')) ∧
      (k ∈ map_keys (currentMessages s) → k ∉ processedMessageIds s').
Proof.
  intros Hwf. destruct (snapshot_cases conv) as [He|(c & -> & Hm & Hne)].
  - rewrite (update_empty conv s He). eexists _, _. split; [done|].
    intros k _. cbn. repeat split; try apply not_elem_of_nil. intros _. set_solver.
  - destruct (update_phases c _ s Hwf Hm Hne) as (s' & ev & Hu & Hph).
    exists s', ev. split; [done|]. intros k Hk.
    assert (k ∉ map_keys (currentMessages s')) as Habs
      by (by rewrite (phases_keys _ _ _ _ _ k Hph)).
    destruct Hph as (s0 & ev0 & s1 & ev1 & ev2 & Hr & _ & _ & _ & Hmg & _ & Hwf' & Hsw & _).
    split; [done|]. split; [by rewrite (proj2 Hwf')|].
    intros Hin. rewrite (swept_processed _ _ _ Hsw).
    destruct (isNewConversation c s) eqn:E.
    + rewrite (resetFor_new c s E) in Hr. simplify_eq.
      destruct Hmg as [(-> & _) _ _ _ _]. cbn.
      rewrite elem_of_difference. intros [H0 _]. by apply elem_of_empty in H0.
    + rewrite (resetFor_same c s E) in Hr. simplify_eq.
      assert (k ∈ toRemove (snapshotMessages (Some c)) s1) as Hrm.
      { apply elem_of_toRemove. split; [|done].
        apply (merged_keys _ _ _ Hmg). by left. }
      intros Hc. apply elem_of_difference in Hc as [_ Hc]. apply Hc.
      by apply elem_of_list_to_set.
Qed.

(** *** The rule over a series of contents *)

Lemma stepText_cases c t : stepText c t = c ∨ stepText c t = t.
Proof. unfold stepText. destruct (_ && _); eauto. Qed.

Lemma stepText_length c t :
  (String.length c ≤ String.length (stepText c t))%nat.
Proof.
  unfold stepText. destruct (_ && _) eqn:E; [|done].
  apply andb_true_iff in E as [E _]. by apply Nat.leb_le in E.
Qed.

Lemma stepText_same c : stepText c c = c.
Proof. unfold stepText. by destruct (_ && _). Qed.

(** A content as long as the displayed text replaces it, or is it. *)
Lemma stepText_long c t :
  (String.length c ≤ String.length t)%nat → stepText c t = t.
Proof.
  intros Hl. unfold stepText. apply Nat.leb_le in Hl. rewrite Hl. cbn.
  destruct (bool_decide (t = c)) eqn:E; [|done].
  by apply bool_decide_eq_true in E.
Qed.

Lemma runTexts_snoc c ts t : runTexts c (ts ++ [t]) = stepText (runTexts c ts) t.
Proof. apply foldl_snoc. Qed.

Lemma runTexts_app c ts1 ts2 :
  runTexts c (ts1 ++ ts2) = runTexts (runTexts c ts1) ts2.
Proof. apply foldl_app. Qed.

Lemma runTexts_bounds c ts :
  (String.length c ≤ String.length (runTexts c ts))%nat ∧
  (∀ t, t ∈ ts → (String.length t ≤ String.length (runTexts c ts))%nat) ∧
  (runTexts c ts = c ∨ runTexts c ts ∈ ts).
Proof.
  induction ts as [|t ts IH] using rev_ind.
  - split; [done|]. split; [|by left]. intros t Ht. by apply elem_of_nil in Ht.
  - destruct IH as (IH1 & IH2 & IH3). rewrite runTexts_snoc.
    pose proof (stepText_length (runTexts c ts) t) as Hlen.
    split; [lia|]. split.
    + intros t' [Ht'| ->%list_elem_of_singleton]%elem_of_app.
      * specialize (IH2 t' Ht'). lia.
      * unfold stepText. destruct (_ && _) eqn:E; [done|].
        apply andb_false_iff in E as [E|E].
        -- apply Nat.leb_gt in E. lia.
        -- apply negb_false_iff, bool_decide_eq_true in E. by rewrite E.
    + destruct (stepText_cases (runTexts c ts) t) as [-> | ->].
      * destruct IH3 as [?|?]; [by left|]. right. apply elem_of_app. by left.
      * right. apply elem_of_app. right. by apply list_elem_of_singleton.
Qed.

(** Running the rule again over the same contents changes nothing. *)
Lemma runTexts_idem c ts : runTexts (runTexts c ts) ts = runTexts c ts.
Proof.
  revert c. induction ts as [|t ts IH] using rev_ind; intros c; [done|].
  rewrite !runTexts_snoc.
  destruct (runTexts_bounds c ts) as (_ & Hall & _).
  pose proof (stepText_length (runTexts c ts) t) as Hlen.
  destruct (stepText_cases (runTexts c ts) t) as [Hsame|Hnew].
  - by rewrite Hsame, IH.
  - rewrite Hnew in Hlen |- *. apply stepText_long.
    destruct (runTexts_bounds t ts) as (_ & _ & [-> | Hin]); [done|].
    specialize (Hall _ Hin). lia.
Qed.

(** *** The merge loop on stored keys *)

Lemma with_dom_same s : with_dom (dom s) s = s.
Proof. by destruct s. Qed.

Lemma keyTexts_nil k : keyTexts k [] = [].
Proof. reflexivity. Qed.

Lemma keyTexts_app k ms1 ms2 :
  keyTexts k (ms1 ++ ms2) = keyTexts k ms1 ++ keyTexts k ms2.
Proof. unfold keyTexts. by rewrite filter_app, fmap_app. Qed.

Lemma keyTexts_one_eq m : keyTexts (msgId m) [m] = [contentOrEmpty m].
Proof. unfold keyTexts. by rewrite filter_cons_True. Qed.

Lemma keyTexts_one_ne k m : msgId m ≠ k → keyTexts k [m] = [].
Proof. intros H. unfold keyTexts. by rewrite filter_cons_False. Qed.

Lemma keyTexts_absent k msgs :
  (∀ m, m ∈ msgs → msgId m ≠ k) → keyTexts k msgs = [].
Proof. intros H. unfold keyTexts. by rewrite filter_none. Qed.

Lemma node_ids_advance msgs d : node_ids (advance msgs <$> d) = node_ids d.
Proof.
  induction d as [|[h|n] r IH]; [done|exact IH|].
  rewrite fmap_cons. cbn [advance]. by rewrite !node_ids_msg, IH.
Qed.

Lemma advance_cons m msgs ch :
  advance msgs (advance [m] ch) = advance (m :: msgs) ch.
Proof.
  destruct ch as [h|n]; [done|]. cbn [advance elem_id msg_content].
  by rewrite (keyTexts_app _ [m] msgs), runTexts_app.
Qed.

Lemma getElementById_unique d n :
  NoDup (node_ids d) → MsgNode n ∈ d → getElementById (elem_id n) d = Some n.
Proof.
  induction d as [|[h|n'] r IH]; intros Hnd Hin.
  - by apply elem_of_nil in Hin.
  - apply elem_of_cons in Hin as [?|?]; [done|]. by apply IH.
  - rewrite node_ids_msg in Hnd. apply NoDup_cons in Hnd as [Hni Hnd].
    cbn [getElementById]. apply elem_of_cons in Hin as [[= ->]|Hin].
    + by rewrite decide_True.
    + rewrite decide_False; [by apply IH|]. intros Heq. apply Hni.
      rewrite Heq. apply list_elem_of_lookup in Hin as [i Hi].
      by eapply node_ids_lookup.
Qed.

Lemma setTextContent_fmap k t d :
  NoDup (node_ids d) → setTextContent k t d = retext k t <$> d.
Proof.
  intros Hnd. apply list_eq. intros i. rewrite list_lookup_fmap.
  destruct (d !! i) as [ch|] eqn:E.
  - by apply setTextContent_lookup.
  - apply lookup_ge_None in E. apply lookup_ge_None.
    by rewrite length_setTextContent.
Qed.

(** One message whose key is stored: every element advances by it. *)
Lemma processMsg_advance m s :
  wf s → msgId m ∈ map_keys (currentMessages s) →
  ∃ ev, processMsg m s = Some (with_dom (advance [m] <$> dom s) s, ev) ∧
        Forall isTextWrite ev.
Proof.
  intros [Hnd Hids] Hin.
  assert (is_Some (getElementById (msgId m) (dom s))) as [e He].
  { apply getElementById_is_Some. by rewrite Hids. }
  rewrite (processMsg_seen m s e Hin He).
  assert (∀ ch, ch ∈ dom s →
            advance [m] ch
            = match ch with
              | MsgNode n =>
                  if decide (elem_id n = msgId m)
                  then MsgNode (mkMsgDiv (elem_id n) (className n) (msg_agent n)
                                  (msg_time n)
                                  (stepText (msg_content e) (contentOrEmpty m)))
                  else MsgNode n
              | Static h => Static h
              end) as Hadv.
  { intros [h|n] Hch; [done|]. cbn [advance]. destruct (decide _) as [Hk|Hk].
    - rewrite Hk, keyTexts_one_eq. cbn [runTexts foldl].
      assert (n = e) as -> by
        (rewrite <- Hk in He; rewrite (getElementById_unique _ _ Hnd Hch) in He;
         congruence).
      done.
    - rewrite keyTexts_one_ne by done. by destruct n. }
  unfold stepText in Hadv. destruct (_ && _) eqn:Hc.
  - eexists. split.
    + f_equal. f_equal. f_equal. rewrite setTextContent_fmap by done.
      apply list_fmap_ext. intros i ch Hi. rewrite Hadv; [done|].
      by eapply list_elem_of_lookup_2.
    + constructor; [done|]. unfold scrollIfAuto.
      destruct (autoScroll s); repeat constructor.
  - exists []. split; [|constructor].
    f_equal. f_equal. rewrite <- (with_dom_same s) at 1. f_equal.
    rewrite <- (list_fmap_id (dom s)) at 1.
    apply list_fmap_ext. intros i ch Hi. rewrite Hadv by by eapply list_elem_of_lookup_2.
    destruct ch as [h|n]; [done|]. cbn. destruct (decide _) as [Hk|Hk]; [|done].
    assert (n = e) as -> by
      (rewrite <- Hk in He;
       rewrite (getElementById_unique _ _ Hnd (list_elem_of_lookup_2 _ _ _ Hi)) in He;
       congruence).
    by destruct e.
Qed.

Lemma with_dom_with_dom d1 d2 s : with_dom d2 (with_dom d1 s) = with_dom d2 s.
Proof. reflexivity. Qed.

Lemma wf_with_advance msgs s : wf s → wf (with_dom (advance msgs <$> dom s) s).
Proof.
  intros [Hnd Hids]. split; cbn [with_dom dom currentMessages];
    by rewrite node_ids_advance.
Qed.

(** The merge loop over messages whose keys are all stored: every element
    advances by all of them, nothing is appended. *)
Lemma forEachMsg_advance msgs s :
  wf s → (∀ m, m ∈ msgs → msgId m ∈ map_keys (currentMessages s)) →
  ∃ ev, forEachMsg msgs s = Some (with_dom (advance msgs <$> dom s) s, ev) ∧
        Forall isTextWrite ev.
Proof.
  revert s. induction msgs as [|m msgs IH]; intros s Hwf Hkeys.
  - exists []. split; [|constructor]. cbn.
    replace (advance [] <$> dom s) with (dom s); [by rewrite with_dom_same|].
    rewrite <- (list_fmap_id (dom s)) at 1. apply list_fmap_ext.
    intros i [h|n] _; [done|]. by destruct n.
  - destruct (processMsg_advance m s Hwf) as (ev1 & Hp & Hev1); [apply Hkeys; left|].
    destruct (IH (with_dom (advance [m] <$> dom s) s)) as (ev2 & Hf & Hev2).
    { by apply wf_with_advance. }
    { intros m' Hm'. cbn [with_dom currentMessages]. apply Hkeys. by right. }
    exists (ev1 ++ ev2). split; [|by apply Forall_app].
    rewrite forEachMsg_cons. unfold andThen. rewrite Hp, Hf.
    assert (advance msgs <$> (advance [m] <$> dom s)
            = advance (m :: msgs) <$> dom s) as Hd.
    { rewrite <- list_fmap_compose. apply list_fmap_ext.
      intros i ch _. apply advance_cons. }
    unfold with_dom.
    cbn [dom currentMessages processedMessageIds currentConversationId
         autoScroll localStorage].
    by rewrite Hd.
Qed.

(** After the merge loop every element shows what the rule leaves after the
    messages seen so far. *)
Lemma forEachMsg_ranOver todo seen s s' ev :
  wf s →
  Forall (ranOver seen) (dom s) →
  (∀ m, m ∈ seen → msgId m ∈ map_keys (currentMessages s)) →
  forEachMsg todo s = Some (s', ev) →
  Forall (ranOver (seen ++ todo)) (dom s').
Proof.
  revert seen s ev.
  induction todo as [|m todo IH]; intros seen s ev Hwf Hran Hseen Hf.
  - cbn in Hf. unfold skip in Hf. simplify_eq. by rewrite app_nil_r.
  - rewrite forEachMsg_cons in Hf. unfold andThen in Hf.
    destruct (processMsg_wf m s Hwf) as (s1 & ev1 & Hp & Hwf1 & Hstep).
    rewrite Hp in Hf. destruct (forEachMsg todo s1) as [[s2 ev2]|] eqn:Hf2; [|done].
    simplify_eq. replace (seen ++ m :: todo) with ((seen ++ [m]) ++ todo)
      by (by rewrite <- app_assoc).
    apply (IH (seen ++ [m]) s1 ev2 Hwf1); [| |exact Hf2].
    + destruct (decide (msgId m ∈ map_keys (currentMessages s))) as [Hin|Hni].
      * destruct (processMsg_advance m s Hwf Hin) as (ev' & Hp' & _).
        rewrite Hp in Hp'. simplify_eq. cbn [with_dom dom].
        apply Forall_fmap. eapply Forall_impl; [exact Hran|].
        intros [h|n]; [done|]. cbn. intros [c0 Hc0]. exists c0.
        by rewrite Hc0, keyTexts_app, runTexts_app.
      * rewrite (processMsg_new m s Hni) in Hp. simplify_eq. cbn [dom].
        apply Forall_app. split.
        -- apply Forall_forall. intros [h|n] Hch; [done|].
           eapply Forall_forall in Hran; [|done]. destruct Hran as [c0 Hc0].
           exists c0. rewrite keyTexts_app, keyTexts_one_ne, app_nil_r; [done|].
           intros Heq. apply Hni. rewrite Heq, <- (proj2 Hwf).
           apply list_elem_of_lookup in Hch as [i Hi]. by eapply node_ids_lookup.
        -- constructor; [|constructor]. exists (contentOrEmpty m).
           cbn [newMsgDiv elem_id msg_content].
           rewrite keyTexts_app, keyTexts_one_eq, keyTexts_absent.
           ++ cbn. by rewrite stepText_same.
           ++ intros m' Hm' Heq. apply Hni. rewrite <- Heq. by apply Hseen.
    + intros m' [Hm'| ->%list_elem_of_singleton]%elem_of_app.
      * apply (step_keys _ _ _ Hstep). left. by apply Hseen.
      * apply (step_keys _ _ _ Hstep). by right.
Qed.

Lemma removeElement_subset k d ch : ch ∈ removeElement k d → ch ∈ d.
Proof.
  induction d as [|[h|n] r IH]; cbn [removeElement]; [done| |].
  - intros [->|?]%elem_of_cons; [left|right; by apply IH].
  - destruct (decide _); [by right|].
    intros [->|?]%elem_of_cons; [left|right; by apply IH].
Qed.

Lemma removeAll_subset ks s s' ev ch :
  removeAll ks s = Some (s', ev) → ch ∈ dom s' → ch ∈ dom s.
Proof.
  revert s ev. induction ks as [|k ks IH]; intros s ev Hr Hch.
  - cbn in Hr. unfold skip in Hr. by simplify_eq.
  - rewrite removeAll_cons in Hr. unfold andThen, removeStale in Hr.
    destruct (removeAll ks _) as [[s2 ev2]|] eqn:E; [|done]. simplify_eq.
    apply (IH _ _ E) in Hch. cbn [dom] in Hch. by eapply removeElement_subset.
Qed.

(** After a whole call on a snapshot with messages, every element shows
    what the rule leaves after the messages of the snapshot. *)
Lemma phases_ranOver c msgs s s' ev :
  phases c msgs s s' ev → Forall (ranOver msgs) (dom s').
Proof.
  intros (s0 & ev0 & s1 & ev1 & ev2 & Hr & Hwf0 & Hf & _ & _ & Hc & _).
  assert (Forall (ranOver msgs) (dom s1)) as H1.
  { apply (forEachMsg_ranOver msgs [] s0 s1 ev1 Hwf0); [| |done].
    - apply Forall_forall. intros [h|n] _; [done|]. by exists (msg_content n).
    - intros m Hm. by apply elem_of_nil in Hm. }
  apply Forall_forall. intros ch Hch. eapply Forall_forall in H1; [done|].
  by eapply removeAll_subset.
Qed.

Lemma advance_ranOver msgs ch : ranOver msgs ch → advance msgs ch = ch.
Proof.
  destruct ch as [h|n]; [done|]. cbn. intros [c0 Hc].
  rewrite Hc, runTexts_idem, <- Hc. by destruct n.
Qed.

(** *** Idempotence *)

Lemma isNewConversation_ext c s s' :
  currentConversationId s' = currentConversationId s →
  isNewConversation c s' = isNewConversation c s.
Proof. intros H. unfold isNewConversation. by rewrite H. Qed.

(** After a call the remembered id makes the same snapshot an old one. *)
Lemma phases_not_new c msgs s s' ev :
  phases c msgs s s' ev → isNewConversation c s' = false.
Proof.
  intros (s0 & ev0 & s1 & ev1 & ev2 & Hr & _ & _ & _ & Hmg & _ & _ & Hsw & _).
  assert (currentConversationId s' = currentConversationId s0) as Hid.
  { rewrite (swept_conversation _ _ _ Hsw).
    by destruct Hmg as [(_ & -> & _) _ _ _ _]. }
  destruct (isNewConversation c s) eqn:E.
  - rewrite (resetFor_new c s E) in Hr. simplify_eq.
    by apply isNewConversation_recorded.
  - rewrite (resetFor_same c s E) in Hr. simplify_eq.
    by rewrite (isNewConversation_ext _ _ _ Hid).
Qed.

(** After a call on a snapshot with distinct keys every message is stored
    and settled. *)
Lemma phases_settled c msgs s s' ev m :
  phases c msgs s s' ev → NoDup (msgId <$> msgs) → m ∈ msgs →
  msgId m ∈ map_keys (currentMessages s') ∧ settled m s'.
Proof.
  intros Hph Hnd Hm.
  assert (msgId m ∈ msgId <$> msgs) as Hk by (by apply list_elem_of_fmap_2).
  split; [by apply (phases_keys _ _ _ _ _ _ Hph)|].
  destruct (phases_kept _ _ _ _ _ _ Hph Hk) as (s0 & ev0 & s1 & _ & Hmg & Heq).
  destruct (merged_settled _ _ _ Hmg Hnd m Hm) as (e & He & Hc).
  exists e. by rewrite Heq.
Qed.

Lemma phases_nothing_stale c msgs s s' ev :
  phases c msgs s s' ev → toRemove msgs s' = [].
Proof.
  intros Hph. unfold toRemove. apply filter_none. intros k Hk Hv.
  apply Hv. apply elem_of_list_to_set. by apply (phases_keys _ _ _ _ _ _ Hph).
Qed.

Lemma second_call_writes_nothing conv s s1 ev1 :
  wf s → NoDup (msgId <$> snapshotMessages conv) →
  updateCurrentConversation conv s = Some (s1, ev1) →
  ∃ ev2, updateCurrentConversation conv s1 = Some (s1, ev2) ∧
         (∀ k, AppendChild k ∉ ev2) ∧
         (∀ k t, SetTextContent k t ∉ ev2) ∧
         (snapshotMessages conv ≠ [] → ev2 = []).
Proof.
  intros Hwf Hnd Hu. destruct (snapshot_cases conv) as [He|(c & -> & Hm & Hne)].
  - rewrite (update_empty conv s He) in Hu. simplify_eq.
    rewrite (update_empty conv _ He). eexists. split; [done|].
    repeat split; [| |done]; intros; by rewrite list_elem_of_singleton.
  - destruct (update_phases c _ s Hwf Hm Hne) as (s' & ev & Hu' & Hph).
    rewrite Hu in Hu'. simplify_eq. exists []. split; [|by repeat split; intros; apply not_elem_of_nil].
    rewrite (update_nonempty c _ s' Hm Hne). unfold andThen, cleanUp.
    rewrite (resetFor_same c s' (phases_not_new _ _ _ _ _ Hph)).
    rewrite forEachMsg_settled
      by (intros m Hin; by apply (phases_settled _ _ _ _ _ _ Hph)).
    by rewrite (phases_nothing_stale _ _ _ _ _ Hph).
Qed.

(** Whatever the snapshot, a second call returns the store of the first and
    appends nothing. *)
Lemma second_call_same_store conv s s1 ev1 :
  wf s → updateCurrentConversation conv s = Some (s1, ev1) →
  ∃ ev2, updateCurrentConversation conv s1 = Some (s1, ev2) ∧
         (∀ k, AppendChild k ∉ ev2).
Proof.
  intros Hwf Hu. destruct (snapshot_cases conv) as [He|(c & -> & Hm & Hne)].
  - rewrite (update_empty conv s He) in Hu. simplify_eq.
    rewrite (update_empty conv _ He). eexists. split; [done|].
    intros k. by rewrite list_elem_of_singleton.
  - destruct (update_phases c _ s Hwf Hm Hne) as (s' & ev & Hu' & Hph).
    rewrite Hu in Hu'. simplify_eq.
    assert (wf s') as Hwf' by (by destruct Hph as (?&?&?&?&?&?&?&?&?&?&?&?&?&?)).
    destruct (forEachMsg_advance (snapshotMessages (Some c)) s' Hwf')
      as (ev2 & Hf & Hev2).
    { intros m Hin. apply (phases_keys _ _ _ _ _ _ Hph).
      by apply list_elem_of_fmap_2. }
    assert (advance (snapshotMessages (Some c)) <$> dom s' = dom s') as Hd.
    { rewrite <- (list_fmap_id (dom s')) at 2. apply list_fmap_ext.
      intros i ch Hi. apply advance_ranOver.
      pose proof (phases_ranOver _ _ _ _ _ Hph) as Hran.
      eapply Forall_forall in Hran; [done|]. by eapply list_elem_of_lookup_2. }
    rewrite Hd, with_dom_same in Hf.
    exists ev2. split.
    + rewrite (update_nonempty c _ s' Hm Hne). unfold andThen, cleanUp.
      rewrite (resetFor_same c s' (phases_not_new _ _ _ _ _ Hph)), Hf.
      rewrite (phases_nothing_stale _ _ _ _ _ Hph), removeAll_nil.
      by rewrite app_nil_r.
    + intros k Hk. eapply Forall_forall in Hev2; [|done]. done.
Qed.

(** C4 (as amended).  On a well-formed store the call returns a store, and
    a second call with the same snapshot returns that very store (same
    elements and texts, same [currentMessages], same remembered id, same
    processed-id set, same [localStorage]) and appends no element, whatever
    the snapshot.  The second call writes no text when the messages of the
    snapshot have pairwise distinct keys, and then, when there are messages,
    it performs no write at all.  Without that condition it may write the
    texts of a repeated key again. *)
Theorem apply_idempotent conv s :
  wf s →
  ∃ s1 ev1 ev2,
    updateCurrentConversation conv s = Some (s1, ev1) ∧
    updateCurrentConversation conv s1 = Some (s1, ev2) ∧
    (∀ k, AppendChild k ∉ ev2) ∧
    (NoDup (msgId <$> snapshotMessages conv) →
     (∀ k t, SetTextContent k t ∉ ev2) ∧
     (snapshotMessages conv ≠ [] → ev2 = [])).
Proof.
  intros Hwf. destruct (update_total conv s Hwf) as (s1 & ev1 & Hu & _).
  destruct (second_call_same_store conv s s1 ev1 Hwf Hu) as (ev2 & Hu2 & Happ).
  exists s1, ev1, ev2. split; [done|]. split; [done|]. split; [done|].
  intros Hnd.
  destruct (second_call_writes_nothing conv s s1 ev1 Hwf Hnd Hu)
    as (ev2' & Hu2' & _ & Htext & Hnone).
  rewrite Hu2 in Hu2'. by simplify_eq.
Qed.

(** C4, counterexample to the claim for every snapshot.  The snapshot holds
    two messages of one key, with the texts ab and cd.  The branch that
    updates a stored key compares the new text with the shown one and
    nothing else, so the second call with the same snapshot updates the
    content twice, to ab and back to cd; the store is the same after each
    call. *)
Example repeated_key_rewrites_text :
  let snapshot := conversation "c1" [mkMessage "EGO" 1 (Some "ab");
                                     mkMessage "EGO" 1 (Some "cd")] in
  ∃ s1 ev1,
    updateCurrentConversation snapshot first_visit = Some (s1, ev1) ∧
    rendered "EGO-1" s1 = Some "cd" ∧
    updateCurrentConversation snapshot s1
    = Some (s1, [SetTextContent "EGO-1" "ab"; ScrollToBottom;
                 SetTextContent "EGO-1" "cd"; ScrollToBottom]).
Proof.
  eexists _, _. split; [vm_compute; reflexivity|].
  split; vm_compute; reflexivity.
Qed.

(** *** Growth of the displayed text *)

Lemma rendered_Some k s t :
  rendered k s = Some t ↔
  ∃ e, getElementById k (dom s) = Some e ∧ msg_content e = t.
Proof.
  unfold rendered. destruct (getElementById k (dom s)) as [e|]; cbn.
  - split; [intros [= <-]; eauto | intros (? & [= <-] & <-); done].
  - split; [done | intros (? & ? & _); done].
Qed.

(** Across a call that does not reset, an element that is present before
    and after keeps its id, class and header; its text does not shrink and,
    when it changed, is the content of a snapshot message with that key. *)
Lemma update_grows conv s s' ev k e e' :
  wf s → updateCurrentConversation conv s = Some (s', ev) →
  (∀ c, conv = Some c → isNewConversation c s = false) →
  getElementById k (dom s) = Some e → getElementById k (dom s') = Some e' →
  grows e e' ∧
  (msg_content e' = msg_content e ∨
   ∃ m, m ∈ snapshotMessages conv ∧ msgId m = k
        ∧ msg_content e' = contentOrEmpty m).
Proof.
  intros Hwf Hu Hold He He'.
  destruct (snapshot_cases conv) as [Hem|(c & -> & Hm & Hne)].
  - rewrite (update_empty conv s Hem) in Hu. by simplify_eq.
  - destruct (update_phases c _ s Hwf Hm Hne) as (s2 & ev2 & Hu' & Hph).
    rewrite Hu in Hu'. simplify_eq.
    assert (k ∈ msgId <$> snapshotMessages (Some c)) as Hk.
    { apply (phases_keys _ _ _ _ _ _ Hph).
      destruct Hph as (?&?&?&?&?&?&?&?&?&?&?&Hwf2&?&?).
      rewrite <- (proj2 Hwf2). apply getElementById_is_Some. eauto. }
    destruct (phases_kept _ _ _ _ _ _ Hph Hk) as (s0 & ev0 & s1 & Hr & Hmg & Heq).
    rewrite (resetFor_same c s (Hold c eq_refl)) in Hr. simplify_eq.
    destruct (merged_grows _ _ _ Hmg k e He) as (e1 & He1 & Hgr & Hsrc).
    rewrite Heq, He1 in He'. by simplify_eq.
Qed.

(** C1 (as amended).  A call on a well-formed store that does not reset the
    conversation (the snapshot's id is missing, empty or the remembered one)
    returns, and every key rendered before and after the call shows a text
    that is at least as long as before; if the text changed it is the
    content of a snapshot message with that key. *)
Theorem content_length_monotone conv s :
  wf s →
  (∀ c, conv = Some c → isNewConversation c s = false) →
  ∃ s' ev, updateCurrentConversation conv s = Some (s', ev) ∧
    ∀ k old new,
      rendered k s = Some old → rendered k s' = Some new →
      (String.length old ≤ String.length new)%nat ∧
      (new ≠ old →
       ∃ m, m ∈ snapshotMessages conv ∧ msgId m = k ∧ new = contentOrEmpty m).
Proof.
  intros Hwf Hold. destruct (update_total conv s Hwf) as (s' & ev & Hu & _).
  exists s', ev. split; [done|].
  intros k old new (e & He & <-)%rendered_Some (e' & He' & <-)%rendered_Some.
  destruct (update_grows _ _ _ _ _ _ _ Hwf Hu Hold He He')
    as ((_ & _ & _ & _ & Hlen) & Hsrc).
  split; [done|]. intros Hne. destruct Hsrc as [?|?]; [done|done].
Qed.

(** *** Frame of a text update *)

(** C10.  When the merge loop meets a message whose key is stored and whose
    content is at least as long as, and different from, the displayed text,
    it writes that text into the element of the key and nothing else: the
    element keeps its id, class and header, every other child of the
    container is unchanged at its position, and [currentMessages], the
    processed-id set, the remembered id, the scroll flag and [localStorage]
    are unchanged.  Over a whole call that does not reset, an element that is
    still there afterwards has the id, class and header it had before. *)
Theorem content_update_frame m s old :
  wf s → msgId m ∈ map_keys (currentMessages s) →
  rendered (msgId m) s = Some old →
  (String.length old ≤ String.length (contentOrEmpty m))%nat →
  contentOrEmpty m ≠ old →
  ∃ s', processMsg m s
        = Some (s', SetTextContent (msgId m) (contentOrEmpty m) :: scrollIfAuto s) ∧
    length (dom s') = length (dom s) ∧
    (∀ i n, dom s !! i = Some (MsgNode n) → elem_id n = msgId m →
       dom s' !! i = Some (MsgNode (mkMsgDiv (elem_id n) (className n) (msg_agent n)
                                             (msg_time n) (contentOrEmpty m)))) ∧
    (∀ i n, dom s !! i = Some (MsgNode n) → elem_id n ≠ msgId m →
       dom s' !! i = Some (MsgNode n)) ∧
    (∀ i h, dom s !! i = Some (Static h) → dom s' !! i = Some (Static h)) ∧
    currentMessages s' = currentMessages s ∧
    same_cache s s' ∧
    (∀ conv s2 ev k e e',
       updateCurrentConversation conv s = Some (s2, ev) →
       (∀ c, conv = Some c → isNewConversation c s = false) →
       getElementById k (dom s) = Some e → getElementById k (dom s2) = Some e' →
       elem_id e' = elem_id e ∧ className e' = className e ∧
       msg_agent e' = msg_agent e ∧ msg_time e' = msg_time e).
Proof.
  intros Hwf Hin (e & He & <-)%rendered_Some Hlen Hne.
  pose proof Hwf as [Hnd Hids].
  rewrite (processMsg_seen m s e Hin He).
  apply Nat.leb_le in Hlen. rewrite Hlen, bool_decide_eq_false_2 by done.
  cbn [andb negb]. eexists. split; [done|]. cbn [with_dom dom currentMessages].
  split; [apply length_setTextContent|].
  split; [|split; [|split; [|split; [done|split; [by repeat split|]]]]];
    [| | |intros conv s2 ev k e0 e' Hu Hold He0 He';
          by destruct (update_grows _ _ _ _ _ _ _ Hwf Hu Hold He0 He')
            as ((?&?&?&?&_)&_)].
  - intros i n Hi Hk. rewrite (setTextContent_lookup _ _ _ _ _ Hnd Hi).
    cbn. by rewrite decide_True.
  - intros i n Hi Hk. rewrite (setTextContent_lookup _ _ _ _ _ Hnd Hi).
    cbn. by rewrite decide_False.
  - intros i h Hi. by rewrite (setTextContent_lookup _ _ _ _ _ Hnd Hi).
Qed.

(** *** Reset on a new conversation *)

Lemma map_keys_entries (msgs : list Message) :
  map_keys ((λ m, (msgId m, m)) <$> msgs) = msgId <$> msgs.
Proof. unfold map_keys. rewrite <- list_fmap_compose. done. Qed.

(** C2 (as amended).  When the snapshot carries at least one message and an
    id that is non-empty and differs from the remembered one, the call
    resets: afterwards the remembered id and the persisted id are the new
    id, the persisted processed-id array and the in-memory set are empty,
    and (the keys of the snapshot being pairwise distinct) the container
    holds exactly one fresh element per snapshot message, in snapshot order,
    and [currentMessages] exactly one entry per message. *)
Theorem reset_on_new_conversation c i msgs s :
  id c = Some i → i ≠ "" → currentConversationId s ≠ Some i →
  messages c = Some msgs → msgs ≠ [] → NoDup (msgId <$> msgs) →
  ∃ s' ev, updateCurrentConversation (Some c) s = Some (s', ev) ∧
    dom s' = (MsgNode ∘ newMsgDiv <$> msgs) ∧
    currentMessages s' = ((λ m, (msgId m, m)) <$> msgs) ∧
    length (currentMessages s') = length msgs ∧
    processedMessageIds s' = ∅ ∧
    currentConversationId s' = Some i ∧
    localStorage s' = mkLocalStorage (Some i) (Some []).
Proof.
  intros Hid Hi Hcur Hm Hne Hnd.
  assert (isNewConversation c s = true) as Hnew
    by (apply isNewConversation_true; eauto).
  rewrite (update_nonempty c msgs s Hm Hne). unfold andThen.
  rewrite (resetFor_new c s Hnew), Hid.
  edestruct (forEachMsg_fresh msgs
               (mkStore [] [] ∅ (Some i) (autoScroll s)
                        (mkLocalStorage (Some i) (Some [])))) as [ev1 Hf];
    [done| |].
  { intros m _. apply not_elem_of_nil. }
  rewrite Hf. cbn [dom currentMessages processedMessageIds
                   currentConversationId autoScroll localStorage app].
  unfold cleanUp, toRemove. cbn [currentMessages].
  rewrite map_keys_entries, filter_none.
  - rewrite removeAll_nil. eexists _, _. split; [done|].
    cbn. by rewrite length_fmap.
  - intros k Hk Hv. apply Hv. by apply elem_of_list_to_set.
Qed.

(** *** The persisted cache *)

(** C7 (as amended).  A call changes the remembered id only by a reset, and
    the reset writes both [localStorage] items: the new id and an empty
    processed-id array.  Every other change of the in-memory processed-id
    set (the clearing on an empty snapshot, the deletions of the clean-up)
    writes nothing.  Hence the persisted id follows the remembered id, while
    the in-memory processed-id set only stays within the persisted one. *)
Theorem persisted_cache_after_apply conv s :
  wf s →
  ∃ s' ev, updateCurrentConversation conv s = Some (s', ev) ∧
    (ls_conversation (localStorage s) = currentConversationId s →
     ls_conversation (localStorage s') = currentConversationId s') ∧
    (currentConversationId s' ≠ currentConversationId s →
     processedMessageIds s' = ∅ ∧
     localStorage s' = mkLocalStorage (currentConversationId s') (Some [])) ∧
    (currentConversationId s' = currentConversationId s →
     localStorage s' = localStorage s ∧
     processedMessageIds s' ⊆ processedMessageIds s) ∧
    (processedMessageIds s ⊆ persistedIds s →
     processedMessageIds s' ⊆ persistedIds s').
Proof.
  intros Hwf. destruct (update_total conv s Hwf) as (s' & ev & Hu & _).
  exists s', ev. split; [done|].
  destruct (snapshot_cases conv) as [Hem|(c & -> & Hm & Hne)].
  - rewrite (update_empty conv s Hem) in Hu. simplify_eq.
    unfold persistedIds. cbn. repeat split; try done; set_solver.
  - destruct (update_phases c _ s Hwf Hm Hne) as (s2 & ev2 & Hu' & Hph).
    rewrite Hu in Hu'. simplify_eq.
    destruct Hph as (s0 & ev0 & s1 & ev1 & ev2' & Hr & _ & _ & _ & Hmg & _ & _ & Hsw & _).
    destruct Hmg as [(Hp1 & Hc1 & _ & Hl1) _ _ _ _].
    destruct Hsw as [Hc2 _ Hl2 Hp2 _ _].
    unfold persistedIds. rewrite Hc2, Hl2, Hp2, Hc1, Hl1, Hp1.
    destruct (isNewConversation c s) eqn:E.
    + rewrite (resetFor_new c s E) in Hr. simplify_eq.
      apply isNewConversation_true in E as (i & Hid & _ & Hcur).
      cbn. rewrite Hid, empty_difference_L. by repeat split.
    + rewrite (resetFor_same c s E) in Hr. simplify_eq.
      repeat split; try done.
      * by apply subseteq_difference_l.
      * intros Hsub. by apply subseteq_difference_l.
Qed.

(** *** Scenarios *)

Example showing_hello_reached :
  updateCurrentConversation (conversation "c1" [ego_hello]) first_visit
  = Some (showing_hello,
          [SetInnerHTML ""; SetItem "grokgates-current-conversation" "c1";
           SetItem "grokgates-processed-messages" "[]";
           AppendChild "EGO-1000"; ScrollToBottom]).
Proof. vm_compute. reflexivity. Qed.

Lemma getElementById_static k page d :
  getElementById k ((Static <$> page) ++ d) = getElementById k d.
Proof.
  apply getElementById_app_r. rewrite node_ids_static. apply not_elem_of_nil.
Qed.

Lemma setTextContent_static k t page d :
  setTextContent k t ((Static <$> page) ++ d)
  = (Static <$> page) ++ setTextContent k t d.
Proof. induction page as [|h r IH]; [done|]. cbn. by rewrite <- IH. Qed.

Lemma resetFor_shape c page scroll ls :
  ∃ pg P cid l ev,
    resetFor c (startup page scroll ls)
    = Some (mkStore (Static <$> pg) [] P cid scroll l, ev) ∧
    isNewConversation c (mkStore (Static <$> pg) [] P cid scroll l) = false.
Proof.
  destruct (isNewConversation c (startup page scroll ls)) eqn:E.
  - rewrite (resetFor_new _ _ E). exists [], ∅, (id c), (mkLocalStorage (id c) (Some [])).
    eexists. split; [done|]. by apply isNewConversation_recorded.
  - rewrite (resetFor_same _ _ E). eexists page, _, _, _, _. split; [done|].
    by rewrite <- E.
Qed.

(** C6 (as amended).  The key of a message is its agent, a hyphen and its
    timestamp in decimal.  From the start-up store, whatever the page and
    [localStorage] held, a snapshot of conversation c1 with the single message
    OBSERVER / 1000 / Hi yields exactly one stored key and one message
    element, with id OBSERVER-1000 and text Hi (length 2); the same snapshot
    with content Hi there then writes that text (length 8) into the same
    element and appends nothing. *)
Theorem scenario_observer_1000 page scroll ls :
  (∀ m, msgId m = agent m +:+ "-" +:+ pretty (timestamp m)) ∧
  ∃ s1 ev1 s2 ev2,
    updateCurrentConversation (conversation "c1" [observer_hi])
                              (startup page scroll ls) = Some (s1, ev1) ∧
    map_keys (currentMessages s1) = ["OBSERVER-1000"] ∧
    node_ids (dom s1) = ["OBSERVER-1000"] ∧
    getElementById "OBSERVER-1000" (dom s1)
    = Some (mkMsgDiv "OBSERVER-1000" "message observer" LabelObserver 1000 "Hi") ∧
    String.length "Hi" = 2%nat ∧
    updateCurrentConversation (conversation "c1" [observer_hi_there]) s1
    = Some (s2, ev2) ∧
    map_keys (currentMessages s2) = ["OBSERVER-1000"] ∧
    node_ids (dom s2) = ["OBSERVER-1000"] ∧
    getElementById "OBSERVER-1000" (dom s2)
    = Some (mkMsgDiv "OBSERVER-1000" "message observer" LabelObserver 1000 "Hi there") ∧
    String.length "Hi there" = 8%nat ∧
    ev2 = SetTextContent "OBSERVER-1000" "Hi there"
          :: (if scroll then [ScrollToBottom] else []).
Proof.
  split; [done|].
  destruct (resetFor_shape (mkConversation (Some "c1") (Some [observer_hi]))
              page scroll ls) as (pg & P & cid & l & ev0 & Hr & Hold).
  eexists _, _, _, _. split.
  { unfold conversation. rewrite update_nonempty with (msgs := [observer_hi]) by done.
    unfold andThen. rewrite Hr. rewrite forEachMsg_cons. unfold andThen.
    rewrite processMsg_new by apply not_elem_of_nil.
    cbn [forEachMsg foldr skip dom currentMessages processedMessageIds
         currentConversationId autoScroll localStorage app].
    unfold cleanUp.
    replace (toRemove _ _) with (@nil string) by (vm_compute; reflexivity).
    rewrite removeAll_nil. reflexivity. }
  cbn [dom currentMessages].
  split; [done|].
  split; [by rewrite node_ids_app, node_ids_static|].
  split; [by rewrite getElementById_static|].
  split; [done|].
  split.
  { unfold conversation.
    rewrite update_nonempty with (msgs := [observer_hi_there]) by done.
    unfold andThen. rewrite resetFor_same by exact Hold.
    rewrite forEachMsg_cons. unfold andThen.
    rewrite (processMsg_seen _ _ (newMsgDiv observer_hi));
      [|by left|cbn [dom]; by rewrite getElementById_static].
    cbn [forEachMsg foldr skip dom currentMessages processedMessageIds
         currentConversationId autoScroll localStorage app with_dom
         andb negb].
    replace (_ && _) with true by (vm_compute; reflexivity).
    unfold cleanUp.
    replace (toRemove _ _) with (@nil string) by (vm_compute; reflexivity).
    rewrite removeAll_nil. reflexivity. }
  cbn [dom currentMessages with_dom]. rewrite setTextContent_static.
  split; [done|].
  split; [by rewrite node_ids_app, node_ids_static|].
  split; [by rewrite getElementById_static|].
  split; [done|].
  rewrite !app_nil_r. unfold scrollIfAuto. cbn [autoScroll].
  by destruct scroll.
Qed.

(** C6: the key of the scenario is OBSERVER-1000, with a hyphen; no element
    is keyed OBSERVER:1000. *)
Lemma key_separator_is_hyphen :
  ∃ s1 ev1,
    updateCurrentConversation (conversation "c1" [observer_hi]) first_visit
    = Some (s1, ev1) ∧
    msgId observer_hi = "OBSERVER-1000" ∧
    msgId observer_hi ≠ "OBSERVER" +:+ ":" +:+ pretty 1000%Z ∧
    node_ids (dom s1) = ["OBSERVER-1000"] ∧
    getElementById "OBSERVER:1000" (dom s1) = None.
Proof. eexists _, _. split; [vm_compute; reflexivity|]. by vm_compute. Qed.

(** C1: the text of key EGO-1000 shrinks from Hello to Hi when the next
    snapshot belongs to another conversation that has a message with the
    same key. *)
Lemma shorter_text_after_reset :
  ∃ s1 ev1 s2 ev2,
    updateCurrentConversation (conversation "c1" [ego_hello]) first_visit
    = Some (s1, ev1) ∧
    updateCurrentConversation (conversation "c2" [ego_hi]) s1 = Some (s2, ev2) ∧
    rendered "EGO-1000" s1 = Some "Hello" ∧
    rendered "EGO-1000" s2 = Some "Hi" ∧
    (String.length "Hi" < String.length "Hello")%nat.
Proof.
  eexists _, _, _, _. split; [vm_compute; reflexivity|].
  split; [vm_compute; reflexivity|].
  split; [vm_compute; reflexivity|].
  split; [vm_compute; reflexivity|]. cbn. lia.
Qed.

(** The instance of C1 where Hello grows to Hello, world within
    conversation c1. *)
Lemma content_length_monotone_witness :
  ∃ s' ev,
    updateCurrentConversation (conversation "c1" [ego_hello_world]) showing_hello
    = Some (s', ev) ∧
    ∀ k old new,
      rendered k showing_hello = Some old → rendered k s' = Some new →
      (String.length old ≤ String.length new)%nat ∧
      (new ≠ old →
       ∃ m, m ∈ snapshotMessages (conversation "c1" [ego_hello_world])
            ∧ msgId m = k ∧ new = contentOrEmpty m).
Proof.
  apply (content_length_monotone (conversation "c1" [ego_hello_world])
           showing_hello).
  - by_evaluation.
  - intros c [= <-]. vm_compute. reflexivity.
Defined.

(** C2: a snapshot of a new conversation that has no message yet clears the
    store but records nothing: the remembered and the persisted id stay c1. *)
Lemma empty_new_conversation_not_recorded :
  ∃ s' ev,
    updateCurrentConversation (conversation "c2" []) showing_hello = Some (s', ev) ∧
    currentConversationId showing_hello = Some "c1" ∧
    currentConversationId s' = Some "c1" ∧
    ls_conversation (localStorage s') = Some "c1" ∧
    ev = [SetInnerHTML placeholder].
Proof. eexists _, _. split; [vm_compute; reflexivity|]. by vm_compute. Qed.

(** The instance of C2 where conversation c2 arrives with two messages
    while c1 is shown. *)
Lemma reset_on_new_conversation_witness :
  ∃ s' ev,
    updateCurrentConversation
      (Some (mkConversation (Some "c2") (Some [ego_hi; system_note])))
      showing_hello = Some (s', ev) ∧
    dom s' = (MsgNode ∘ newMsgDiv <$> [ego_hi; system_note]) ∧
    currentMessages s' = ((λ m, (msgId m, m)) <$> [ego_hi; system_note]) ∧
    length (currentMessages s') = length [ego_hi; system_note] ∧
    processedMessageIds s' = ∅ ∧
    currentConversationId s' = Some "c2" ∧
    localStorage s' = mkLocalStorage (Some "c2") (Some []).
Proof.
  apply (reset_on_new_conversation
           (mkConversation (Some "c2") (Some [ego_hi; system_note])) "c2"
           [ego_hi; system_note] showing_hello).
  - reflexivity.
  - by_evaluation.
  - by_evaluation.
  - reflexivity.
  - by_evaluation.
  - by_evaluation.
Defined.

(** The instance of C3 where the snapshot of c1 no longer has the message
    that is shown. *)
Lemma gc_removes_absent_keys_witness :
  ∃ s' ev,
    updateCurrentConversation (conversation "c1" [system_note]) showing_hello
    = Some (s', ev) ∧
    ∀ k, k ∉ msgId <$> snapshotMessages (conversation "c1" [system_note]) →
      (k ∉ map_keys (currentMessages s')) ∧
      (k ∉ node_ids (dom s')) ∧
      (k ∈ map_keys (currentMessages showing_hello) → k ∉ processedMessageIds s').
Proof.
  apply (gc_removes_absent_keys (conversation "c1" [system_note]) showing_hello).
  by_evaluation.
Defined.

(** The instance of C4 on the first snapshot of a first visit. *)
Lemma apply_idempotent_witness :
  ∃ s1 ev1 ev2,
    updateCurrentConversation (conversation "c1" [ego_hello]) first_visit
    = Some (s1, ev1) ∧
    updateCurrentConversation (conversation "c1" [ego_hello]) s1
    = Some (s1, ev2) ∧
    (∀ k, AppendChild k ∉ ev2) ∧
    (NoDup (msgId <$> snapshotMessages (conversation "c1" [ego_hello])) →
     (∀ k t, SetTextContent k t ∉ ev2) ∧
     (snapshotMessages (conversation "c1" [ego_hello]) ≠ [] → ev2 = [])).
Proof.
  apply (apply_idempotent (conversation "c1" [ego_hello]) first_visit).
  by_evaluation.
Defined.

(** C7: an empty snapshot empties the in-memory processed-id set and writes
    nothing to [localStorage]; the persisted set keeps its key. *)
Lemma cleared_set_not_persisted :
  ∃ s' ev,
    updateCurrentConversation None returning_visit = Some (s', ev) ∧
    processedMessageIds returning_visit = persistedIds returning_visit ∧
    processedMessageIds s' = ∅ ∧
    persistedIds s' = {["EGO-1000"]} ∧
    processedMessageIds s' ≠ persistedIds s' ∧
    ev = [SetInnerHTML placeholder].
Proof.
  eexists _, _. split; [vm_compute; reflexivity|].
  repeat split; try (vm_compute; reflexivity).
  cbn. unfold persistedIds. cbn. set_solver.
Qed.

(** The instance of C7 where a returning visitor receives a new
    conversation. *)
Lemma persisted_cache_after_apply_witness :
  ∃ s' ev,
    updateCurrentConversation (conversation "c2" [ego_hi]) returning_visit
    = Some (s', ev) ∧
    (ls_conversation (localStorage returning_visit)
     = currentConversationId returning_visit →
     ls_conversation (localStorage s') = currentConversationId s') ∧
    (currentConversationId s' ≠ currentConversationId returning_visit →
     processedMessageIds s' = ∅ ∧
     localStorage s' = mkLocalStorage (currentConversationId s') (Some [])) ∧
    (currentConversationId s' = currentConversationId returning_visit →
     localStorage s' = localStorage returning_visit ∧
     processedMessageIds s' ⊆ processedMessageIds returning_visit) ∧
    (processedMessageIds returning_visit ⊆ persistedIds returning_visit →
     processedMessageIds s' ⊆ persistedIds s').
Proof.
  apply (persisted_cache_after_apply (conversation "c2" [ego_hi]) returning_visit).
  by_evaluation.
Defined.

(** The instance of C10 where Hello grows to Hello, world. *)
Lemma content_update_frame_witness :
  ∃ s',
    processMsg ego_hello_world showing_hello
    = Some (s', SetTextContent (msgId ego_hello_world)
                  (contentOrEmpty ego_hello_world) :: scrollIfAuto showing_hello) ∧
    length (dom s') = length (dom showing_hello) ∧
    (∀ i n, dom showing_hello !! i = Some (MsgNode n) →
       elem_id n = msgId ego_hello_world →
       dom s' !! i = Some (MsgNode (mkMsgDiv (elem_id n) (className n) (msg_agent n)
                                     (msg_time n) (contentOrEmpty ego_hello_world)))) ∧
    (∀ i n, dom showing_hello !! i = Some (MsgNode n) →
       elem_id n ≠ msgId ego_hello_world → dom s' !! i = Some (MsgNode n)) ∧
    (∀ i h, dom showing_hello !! i = Some (Static h) →
       dom s' !! i = Some (Static h)) ∧
    currentMessages s' = currentMessages showing_hello ∧
    same_cache showing_hello s' ∧
    (∀ conv s2 ev k e e',
       updateCurrentConversation conv showing_hello = Some (s2, ev) →
       (∀ c, conv = Some c → isNewConversation c showing_hello = false) →
       getElementById k (dom showing_hello) = Some e →
       getElementById k (dom s2) = Some e' →
       elem_id e' = elem_id e ∧ className e' = className e ∧
       msg_agent e' = msg_agent e ∧ msg_time e' = msg_time e).
Proof.
  apply (content_update_frame ego_hello_world showing_hello "Hello").
  - by_evaluation.
  - by_evaluation.
  - vm_compute. reflexivity.
  - vm_compute. lia.
  - by_evaluation.
Defined.

(** ** Further properties of the reconciler *)

(** *** Sessions *)

Lemma update_keys conv s s' ev :
  wf s → updateCurrentConversation conv s = Some (s', ev) →
  ∀ k, k ∈ map_keys (currentMessages s') ↔ k ∈ msgId <$> snapshotMessages conv.
Proof.
  intros Hwf Hu k. destruct (snapshot_cases conv) as [He|(c & -> & Hm & Hne)].
  - rewrite (update_empty conv s He) in Hu. simplify_eq. by rewrite He.
  - destruct (update_phases c _ s Hwf Hm Hne) as (s2 & ev2 & Hu2 & Hph).
    rewrite Hu in Hu2. simplify_eq. by eapply phases_keys.
Qed.

Lemma updateAll_cons conv convs s :
  updateAll (conv :: convs) s
  = andThen (updateCurrentConversation conv) (updateAll convs) s.
Proof. reflexivity. Qed.

Lemma updateAll_wf convs s :
  wf s →
  ∃ s' ev, updateAll convs s = Some (s', ev) ∧ wf s' ∧
    ∀ conv, last convs = Some conv →
      ∀ k, k ∈ map_keys (currentMessages s') ↔ k ∈ msgId <$> snapshotMessages conv.
Proof.
  revert s. induction convs as [|c r IH]; intros s Hwf.
  - exists s, []. by split.
  - destruct (update_total c s Hwf) as (s1 & ev1 & Hu & Hwf1).
    destruct (IH s1 Hwf1) as (s2 & ev2 & Hr & Hwf2 & Hk).
    exists s2, (ev1 ++ ev2). split.
    { rewrite updateAll_cons. unfold andThen. by rewrite Hu, Hr. }
    split; [done|]. intros conv Hl. destruct r as [|c' r'].
    + cbn in Hl, Hr. unfold skip in Hr. simplify_eq.
      exact (update_keys _ _ _ _ Hwf Hu).
    + by apply Hk.
Qed.

(** X1.  On the data of the model (every message of a snapshot has an
    agent string and an integer timestamp, and the processed-messages item
    of [localStorage] parses as an array of strings), from the store the
    start-up code builds, whatever markup the container held, every series
    of calls of [updateCurrentConversation] returns: the call never looks
    for the element of a stored key in vain.  The final store is well
    formed, and the ids of the message elements in the container are exactly
    the keys of the messages of the last snapshot.  The exception is not
    ruled out by the model: on a store whose Map holds a key without an
    element, which is not well formed, the call for a snapshot with that key
    throws.  The exceptions of [msg.agent.toLowerCase()] on a message
    without agent and of [JSON.parse] on a damaged item are not covered. *)
Theorem stored_keys_keep_their_elements page scroll ls convs :
  (∃ s ev, updateAll convs (startup page scroll ls) = Some (s, ev) ∧
     NoDup (node_ids (dom s)) ∧
     node_ids (dom s) = map_keys (currentMessages s) ∧
     ∀ conv, last convs = Some conv →
       ∀ k, k ∈ node_ids (dom s) ↔ k ∈ msgId <$> snapshotMessages conv) ∧
  (¬ wf orphan_key ∧
   updateCurrentConversation (conversation "c1" [ego_hello]) orphan_key = None).
Proof.
  split.
  - destruct (updateAll_wf convs _ (wf_startup page scroll ls))
      as (s & ev & Hu & [Hnd Hids] & Hk).
    exists s, ev. split; [done|]. split; [done|]. split; [done|].
    intros conv Hl k. rewrite Hids. by apply Hk.
  - split; [|by vm_compute]. intros [_ Hids]. by vm_compute in Hids.
Qed.

(** *** What a call shows *)

(** X2.  After a call on a well-formed store every message of the snapshot
    has an element in the container, found under its key, and no key has two
    elements.  When the keys of the snapshot are pairwise distinct, the
    element shows the content of the message or a strictly longer text. *)
Theorem snapshot_is_rendered conv s :
  wf s →
  ∃ s' ev, updateCurrentConversation conv s = Some (s', ev) ∧
    NoDup (node_ids (dom s')) ∧
    (length (node_ids (dom s')) ≤ length (snapshotMessages conv))%nat ∧
    ∀ m, m ∈ snapshotMessages conv →
      ∃ e, getElementById (msgId m) (dom s') = Some e ∧
           elem_id e = msgId m ∧
           (NoDup (msgId <$> snapshotMessages conv) →
            msg_content e = contentOrEmpty m ∨
            (String.length (contentOrEmpty m) < String.length (msg_content e))%nat).
Proof.
  intros Hwf. destruct (update_total conv s Hwf) as (s' & ev & Hu & Hwf').
  exists s', ev. split; [done|]. destruct Hwf' as [Hnd Hids].
  pose proof (update_keys conv s s' ev Hwf Hu) as Hk.
  split; [done|]. split.
  { rewrite <- (length_fmap msgId). apply submseteq_length, NoDup_submseteq; [done|].
    intros k Hin. apply Hk. by rewrite <- Hids. }
  intros m Hm.
  assert (is_Some (getElementById (msgId m) (dom s'))) as [e He].
  { apply getElementById_is_Some. rewrite Hids. apply Hk.
    by apply list_elem_of_fmap_2. }
  exists e. split; [done|]. split; [by eapply getElementById_id|]. intros Hnd'.
  destruct (snapshot_cases conv) as [Hemp|(c & -> & Hmsgs & Hne)].
  { rewrite Hemp in Hm. by apply elem_of_nil in Hm. }
  destruct (update_phases c _ s Hwf Hmsgs Hne) as (s2 & ev2 & Hu2 & Hph).
  rewrite Hu in Hu2. simplify_eq.
  destruct (phases_settled _ _ _ _ _ m Hph Hnd' Hm) as (_ & e' & He' & Hcond).
  rewrite He in He'. simplify_eq.
  apply andb_false_iff in Hcond as [Hlen|Heq].
  - right. apply Nat.leb_gt in Hlen. lia.
  - left. apply negb_false_iff, bool_decide_eq_true in Heq. done.
Qed.

(** *** Order of the elements *)

Lemma filter_ext_elem {A} (P Q : A → Prop)
      `{∀ x, Decision (P x)} `{∀ x, Decision (Q x)} (l : list A) :
  (∀ x, x ∈ l → (P x ↔ Q x)) → filter P l = filter Q l.
Proof.
  induction l as [|x l IH]; intros Hall; [done|].
  assert (filter P l = filter Q l) as IH' by (apply IH; intros; apply Hall; by right).
  destruct (decide (P x)) as [Hp|Hp].
  - rewrite filter_cons_True by done.
    rewrite (filter_cons_True Q) by (apply Hall; [left|done]). by f_equal.
  - rewrite filter_cons_False by done.
    rewrite (filter_cons_False Q); [done|]. intros Hq. apply Hp, Hall; [left|done].
Qed.

Lemma processMsg_ids m s s' ev :
  processMsg m s = Some (s', ev) →
  node_ids (dom s') =
  node_ids (dom s) ++
    (if map_has (msgId m) (currentMessages s) then [] else [msgId m]).
Proof.
  unfold processMsg. destruct (map_has _ _); cbn [negb].
  - destruct (getElementById _ _); [|done].
    destruct (_ && _); intros [= <- <-]; cbn [with_dom dom];
      by rewrite ?node_ids_setTextContent, app_nil_r.
  - intros [= <- <-]. cbn [dom]. by rewrite node_ids_app.
Qed.

Lemma forEachMsg_ids msgs s s' ev :
  wf s → forEachMsg msgs s = Some (s', ev) →
  ∃ fresh, node_ids (dom s') = node_ids (dom s) ++ fresh ∧
           ∀ k, k ∈ fresh → k ∈ msgId <$> msgs ∧ k ∉ node_ids (dom s).
Proof.
  revert s ev. induction msgs as [|m msgs IH]; intros s ev Hwf Hf.
  - cbn in Hf. unfold skip in Hf. simplify_eq. exists [].
    split; [by rewrite app_nil_r|]. intros k Hk. by apply elem_of_nil in Hk.
  - destruct (processMsg_wf m s Hwf) as (s1 & ev1 & Hp & Hwf1 & _).
    rewrite forEachMsg_cons in Hf. unfold andThen in Hf. rewrite Hp in Hf.
    destruct (forEachMsg msgs s1) as [[s2 ev2]|] eqn:Hf2; [|done]. simplify_eq.
    destruct (IH s1 ev2 Hwf1 Hf2) as (fresh & Hids & Hfresh).
    pose proof (processMsg_ids m s s1 ev1 Hp) as H1.
    eexists. split.
    { rewrite Hids, H1, <- app_assoc. reflexivity. }
    intros k Hk. apply elem_of_app in Hk as [Hk|Hk].
    + destruct (map_has _ _) eqn:E; [by apply elem_of_nil in Hk|].
      apply list_elem_of_singleton in Hk. subst k. split; [rewrite fmap_cons; left|].
      apply map_has_false in E. by rewrite (proj2 Hwf).
    + destruct (Hfresh k Hk) as [Hin Hni]. split; [rewrite fmap_cons; by right|].
      intros Hk'. apply Hni. rewrite H1. apply elem_of_app. by left.
Qed.

(** X3.  A call that does not switch to another conversation keeps the
    elements of the messages that are still in the snapshot in the order they
    had, and puts the elements it creates after them. *)
Theorem order_is_stable conv s :
  wf s →
  (∀ c, conv = Some c → isNewConversation c s = false) →
  ∃ s' ev fresh, updateCurrentConversation conv s = Some (s', ev) ∧
    node_ids (dom s')
    = filter (λ k, k ∈ msgId <$> snapshotMessages conv) (node_ids (dom s)) ++ fresh ∧
    (∀ k, k ∈ fresh → k ∉ node_ids (dom s)).
Proof.
  intros Hwf Hsame. destruct (snapshot_cases conv) as [He|(c & -> & Hm & Hne)].
  - rewrite (update_empty conv s He). eexists (awaiting s), _, []. split; [done|].
    split; [|intros k Hk; by apply elem_of_nil in Hk].
    rewrite He, app_nil_r. symmetry. apply filter_none. intros x _ Hx.
    by apply elem_of_nil in Hx.
  - destruct (update_phases c _ s Hwf Hm Hne) as (s' & ev & Hu & Hph).
    destruct Hph as (s0 & ev0 & s1 & ev1 & ev2 & Hr & Hwf0 & Hf & Hwf1 & Hmg
                     & Hc & Hwf2 & Hsw & Hev).
    rewrite (resetFor_same c s (Hsame c eq_refl)) in Hr. simplify_eq.
    destruct (forEachMsg_ids _ _ _ _ Hwf Hf) as (fresh & Hids & Hfresh).
    exists s', (ev1 ++ ev2), fresh. split; [done|].
    split; [|intros k Hk; by apply Hfresh].
    rewrite (proj2 Hwf2), (swept_keys _ _ _ Hsw), <- (proj2 Hwf1), Hids.
    rewrite filter_app. f_equal.
    + apply filter_ext_elem. intros x Hx. rewrite elem_of_toRemove.
      assert (x ∈ map_keys (currentMessages s1)) as Hx1.
      { rewrite <- (proj2 Hwf1), Hids. apply elem_of_app. by left. }
      destruct (decide (x ∈ msgId <$> snapshotMessages (Some c))); tauto.
    + apply filter_all. intros x Hx. rewrite elem_of_toRemove.
      destruct (Hfresh x Hx) as [Hin _]. tauto.
Qed.

(** *** The text of an element *)

Lemma textAfter_nil x : textAfter x [] = x.
Proof. by destruct x. Qed.

Lemma textAfter_app x ts1 ts2 :
  textAfter (textAfter x ts1) ts2 = textAfter x (ts1 ++ ts2).
Proof.
  destruct x as [old|]; cbn.
  - by rewrite runTexts_app.
  - destruct ts1 as [|c r]; cbn; [done|]. by rewrite runTexts_app.
Qed.

Lemma processMsg_text m s s' ev k :
  wf s → processMsg m s = Some (s', ev) →
  rendered k s' = textAfter (rendered k s) (keyTexts k [m]).
Proof.
  intros Hwf Hp. destruct (decide (msgId m = k)) as [<-|Hne].
  - rewrite keyTexts_one_eq.
    destruct (decide (msgId m ∈ map_keys (currentMessages s))) as [Hin|Hni].
    + assert (is_Some (getElementById (msgId m) (dom s))) as [e He].
      { apply getElementById_is_Some. by rewrite (proj2 Hwf). }
      rewrite (processMsg_seen m s e Hin He) in Hp.
      unfold rendered at 2. rewrite He. cbn [fmap option_fmap option_map textAfter].
      unfold runTexts. cbn [foldl]. unfold stepText.
      destruct (_ && _); simplify_eq.
      * unfold rendered. cbn [with_dom dom].
        by rewrite (getElementById_setTextContent_eq _ _ _ e He).
      * unfold rendered. by rewrite He.
    + rewrite (processMsg_new m s Hni) in Hp. simplify_eq.
      assert (msgId m ∉ node_ids (dom s)) as Hnid by (by rewrite (proj2 Hwf)).
      unfold rendered. cbn [dom]. rewrite getElementById_app_r by done.
      rewrite (proj2 (getElementById_None _ _) Hnid).
      cbn [getElementById]. by rewrite decide_True.
  - rewrite (keyTexts_one_ne k m Hne), textAfter_nil.
    destruct (processMsg_wf m s Hwf) as (s1 & ev1 & Hp1 & _ & Hstep).
    rewrite Hp in Hp1. simplify_eq. unfold rendered.
    by rewrite (step_other _ _ _ Hstep k) by done.
Qed.

Lemma forEachMsg_text msgs s s' ev k :
  wf s → forEachMsg msgs s = Some (s', ev) →
  rendered k s' = textAfter (rendered k s) (keyTexts k msgs).
Proof.
  revert s ev. induction msgs as [|m msgs IH]; intros s ev Hwf Hf.
  - cbn in Hf. unfold skip in Hf. simplify_eq. by rewrite keyTexts_nil, textAfter_nil.
  - destruct (processMsg_wf m s Hwf) as (s1 & ev1 & Hp & Hwf1 & _).
    rewrite forEachMsg_cons in Hf. unfold andThen in Hf. rewrite Hp in Hf.
    destruct (forEachMsg msgs s1) as [[s2 ev2]|] eqn:Hf2; [|done]. simplify_eq.
    rewrite (IH s1 ev2 Hwf1 Hf2), (processMsg_text m s s1 ev1 k Hwf Hp).
    rewrite textAfter_app. by rewrite <- keyTexts_app.
Qed.

(** X4.  The text under a key of the snapshot after a call that does not
    switch to another conversation: the contents of the snapshot's messages
    of that key are taken in order, each replacing the text shown so far when
    it is at least as long and different; when the key had no element, the
    first content is the initial text.  In particular a key that occurs once,
    with content [t], shows [t] if [t] is at least as long as the old text,
    and the old text otherwise. *)
Theorem text_after_call conv s k :
  wf s →
  (∀ c, conv = Some c → isNewConversation c s = false) →
  k ∈ msgId <$> snapshotMessages conv →
  ∃ s' ev, updateCurrentConversation conv s = Some (s', ev) ∧
    rendered k s' = textAfter (rendered k s) (keyTexts k (snapshotMessages conv)) ∧
    (∀ old t, rendered k s = Some old →
       keyTexts k (snapshotMessages conv) = [t] →
       rendered k s'
       = Some (if decide (String.length old ≤ String.length t)%nat then t else old)).
Proof.
  intros Hwf Hsame Hk. destruct (snapshot_cases conv) as [He|(c & -> & Hm & Hne)].
  { rewrite He in Hk. by apply elem_of_nil in Hk. }
  destruct (update_phases c _ s Hwf Hm Hne) as (s' & ev & Hu & Hph).
  exists s', ev. split; [done|].
  assert (rendered k s'
          = textAfter (rendered k s) (keyTexts k (snapshotMessages (Some c)))) as Ht.
  { destruct Hph as (s0 & ev0 & s1 & ev1 & ev2 & Hr & Hwf0 & Hf & Hwf1 & Hmg
                     & Hc & Hwf2 & Hsw & Hev).
    rewrite (resetFor_same c s (Hsame c eq_refl)) in Hr. simplify_eq.
    rewrite <- (forEachMsg_text _ _ _ _ k Hwf Hf). unfold rendered. f_equal.
    apply (swept_other _ _ _ Hsw). rewrite elem_of_toRemove. tauto. }
  split; [done|]. intros old t Hold Hone. rewrite Ht, Hold, Hone. cbn.
  unfold stepText. f_equal.
  destruct (decide (String.length old ≤ String.length t)%nat) as [Hle|Hgt].
  - rewrite (proj2 (Nat.leb_le _ _) Hle). cbn.
    destruct (bool_decide_reflect (t = old)); by subst.
  - by rewrite (proj2 (Nat.leb_gt _ _)) by lia.
Qed.

(** *** The writes of a call *)

Lemma processMsg_log m s s' ev e :
  processMsg m s = Some (s', ev) → e ∈ ev →
  (e = AppendChild (msgId m) ∧ msgId m ∉ map_keys (currentMessages s)) ∨
  (e = SetTextContent (msgId m) (contentOrEmpty m)
   ∧ msgId m ∈ map_keys (currentMessages s)) ∨
  (e = ScrollToBottom ∧ autoScroll s = true).
Proof.
  assert (∀ e, e ∈ scrollIfAuto s → e = ScrollToBottom ∧ autoScroll s = true) as Hs.
  { intros e0. unfold scrollIfAuto. destruct (autoScroll s).
    - intros ->%list_elem_of_singleton. done.
    - intros []%elem_of_nil. }
  unfold processMsg. destruct (map_has _ _) eqn:E; cbn [negb].
  - apply map_has_true in E. destruct (getElementById _ _); [|done].
    destruct (_ && _); intros [= <- <-] He.
    + apply elem_of_cons in He as [->|He]; [by right; left|]. right; right. by apply Hs.
    + by apply elem_of_nil in He.
  - apply map_has_false in E. intros [= <- <-] He.
    apply elem_of_cons in He as [->|He]; [by left|]. right; right. by apply Hs.
Qed.

Lemma forEachMsg_log msgs s s' ev e :
  wf s → forEachMsg msgs s = Some (s', ev) → e ∈ ev →
  (∃ m, m ∈ msgs ∧ e = AppendChild (msgId m)
        ∧ msgId m ∉ map_keys (currentMessages s)) ∨
  (∃ m, m ∈ msgs ∧ e = SetTextContent (msgId m) (contentOrEmpty m)) ∨
  (e = ScrollToBottom ∧ autoScroll s = true).
Proof.
  revert s ev. induction msgs as [|m msgs IH]; intros s ev Hwf Hf He.
  - cbn in Hf. unfold skip in Hf. simplify_eq. by apply elem_of_nil in He.
  - destruct (processMsg_wf m s Hwf) as (s1 & ev1 & Hp & Hwf1 & Hstep).
    rewrite forEachMsg_cons in Hf. unfold andThen in Hf. rewrite Hp in Hf.
    destruct (forEachMsg msgs s1) as [[s2 ev2]|] eqn:Hf2; [|done]. simplify_eq.
    apply elem_of_app in He as [He|He].
    + destruct (processMsg_log _ _ _ _ _ Hp He) as [[-> Hn]|[[-> _]|[-> Ha]]].
      * left. exists m. split; [left|done].
      * right; left. exists m. split; [left|done].
      * by right; right.
    + destruct (IH s1 ev2 Hwf1 Hf2 He) as [(m' & Hm' & -> & Hn)|[(m' & Hm' & ->)|[-> Ha]]].
      * left. exists m'. split; [by right|]. split; [done|].
        intros Hin. apply Hn. apply (step_keys _ _ _ Hstep). by left.
      * right; left. exists m'. split; [by right|done].
      * right; right. split; [done|].
        destruct (step_cache _ _ _ Hstep) as (_ & _ & Hauto & _). by rewrite <- Hauto.
Qed.

Lemma removeAll_log ks s s' ev e :
  removeAll ks s = Some (s', ev) → e ∈ ev → ∃ k, k ∈ ks ∧ e = RemoveElement k.
Proof.
  revert s ev. induction ks as [|k ks IH]; intros s ev Hr He.
  - rewrite removeAll_nil in Hr. simplify_eq. by apply elem_of_nil in He.
  - rewrite removeAll_cons in Hr. unfold andThen, removeStale in Hr.
    destruct (removeAll ks _) as [[s2 ev2]|] eqn:Hr2; [|done]. simplify_eq.
    apply elem_of_app in He as [He|He].
    + exists k. split; [left|]. destruct (getElementById _ _).
      * by apply list_elem_of_singleton in He.
      * by apply elem_of_nil in He.
    + destruct (IH _ _ Hr2 He) as (k' & Hk' & ->). exists k'. split; [by right|done].
Qed.

(** Each write of a call, with what licenses it. *)
Lemma update_log conv s s' ev e :
  wf s → updateCurrentConversation conv s = Some (s', ev) → e ∈ ev →
  match e with
  | SetInnerHTML h =>
      (h = placeholder ∧ snapshotMessages conv = []) ∨
      (h = "" ∧ ∃ c, conv = Some c ∧ isNewConversation c s = true)
  | SetItem _ _ =>
      snapshotMessages conv ≠ [] ∧ ∃ c, conv = Some c ∧ isNewConversation c s = true
  | AppendChild k =>
      k ∈ msgId <$> snapshotMessages conv ∧
      (k ∉ map_keys (currentMessages s)
       ∨ (∃ c, conv = Some c ∧ isNewConversation c s = true))
  | SetTextContent k t =>
      ∃ m, m ∈ snapshotMessages conv ∧ msgId m = k ∧ contentOrEmpty m = t
  | RemoveElement k =>
      (k ∉ msgId <$> snapshotMessages conv) ∧ k ∈ map_keys (currentMessages s)
  | ScrollToBottom => autoScroll s = true
  end.
Proof.
  intros Hwf Hu He. destruct (snapshot_cases conv) as [Hemp|(c & -> & Hm & Hne)].
  { rewrite (update_empty conv s Hemp) in Hu. simplify_eq.
    apply list_elem_of_singleton in He. subst e. by left. }
  destruct (update_phases c _ s Hwf Hm Hne) as (s2 & ev' & Hu2 & Hph).
  rewrite Hu in Hu2. simplify_eq.
  destruct Hph as (s0 & ev0 & s1 & ev1 & ev2 & Hr & Hwf0 & Hf & Hwf1 & Hmg
                   & Hc & Hwf2 & Hsw & ->).
  set (msgs := snapshotMessages (Some c)) in *.
  assert (autoScroll s0 = autoScroll s ∧
          (isNewConversation c s = false → s0 = s ∧ ev0 = []) ∧
          (isNewConversation c s = true → currentMessages s0 = [])) as (Hauto & Hold & Hnew).
  { destruct (isNewConversation c s) eqn:E.
    - rewrite (resetFor_new c s E) in Hr. simplify_eq. by repeat split.
    - rewrite (resetFor_same c s E) in Hr. simplify_eq. by repeat split. }
  apply elem_of_app in He as [He|He]; [|apply elem_of_app in He as [He|He]].
  - destruct (isNewConversation c s) eqn:E.
    + rewrite (resetFor_new c s E) in Hr. simplify_eq.
      assert (e = SetInnerHTML "" ∨ ∃ key v, e = SetItem key v) as [->|(key & v & ->)].
      { repeat (apply elem_of_cons in He as [->|He]; [eauto|]).
        by apply elem_of_nil in He. }
      * right. split; [done|]. by exists c.
      * split; [done|]. by exists c.
    + destruct (Hold eq_refl) as [_ ->]. by apply elem_of_nil in He.
  - destruct (forEachMsg_log _ _ _ _ _ Hwf0 Hf He)
      as [(m & Hin & -> & Hn)|[(m & Hin & ->)|[-> Ha]]].
    + split; [by apply list_elem_of_fmap_2|].
      destruct (isNewConversation c s) eqn:E.
      * right. by exists c.
      * left. by destruct (Hold eq_refl) as [<- _].
    + by exists m.
    + by rewrite <- Hauto.
  - destruct (removeAll_log _ _ _ _ _ Hc He) as (k & Hk & ->).
    apply elem_of_toRemove in Hk as [Hk1 Hk2]. split; [done|].
    apply (merged_keys _ _ _ Hmg) in Hk1 as [Hk1|Hk1]; [|done].
    destruct (isNewConversation c s) eqn:E.
    + rewrite (Hnew eq_refl) in Hk1. by apply elem_of_nil in Hk1.
    + by destruct (Hold eq_refl) as [<- _].
Qed.

(** X5.  A call never scrolls the container while the user has scrolled
    away from its bottom, and it writes to [localStorage] only when the
    snapshot carries messages and names a conversation other than the
    remembered one.  The markup of the container is replaced as a whole only
    by the placeholder, on a snapshot without messages, or by the empty
    string, on such a switch of conversation. *)
Theorem scroll_and_storage_writes conv s :
  wf s →
  ∃ s' ev, updateCurrentConversation conv s = Some (s', ev) ∧
    autoScroll s' = autoScroll s ∧
    (autoScroll s = false → ScrollToBottom ∉ ev) ∧
    (∀ key v, SetItem key v ∈ ev →
       snapshotMessages conv ≠ [] ∧
       ∃ c, conv = Some c ∧ isNewConversation c s = true) ∧
    (∀ h, SetInnerHTML h ∈ ev →
       (h = placeholder ∧ snapshotMessages conv = []) ∨
       (h = "" ∧ ∃ c, conv = Some c ∧ isNewConversation c s = true)).
Proof.
  intros Hwf. destruct (update_total conv s Hwf) as (s' & ev & Hu & Hwf').
  exists s', ev. split; [done|]. split.
  { destruct (snapshot_cases conv) as [Hemp|(c & -> & Hm & Hne)].
    - rewrite (update_empty conv s Hemp) in Hu. by simplify_eq.
    - destruct (update_phases c _ s Hwf Hm Hne) as (s2 & ev' & Hu2 & Hph).
      rewrite Hu in Hu2. simplify_eq.
      destruct Hph as (s0 & ev0 & s1 & ev1 & ev2 & Hr & Hwf0 & Hf & Hwf1 & Hmg
                       & Hc & Hwf2 & Hsw & ->).
      rewrite (swept_scroll _ _ _ Hsw).
      destruct (merged_cache _ _ _ Hmg) as (_ & _ & -> & _).
      unfold resetFor in Hr. destruct (isNewConversation c s); by simplify_eq. }
  split; [|split].
  - intros Hoff Hin. pose proof (update_log _ _ _ _ _ Hwf Hu Hin) as H.
    cbn in H. congruence.
  - intros key v Hin. exact (update_log _ _ _ _ _ Hwf Hu Hin).
  - intros h Hin. exact (update_log _ _ _ _ _ Hwf Hu Hin).
Qed.

(** X6.  Every element a call appends belongs to a message of the snapshot
    whose key was not stored (or the call switched to another conversation);
    every text it writes into an existing element is the content of a message
    of the snapshot with the element's key; every element it removes was
    stored under a key that no message of the snapshot has. *)
Theorem element_writes_are_licensed conv s :
  wf s →
  ∃ s' ev, updateCurrentConversation conv s = Some (s', ev) ∧
    (∀ k, AppendChild k ∈ ev →
       k ∈ msgId <$> snapshotMessages conv ∧
       (k ∉ map_keys (currentMessages s)
        ∨ (∃ c, conv = Some c ∧ isNewConversation c s = true))) ∧
    (∀ k t, SetTextContent k t ∈ ev →
       ∃ m, m ∈ snapshotMessages conv ∧ msgId m = k ∧ contentOrEmpty m = t) ∧
    (∀ k, RemoveElement k ∈ ev →
       (k ∉ msgId <$> snapshotMessages conv) ∧ k ∈ map_keys (currentMessages s)).
Proof.
  intros Hwf. destruct (update_total conv s Hwf) as (s' & ev & Hu & Hwf').
  exists s', ev. split; [done|]. split; [|split].
  - intros k Hin. exact (update_log _ _ _ _ _ Hwf Hu Hin).
  - intros k t Hin. exact (update_log _ _ _ _ _ Hwf Hu Hin).
  - intros k Hin. exact (update_log _ _ _ _ _ Hwf Hu Hin).
Qed.

(** *** After an empty snapshot *)

(** X7.  A snapshot without messages replaces the container's content by
    the placeholder and forgets the stored messages, but not the remembered
    conversation id.  When the next snapshot is of the remembered
    conversation, its messages (with pairwise distinct keys) are rendered
    anew, each with the content the snapshot gives, below the placeholder,
    which stays in the container. *)
Theorem placeholder_stays_after_empty_snapshot conv0 s i msgs :
  snapshotMessages conv0 = [] →
  currentConversationId s = Some i → msgs ≠ [] → NoDup (msgId <$> msgs) →
  ∃ s1 s2 ev2,
    updateCurrentConversation conv0 s = Some (s1, [SetInnerHTML placeholder]) ∧
    dom s1 = [Static placeholder] ∧ currentMessages s1 = [] ∧
    currentConversationId s1 = Some i ∧ localStorage s1 = localStorage s ∧
    updateCurrentConversation (conversation i msgs) s1 = Some (s2, ev2) ∧
    dom s2 = Static placeholder :: (MsgNode ∘ newMsgDiv <$> msgs) ∧
    currentMessages s2 = ((λ m, (msgId m, m)) <$> msgs) ∧
    (∀ h, SetInnerHTML h ∉ ev2).
Proof.
  intros Hemp Hid Hne Hnd. exists (awaiting s).
  assert (wf (awaiting s)) as Hwf by apply wf_awaiting.
  set (c := mkConversation (Some i) (Some msgs)).
  assert (isNewConversation c (awaiting s) = false) as Hsame.
  { apply isNewConversation_recorded. by cbn. }
  assert (∃ s2 ev2, updateCurrentConversation (conversation i msgs) (awaiting s)
                    = Some (s2, ev2) ∧
            dom s2 = Static placeholder :: (MsgNode ∘ newMsgDiv <$> msgs) ∧
            currentMessages s2 = ((λ m, (msgId m, m)) <$> msgs))
    as (s2 & ev2 & Hu & Hdom & Hmap).
  { unfold conversation. fold c. rewrite (update_nonempty c msgs _ eq_refl Hne).
    unfold andThen. rewrite (resetFor_same c _ Hsame).
    destruct (forEachMsg_fresh msgs (awaiting s) Hnd) as (ev1 & Hf).
    { intros m _ Hin. by apply elem_of_nil in Hin. }
    rewrite Hf. unfold cleanUp.
    assert (∀ s1, currentMessages s1 = ((λ m, (msgId m, m)) <$> msgs) →
                  toRemove msgs s1 = []) as Hnone.
    { intros s1 Hcm. unfold toRemove. apply filter_none. intros k Hk Hk'.
      apply Hk'. unfold validMsgIds. rewrite elem_of_list_to_set.
      rewrite Hcm in Hk. by rewrite map_keys_entries in Hk. }
    rewrite Hnone by done. rewrite removeAll_nil.
    eexists _, _. split; [done|]. by split. }
  exists s2, ev2. split; [by apply update_empty|].
  split; [done|]. split; [done|]. split; [done|]. split; [done|].
  split; [done|]. split; [done|]. split; [done|].
  intros h Hin. pose proof (update_log _ _ _ _ _ Hwf Hu Hin) as H. cbn in H.
  destruct H as [[_ H]|[_ (c' & Hc' & Hnew)]].
  - by destruct msgs.
  - unfold conversation in Hc'. simplify_eq. fold c in Hnew. congruence.
Qed.

(** *** Instances *)

(** X2 on the store that shows Hello, for a snapshot with a longer text. *)
Lemma snapshot_is_rendered_witness :
  ∃ s' ev,
    updateCurrentConversation (conversation "c1" [ego_hello_world]) showing_hello
    = Some (s', ev) ∧
    NoDup (node_ids (dom s')) ∧
    (length (node_ids (dom s'))
     ≤ length (snapshotMessages (conversation "c1" [ego_hello_world])))%nat ∧
    ∀ m, m ∈ snapshotMessages (conversation "c1" [ego_hello_world]) →
      ∃ e, getElementById (msgId m) (dom s') = Some e ∧
           elem_id e = msgId m ∧
           (NoDup (msgId <$> snapshotMessages (conversation "c1" [ego_hello_world])) →
            msg_content e = contentOrEmpty m ∨
            (String.length (contentOrEmpty m) < String.length (msg_content e))%nat).
Proof.
  apply (snapshot_is_rendered (conversation "c1" [ego_hello_world]) showing_hello).
  by_evaluation.
Defined.

(** X3 on a store with two elements: the note leaves, Hello stays, and the
    observer's message comes last. *)
Lemma order_is_stable_witness :
  ∃ s' ev fresh,
    updateCurrentConversation (conversation "c1" [observer_hi; ego_hello]) showing_two
    = Some (s', ev) ∧
    node_ids (dom s')
    = filter (λ k, k ∈ msgId <$> snapshotMessages
                         (conversation "c1" [observer_hi; ego_hello]))
             (node_ids (dom showing_two)) ++ fresh ∧
    (∀ k, k ∈ fresh → k ∉ node_ids (dom showing_two)).
Proof.
  apply (order_is_stable (conversation "c1" [observer_hi; ego_hello]) showing_two).
  - by_evaluation.
  - intros c [= <-]. reflexivity.
Defined.

(** X4 on the store that shows Hello, for a snapshot with a longer text. *)
Lemma text_after_call_witness :
  ∃ s' ev,
    updateCurrentConversation (conversation "c1" [ego_hello_world]) showing_hello
    = Some (s', ev) ∧
    rendered "EGO-1000" s'
    = textAfter (rendered "EGO-1000" showing_hello)
        (keyTexts "EGO-1000" (snapshotMessages (conversation "c1" [ego_hello_world]))) ∧
    (∀ old t, rendered "EGO-1000" showing_hello = Some old →
       keyTexts "EGO-1000" (snapshotMessages (conversation "c1" [ego_hello_world]))
       = [t] →
       rendered "EGO-1000" s'
       = Some (if decide (String.length old ≤ String.length t)%nat then t else old)).
Proof.
  apply (text_after_call (conversation "c1" [ego_hello_world]) showing_hello "EGO-1000").
  - by_evaluation.
  - intros c [= <-]. reflexivity.
  - by_evaluation.
Defined.

(** X5 on a store whose user has scrolled up. *)
Lemma scroll_and_storage_writes_witness :
  ∃ s' ev,
    updateCurrentConversation (conversation "c1" [observer_hi; ego_hello_world])
                              showing_two = Some (s', ev) ∧
    autoScroll s' = autoScroll showing_two ∧
    (autoScroll showing_two = false → ScrollToBottom ∉ ev) ∧
    (∀ key v, SetItem key v ∈ ev →
       snapshotMessages (conversation "c1" [observer_hi; ego_hello_world]) ≠ [] ∧
       ∃ c, conversation "c1" [observer_hi; ego_hello_world] = Some c
            ∧ isNewConversation c showing_two = true) ∧
    (∀ h, SetInnerHTML h ∈ ev →
       (h = placeholder
        ∧ snapshotMessages (conversation "c1" [observer_hi; ego_hello_world]) = []) ∨
       (h = "" ∧ ∃ c, conversation "c1" [observer_hi; ego_hello_world] = Some c
                      ∧ isNewConversation c showing_two = true)).
Proof.
  apply (scroll_and_storage_writes
           (conversation "c1" [observer_hi; ego_hello_world]) showing_two).
  by_evaluation.
Defined.

(** X6 on the same call: one element appended, one text written, one
    element removed. *)
Lemma element_writes_are_licensed_witness :
  ∃ s' ev,
    updateCurrentConversation (conversation "c1" [observer_hi; ego_hello_world])
                              showing_two = Some (s', ev) ∧
    (∀ k, AppendChild k ∈ ev →
       k ∈ msgId <$> snapshotMessages (conversation "c1" [observer_hi; ego_hello_world]) ∧
       (k ∉ map_keys (currentMessages showing_two)
        ∨ (∃ c, conversation "c1" [observer_hi; ego_hello_world] = Some c
                ∧ isNewConversation c showing_two = true))) ∧
    (∀ k t, SetTextContent k t ∈ ev →
       ∃ m, m ∈ snapshotMessages (conversation "c1" [observer_hi; ego_hello_world])
            ∧ msgId m = k ∧ contentOrEmpty m = t) ∧
    (∀ k, RemoveElement k ∈ ev →
       (k ∉ msgId <$> snapshotMessages (conversation "c1" [observer_hi; ego_hello_world])) ∧
       k ∈ map_keys (currentMessages showing_two)).
Proof.
  apply (element_writes_are_licensed
           (conversation "c1" [observer_hi; ego_hello_world]) showing_two).
  by_evaluation.
Defined.

(** X7 on the store that shows Hello: an absent conversation, then c1 again. *)
Lemma placeholder_stays_after_empty_snapshot_witness :
  ∃ s1 s2 ev2,
    updateCurrentConversation None showing_hello
    = Some (s1, [SetInnerHTML placeholder]) ∧
    dom s1 = [Static placeholder] ∧ currentMessages s1 = [] ∧
    currentConversationId s1 = Some "c1" ∧
    localStorage s1 = localStorage showing_hello ∧
    updateCurrentConversation (conversation "c1" [ego_hi]) s1 = Some (s2, ev2) ∧
    dom s2 = Static placeholder :: (MsgNode ∘ newMsgDiv <$> [ego_hi]) ∧
    currentMessages s2 = ((λ m, (msgId m, m)) <$> [ego_hi]) ∧
    (∀ h, SetInnerHTML h ∉ ev2).
Proof.
  apply (placeholder_stays_after_empty_snapshot None showing_hello "c1" [ego_hi]).
  - reflexivity.
  - reflexivity.
  - done.
  - by_evaluation.
Defined.

End ReconcilerProofs.

(** ** Properties of the ASCII animator *)

Module AnimatorProofs.

Import Animator.

Local Open Scope nat_scope.

(** *** Start and stop *)

Lemma lines_new asciiArt : lines (new_ASCIIAnimator asciiArt) = paddedLines asciiArt.
Proof. reflexivity. Qed.

Lemma paddedLines_trimmed asciiArt :
  paddedLines asciiArt = sourceRowsPadded (trimmed asciiArt).
Proof.
  unfold paddedLines, sourceRowsPadded, trimmed.
  by rewrite list_ascii_of_string_of_list_ascii.
Qed.

Lemma artText_displayFrame ls p shown :
  artText p = Some shown → artText (displayFrame ls p) = Some (joinLines ls).
Proof. intros H. unfold displayFrame. cbn. by rewrite H. Qed.

Lemma artText_displayFrame_is_Some ls p :
  is_Some (artText (displayFrame ls p)) ↔ is_Some (artText p).
Proof. unfold displayFrame. cbn. destruct (artText p); split; intros [? ?]; eauto. Qed.

Lemma stopAnimation_spec p :
  oneLoop p →
  lines (animator (stopAnimation p)) = lines (animator p) ∧
  pending (stopAnimation p) = [] ∧
  animationId (animator (stopAnimation p)) = None ∧
  currentAnimation (animator (stopAnimation p)) = None ∧
  (∀ shown, artText p = Some shown →
     artText (stopAnimation p) = Some (joinLines (lines (animator p)))) ∧
  (is_Some (artText (stopAnimation p)) ↔ is_Some (artText p)) ∧
  nextHandle (stopAnimation p) = nextHandle p.
Proof.
  unfold oneLoop, stopAnimation. destruct (animationId (animator p)) as [h|].
  - intros [start Hp]. cbn. rewrite Hp.
    rewrite filter_cons_False by (intros Hc; by apply Hc). rewrite filter_nil.
    repeat split; try done.
    + intros shown ->. done.
    + destruct (artText p); intros [? ?]; eauto.
    + destruct (artText p); intros [? ?]; eauto.
  - intros Hp. cbn. repeat split; try done.
    + intros shown ->. done.
    + destruct (artText p); intros [? ?]; eauto.
    + destruct (artText p); intros [? ?]; eauto.
Qed.

Lemma session_stop asciiArt elem p :
  session asciiArt elem p → session asciiArt elem (stopAnimation p).
Proof.
  intros (Hl & Ho & He).
  destruct (stopAnimation_spec p Ho) as (H1 & H2 & H3 & _ & _ & H6 & _).
  split; [by rewrite H1|]. split; [|by rewrite H6].
  unfold oneLoop. by rewrite H3.
Qed.

Lemma session_frame sin random round asciiArt elem start now p :
  lines (animator p) = paddedLines asciiArt → pending p = [] →
  (is_Some (artText p) ↔ is_Some elem) →
  session asciiArt elem (frame sin random round start now p).
Proof.
  intros Hl Hp He. unfold frame.
  destruct (match currentAnimation (animator p) with
            | Some name => _ | None => _ end) as [animated calls].
  split; [done|]. split.
  - unfold oneLoop. cbn. rewrite Hp. eauto.
  - cbn. rewrite <- He. destruct (artText p); split; intros [? ?]; eauto.
Qed.

Lemma session_start sin random round asciiArt elem ty start now p :
  session asciiArt elem p →
  session asciiArt elem (startAnimation sin random round ty start now p).
Proof.
  intros Hs. pose proof (session_stop _ _ _ Hs) as (Hl & Ho & He).
  destruct Hs as (_ & Ho0 & _).
  destruct (stopAnimation_spec p Ho0) as (_ & Hp & Hid & _).
  unfold startAnimation, animate. cbn [animator currentAnimation].
  destruct (decide (ty = "")).
  - split; [done|]. split; [|done]. unfold oneLoop.
    cbn [animator animationId pending]. by rewrite Hid.
  - by apply session_frame.
Qed.

Lemma session_run sin random round asciiArt elem h now p :
  session asciiArt elem p →
  session asciiArt elem (runCallback sin random round h now p).
Proof.
  intros (Hl & Ho & He). unfold runCallback.
  destruct (list_find _ _) as [[i [h' start]]|] eqn:E; [|done].
  apply session_frame; [done| |done]. cbn.
  apply list_find_Some in E as (Hi & Hh & _). cbn in Hh. subst h'.
  unfold oneLoop in Ho. destruct (animationId (animator p)) as [h0|].
  - destruct Ho as [st Hp]. rewrite Hp in Hi |- *.
    destruct i; cbn in Hi; [|done]. simplify_eq.
    rewrite filter_cons_False by (intros Hc; by apply Hc). done.
  - by rewrite Ho.
Qed.

Lemma session_load asciiArt elem : session asciiArt elem (loadPage asciiArt elem).
Proof.
  split; [done|]. split; [done|]. unfold loadPage. apply artText_displayFrame_is_Some.
Qed.

Lemma reachable_session sin random round asciiArt elem p :
  reachable sin random round asciiArt elem p → session asciiArt elem p.
Proof.
  induction 1; eauto using session_load, session_start, session_stop, session_run.
Qed.

Lemma runCallback_idle sin random round h now p :
  pending p = [] → runCallback sin random round h now p = p.
Proof. intros Hp. unfold runCallback. by rewrite Hp. Qed.

(** C9 (as amended).  In every page a session can reach (art element
    present), [stopAnimation] cancels the loop: no frame callback stays
    pending, so none can run any more, and the handle and the effect name are
    forgotten.  It shows the base grid of the constructor, which is the
    padded grid of the trimmed art: the rows of [asciiArt.trim()], each
    right-padded with spaces to the common width, joined by newlines.  In
    particular this is the page after [startAnimation] of wave followed at
    once by [stopAnimation], whatever the two clock readings of the start.
    The rows shown are the padded rows of the source art itself when
    trimming leaves the art as it is. *)
Theorem stop_restores_base_grid sin random round asciiArt shown p start now :
  reachable sin random round asciiArt (Some shown) p →
  let stopped := stopAnimation p in
  let p' := stopAnimation (startAnimation sin random round "wave" start now p) in
  let grid := sourceRowsPadded (trimmed asciiArt) in
  (artText stopped = Some (joinLines grid) ∧
   pending stopped = [] ∧
   (∀ h t, runCallback sin random round h t stopped = stopped) ∧
   animationId (animator stopped) = None ∧
   currentAnimation (animator stopped) = None) ∧
  (artText p' = Some (joinLines grid) ∧
   pending p' = [] ∧
   (∀ h t, runCallback sin random round h t p' = p') ∧
   animationId (animator p') = None ∧
   currentAnimation (animator p') = None ∧
   lines (animator p') = grid) ∧
  (trimmed asciiArt = asciiArt →
   artText stopped = Some (joinLines (sourceRowsPadded asciiArt)) ∧
   artText p' = Some (joinLines (sourceRowsPadded asciiArt))).
Proof.
  intros Hr.
  assert (∀ q, reachable sin random round asciiArt (Some shown) q →
            artText (stopAnimation q) = Some (joinLines (paddedLines asciiArt)) ∧
            pending (stopAnimation q) = [] ∧
            (∀ h t, runCallback sin random round h t (stopAnimation q) = stopAnimation q) ∧
            animationId (animator (stopAnimation q)) = None ∧
            currentAnimation (animator (stopAnimation q)) = None ∧
            lines (animator (stopAnimation q)) = paddedLines asciiArt) as Hstop.
  { intros q Hq. destruct (reachable_session _ _ _ _ _ _ Hq) as (Hl & Ho & He).
    destruct (stopAnimation_spec q Ho) as (H1 & H2 & H3 & H4 & H5 & _).
    destruct (proj2 He) as [t Ht]; [eauto|].
    rewrite (H5 t Ht), Hl, H1. repeat split; try done.
    intros h t'. by apply runCallback_idle. }
  cbv zeta. rewrite <- paddedLines_trimmed.
  destruct (Hstop p Hr) as (G1 & G2 & G3 & G4 & G5 & _).
  destruct (Hstop (startAnimation sin random round "wave" start now p)) as (K1 & K2);
    [by constructor|].
  split; [done|]. split; [done|].
  intros Ht. rewrite <- Ht, <- paddedLines_trimmed. done.
Qed.

(** *** Lengths of shifted rows *)

Lemma length_blanks n : length (blanks n) = Z.to_nat n.
Proof. apply length_replicate. Qed.

Lemma length_slice_end s k :
  (0 < k)%Z → length (slice s 0 (- k)) = length s - Z.to_nat k.
Proof.
  intros Hk. unfold slice, sliceIndex.
  replace (0 <? 0)%Z with false by done.
  replace (- k <? 0)%Z with true by (symmetry; apply Z.ltb_lt; lia).
  rewrite length_take, length_drop. lia.
Qed.

Lemma length_sliceFrom s k :
  (0 ≤ k)%Z → length (sliceFrom s k) = length s - Z.to_nat k.
Proof.
  intros Hk. unfold sliceFrom, sliceIndex.
  replace (k <? 0)%Z with false by (symmetry; apply Z.ltb_ge; lia).
  rewrite length_drop. lia.
Qed.

Lemma length_shiftRow offset line :
  length (shiftRow offset line) = length line `max` Z.to_nat (Z.abs offset).
Proof.
  unfold shiftRow. destruct (0 <? offset)%Z eqn:Hpos.
  - apply Z.ltb_lt in Hpos.
    rewrite length_app, length_blanks, length_slice_end by done. lia.
  - apply Z.ltb_ge in Hpos. destruct (offset <? 0)%Z eqn:Hneg.
    + apply Z.ltb_lt in Hneg.
      rewrite length_app, length_blanks, length_sliceFrom by lia. lia.
    + apply Z.ltb_ge in Hneg. lia.
Qed.

(** Both ways of writing the shift give the same row. *)
Lemma shiftRowElse_shiftRow offset line :
  shiftRowElse offset line = shiftRow offset line.
Proof.
  unfold shiftRowElse, shiftRow. destruct (0 <? offset)%Z eqn:Hpos; [done|].
  destruct (offset <? 0)%Z eqn:Hneg; [done|].
  apply Z.ltb_ge in Hpos, Hneg. replace offset with 0%Z by lia.
  cbn. unfold sliceFrom, sliceIndex. cbn. apply app_nil_r.
Qed.

Lemma length_shiftRow_fits offset line w :
  length line = w → Z.to_nat (Z.abs offset) ≤ w →
  length (shiftRow offset line) = w.
Proof. intros Hl Ho. rewrite length_shiftRow. lia. Qed.

(** *** The grid of a new animator *)

Lemma length_padEnd n s : length s ≤ n → length (padEnd n s) = n.
Proof. intros H. unfold padEnd. rewrite length_app, length_replicate. lia. Qed.

Lemma gridShape_new asciiArt : gridShape (new_ASCIIAnimator asciiArt).
Proof.
  unfold gridShape, new_ASCIIAnimator. cbn [lines height width]. split.
  - apply length_fmap.
  - apply Forall_fmap, Forall_forall. intros l Hl. cbn.
    apply length_padEnd, max_list_elem_of_le. by apply list_elem_of_fmap_2.
Qed.

(** *** Loops over rows and characters *)

Lemma forRows_cons {A} (body : A → Rand (list Row)) x xs n :
  forRows body (x :: xs) n
  = ((body x n).1 ++ (forRows body xs (body x n).2).1,
     (forRows body xs (body x n).2).2).
Proof.
  cbn [forRows]. unfold bind, ret.
  destruct (body x n) as [out n']. cbn. by destruct (forRows body xs n').
Qed.

Lemma forChars_cons (body : ascii → Rand Row) c r n :
  forChars body (c :: r) n
  = ((body c n).1 ++ (forChars body r (body c n).2).1,
     (forChars body r (body c n).2).2).
Proof.
  cbn [forChars]. unfold bind, ret.
  destruct (body c n) as [out n']. cbn. by destruct (forChars body r n').
Qed.

(** A body that pushes exactly one row per line. *)
Lemma forRows_each {A} (R : A → Row → Prop) (body : A → Rand (list Row)) xs n :
  (∀ x m, x ∈ xs → ∃ r, (body x m).1 = [r] ∧ R x r) →
  Forall2 R xs (forRows body xs n).1.
Proof.
  revert n. induction xs as [|x xs IH]; intros n Hb; [constructor|].
  rewrite forRows_cons. cbn [fst].
  destruct (Hb x n) as (r & -> & Hr); [left|].
  constructor; [done|]. apply IH. intros y m Hy. apply Hb. by right.
Qed.

(** A body that pushes at most one row per line. *)
Lemma forRows_at_most {A} (body : A → Rand (list Row)) xs n :
  (∀ x m, length (body x m).1 ≤ 1) →
  length (forRows body xs n).1 ≤ length xs.
Proof.
  intros Hb. revert n. induction xs as [|x xs IH]; intros n; [done|].
  rewrite forRows_cons. cbn [fst length]. rewrite length_app.
  specialize (Hb x n). specialize (IH (body x n).2). lia.
Qed.

(** A body that appends exactly one character per character. *)
Lemma forChars_each (body : ascii → Rand Row) line n :
  (∀ c m, length (body c m).1 = 1) →
  length (forChars body line n).1 = length line.
Proof.
  intros Hb. revert n. induction line as [|c r IH]; intros n; [done|].
  rewrite forChars_cons. cbn [fst length]. rewrite length_app, Hb, IH. done.
Qed.

(** A body that appends one or two characters per character. *)
Lemma forChars_at_least (body : ascii → Rand Row) line n :
  (∀ c m, 1 ≤ length (body c m).1) →
  length line ≤ length (forChars body line n).1.
Proof.
  intros Hb. revert n. induction line as [|c r IH]; intros n; [done|].
  rewrite forChars_cons. cbn [fst length]. rewrite length_app.
  specialize (Hb c n). specialize (IH (body c n).2). lia.
Qed.

Lemma Forall2_widths {A} (w : nat) (xs : list A) (rows : list Row) :
  Forall2 (λ _ r, length r = w) xs rows → Forall (λ r, length r = w) rows.
Proof. induction 1; constructor; done. Qed.

(** Rows that each keep the length of their line keep the shape of the grid. *)
Lemma rows_keep_shape (ls rows : list Row) (w h : nat) :
  length ls = h → Forall (λ r, length r = w) ls →
  Forall2 (λ line r, length r = length line) ls rows →
  length rows = h ∧ Forall (λ r, length r = w) rows.
Proof.
  intros Hh Hw H. revert h Hh Hw.
  induction H as [|l r ls rs Hlr _ IH]; intros h Hh Hw; [by split|].
  apply Forall_cons in Hw as [Hl Hw].
  destruct (IH (length ls) eq_refl Hw) as [IH1 IH2]. split.
  - rewrite <- Hh. cbn [length]. by rewrite IH1.
  - constructor; [congruence|done].
Qed.

(** *** Bounds on the drawn and computed offsets *)

Lemma Qfloor_between (x : Q) (lo hi : Z) :
  (inject_Z lo <= x)%Q → (x < inject_Z hi)%Q → (lo ≤ Qfloor x < hi)%Z.
Proof.
  intros Hlo Hhi. split.
  - rewrite <- (Qfloor_Z lo). by apply Qfloor_resp_le.
  - rewrite Zlt_Qlt. eapply Qle_lt_trans; [apply Qfloor_le|done].
Qed.

Lemma Qfloor_within (x : Q) (lo hi : Z) :
  (inject_Z lo <= x)%Q → (x <= inject_Z hi)%Q → (lo ≤ Qfloor x ≤ hi)%Z.
Proof.
  intros Hlo Hhi. split.
  - rewrite <- (Qfloor_Z lo). by apply Qfloor_resp_le.
  - rewrite <- (Qfloor_Z hi). by apply Qfloor_resp_le.
Qed.


Lemma scaled_draw (r : Q) (k : Z) :
  (0 < k)%Z → (0 <= r)%Q → (r < 1)%Q →
  (0 ≤ Qfloor (r * inject_Z k) < k)%Z.
Proof.
  intros Hk H0 H1. apply Qfloor_between.
  - apply Qmult_le_0_compat; [done|].
    change (inject_Z 0 <= inject_Z k)%Q. rewrite <- Zle_Qle. lia.
  - rewrite <- (Qmult_1_l (inject_Z k)) at 2.
    apply Qmult_lt_compat_r; [|done].
    change (inject_Z 0 < inject_Z k)%Q. rewrite <- Zlt_Qlt. lia.
Qed.

Lemma scaled_sine (v : Q) (k : Z) :
  (0 < k)%Z → (- (1) <= v)%Q → (v <= 1)%Q →
  (- k ≤ Qfloor (v * inject_Z k) ≤ k)%Z.
Proof.
  intros Hk Hlo Hhi.
  assert (inject_Z 0 <= inject_Z k)%Q as Hk' by (rewrite <- Zle_Qle; lia).
  apply Qfloor_within.
  - apply Qle_trans with (- (1) * inject_Z k)%Q; [|by apply Qmult_le_compat_r].
    rewrite inject_Z_opp. apply Qle_lteq. right. ring.
  - rewrite <- (Qmult_1_l (inject_Z k)) at 2. by apply Qmult_le_compat_r.
Qed.

(** *** Shape of the frames *)

Lemma bind_run {A B} (m : Rand A) (f : A → Rand B) n :
  bind m f n = f (m n).1 (m n).2.
Proof. unfold bind. by destruct (m n). Qed.

Lemma Forall_imap_rows (f : nat → Row → Row) (P : Row → Prop) (ls : list Row) :
  (∀ i l, ls !! i = Some l → P (f i l)) → Forall P (imap f ls).
Proof.
  intros H. apply Forall_lookup. intros i r Hi.
  rewrite list_lookup_imap in Hi.
  destruct (ls !! i) as [l|] eqn:E; cbn in Hi; [|done].
  simplify_eq. by apply H.
Qed.

Section Shapes.

Variable sin : Q → Q.
Variable random : nat → Q.
Variable a : ASCIIAnimator.
Variable frame : Z.

Hypothesis grid : gridShape a.

Lemma line_width l : l ∈ lines a → length l = width a.
Proof. intros Hl. destruct grid as [_ Hw]. by eapply Forall_forall in Hw. Qed.

Lemma wave_height : length (waveEffect sin a frame) = height a.
Proof. unfold waveEffect. rewrite length_imap. apply grid. Qed.

Lemma waveOffset_bounds y :
  (∀ x, (- (1) <= sin x)%Q ∧ (sin x <= 1)%Q) →
  (-4 ≤ waveOffset sin y frame ≤ 4)%Z.
Proof. intros Hs. unfold waveOffset. apply (scaled_sine _ 4); [lia|apply Hs..]. Qed.

Lemma wave_widths :
  (∀ x, (- (1) <= sin x)%Q ∧ (sin x <= 1)%Q) → 4 ≤ width a →
  Forall (λ r, length r = width a) (waveEffect sin a frame).
Proof.
  intros Hs Hw. apply Forall_imap_rows. intros y l Hl.
  apply length_shiftRow_fits.
  - apply line_width. by eapply list_elem_of_lookup_2.
  - pose proof (waveOffset_bounds y Hs). lia.
Qed.

Lemma blink_height : length (blinkEffect a frame) = height a.
Proof. unfold blinkEffect. rewrite length_fmap. apply grid. Qed.

Lemma blink_widths : Forall (λ r, length r = width a) (blinkEffect a frame).
Proof.
  unfold blinkEffect. apply Forall_fmap, Forall_forall. intros l Hl. cbn.
  rewrite length_fmap. by apply line_width.
Qed.

Lemma bounce_height : length (bounceEffect sin a frame) ≤ height a.
Proof. unfold bounceEffect. rewrite length_take. lia. Qed.

Lemma shake_run n :
  shakeEffect random a frame n
  = (take (height a)
       ((if (0 <? shakeY (random (S n)))%Z
         then replicate (Z.to_nat (shakeY (random (S n)))) (blankRow a) else [])
        ++ (shiftRow (shakeX (random n)) <$> lines a)),
     S (S n)).
Proof. reflexivity. Qed.

Lemma shake_height n : length (shakeEffect random a frame n).1 ≤ height a.
Proof. rewrite shake_run. cbn [fst]. rewrite length_take. lia. Qed.

Lemma dance_height n :
  length (danceEffect sin random a frame n).1 ≤ height a.
Proof.
  unfold danceEffect. destruct (_ =? 0)%Z.
  - cbn. rewrite length_fmap. by rewrite (proj1 grid).
  - destruct (_ =? 1)%Z; [apply bounce_height|].
    destruct (_ =? 2)%Z; [cbn; by rewrite wave_height|apply shake_height].
Qed.

Lemma matrix_rows n :
  Forall2 (λ line r, length r = length line) (lines a)
          (matrixEffect random a frame n).1.
Proof.
  unfold matrixEffect. apply forRows_each. intros line m _.
  rewrite bind_run. eexists. split; [reflexivity|].
  apply forChars_each. intros c k.
  destruct (decide (c = space)); [done|].
  rewrite bind_run. cbn [nextRandom fst snd].
  destruct (Qltb _ _); [|done]. by rewrite bind_run.
Qed.

Lemma matrix_height n : length (matrixEffect random a frame n).1 = height a.
Proof. by apply (rows_keep_shape (lines a) _ (width a)); [apply grid..|apply matrix_rows]. Qed.

Lemma matrix_widths n :
  Forall (λ r, length r = width a) (matrixEffect random a frame n).1.
Proof. by apply (rows_keep_shape (lines a) _ _ (height a)); [apply grid..|apply matrix_rows]. Qed.

Lemma glitch_rows n :
  (∀ i, (0 <= random i)%Q ∧ (random i < 1)%Q) → 5 ≤ width a →
  Forall2 (λ line r, length r = length line) (lines a)
          (glitchEffect random a frame n).1.
Proof.
  intros Hr Hw. unfold glitchEffect. rewrite bind_run.
  apply forRows_each. intros line m Hline.
  rewrite bind_run. cbn [nextRandom fst snd].
  destruct (Qltb (random m) _); [|by eexists].
  rewrite bind_run. cbn [nextRandom fst snd].
  destruct (Qltb (random (S m)) _).
  - rewrite bind_run. cbn [nextRandom fst snd ret].
    eexists. split; [reflexivity|].
    rewrite shiftRowElse_shiftRow. apply length_shiftRow_fits; [done|].
    rewrite (line_width line Hline).
    destruct (Hr (S (S m))) as [H0 H1].
    assert (0 ≤ Qfloor (random (S (S m)) * 11) < 11)%Z
      by exact (scaled_draw _ 11 eq_refl H0 H1).
    lia.
  - rewrite bind_run. eexists. split; [reflexivity|].
    apply forChars_each. intros c k.
    destruct (decide (c = space)); [done|].
    rewrite bind_run. cbn [nextRandom fst snd].
    destruct (Qltb _ _); [|done]. rewrite bind_run. cbn [nextRandom fst snd ret].
    destruct (Hr (S k)) as [H0 H1].
    assert (0 ≤ Qfloor (random (S k) * 8) < 8)%Z as Hi
      by exact (scaled_draw _ 8 eq_refl H0 H1).
    destruct (glitchSymbols !! _) as [sym|] eqn:E; [done|].
    apply lookup_ge_None in E. change (length glitchSymbols) with 8 in E. lia.
Qed.

Lemma glitch_height n :
  (∀ i, (0 <= random i)%Q ∧ (random i < 1)%Q) →
  length (glitchEffect random a frame n).1 = height a.
Proof.
  intros Hr. unfold glitchEffect. rewrite bind_run.
  rewrite <- (proj1 grid). symmetry.
  eapply (Forall2_length (λ _ _, True)). apply forRows_each. intros line m _.
  rewrite bind_run. cbn [nextRandom fst snd].
  destruct (Qltb (random m) _); [|by eexists].
  rewrite bind_run. cbn [nextRandom fst snd].
  destruct (Qltb (random (S m)) _); rewrite bind_run; by eexists.
Qed.

Lemma glitch_widths n :
  (∀ i, (0 <= random i)%Q ∧ (random i < 1)%Q) → 5 ≤ width a →
  Forall (λ r, length r = width a) (glitchEffect random a frame n).1.
Proof.
  intros Hr Hw.
  by apply (rows_keep_shape (lines a) _ _ (height a));
    [apply grid..|apply glitch_rows].
Qed.

Lemma pulse_run n :
  ∃ body,
    pulseEffect sin random a frame n
    = ((if Qltb 1 (pulseScale sin frame)
        then replicate (Z.to_nat (pulseEmptyLines sin a frame)) (blankRow a)
        else []) ++ (forRows body (lines a) n).1,
       (forRows body (lines a) n).2) ∧
    (∀ line m, if Qltb 1 (pulseScale sin frame)
               then ∃ r, (body line m).1 = [r] ∧ length r ≤ width a
               else (body line m).1 = [line] ∨ (body line m).1 = []).
Proof.
  eexists. split.
  - unfold pulseEffect. rewrite bind_run. reflexivity.
  - intros line m. cbn beta. destruct (Qltb 1 _).
    + rewrite bind_run. eexists. split; [reflexivity|].
      unfold slice, sliceIndex. rewrite length_take.
      replace (Z.of_nat (width a) <? 0)%Z with false
        by (symmetry; apply Z.ltb_ge; lia).
      replace (0 <? 0)%Z with false by done. lia.
    + rewrite bind_run. cbn [nextRandom fst snd ret].
      destruct (Qltb _ _); eauto.
Qed.

Lemma pulse_height_grow n :
  Qltb 1 (pulseScale sin frame) = true →
  length (pulseEffect sin random a frame n).1
  = Z.to_nat (pulseEmptyLines sin a frame) + height a.
Proof.
  intros Hs. destruct (pulse_run n) as (body & -> & Hb). rewrite Hs in Hb |- *.
  cbn [fst]. rewrite length_app, length_replicate. f_equal.
  rewrite <- (proj1 grid). symmetry.
  eapply (Forall2_length (λ _ r, length r ≤ width a)).
  apply forRows_each. intros line m _. apply Hb.
Qed.

Lemma pulse_height_shrink n :
  Qltb 1 (pulseScale sin frame) = false →
  length (pulseEffect sin random a frame n).1 ≤ height a.
Proof.
  intros Hs. destruct (pulse_run n) as (body & -> & Hb). rewrite Hs in Hb |- *.
  cbn [fst app]. rewrite <- (proj1 grid). apply forRows_at_most.
  intros line m. destruct (Hb line m) as [-> | ->]; cbn; lia.
Qed.

Lemma pulseEmptyLines_bound :
  (∀ x, (sin x <= 1)%Q) →
  (20 * pulseEmptyLines sin a frame ≤ Z.of_nat (height a))%Z.
Proof.
  intros Hs. unfold pulseEmptyLines, pulseScale.
  set (h := Z.of_nat (height a)).
  set (v := sin (inject_Z frame * (1 # 10))).
  assert (Qfloor (inject_Z h * (1 + v * (1 # 10) - 1) / 2)
          ≤ Qfloor (inject_Z h * (1 # 20)))%Z as Hle.
  { apply Qfloor_resp_le.
    assert (inject_Z 0 <= inject_Z h)%Q as Hh by (rewrite <- Zle_Qle; lia).
    specialize (Hs (inject_Z frame * (1 # 10))%Q). fold v in Hs.
    apply Qle_trans with ((v * (1 # 20)) * inject_Z h)%Q.
    - apply Qle_lteq. right. field.
    - apply Qle_trans with ((1 * (1 # 20)) * inject_Z h)%Q.
      + apply Qmult_le_compat_r; [|exact Hh].
        apply Qmult_le_compat_r; [exact Hs|discriminate].
      + apply Qle_lteq. right. ring. }
  assert (Qfloor (inject_Z h * (1 # 20)) = h / 20)%Z as Heq.
  { unfold Qfloor, inject_Z, Qmult. cbn. by rewrite Z.mul_1_r. }
  rewrite Heq in Hle. pose proof (Z.mul_div_le h 20 eq_refl). lia.
Qed.

(** Every branch of the [switch] but pulse yields at most [height] rows. *)
Lemma effectFrame_height name n :
  (∀ i, (0 <= random i)%Q ∧ (random i < 1)%Q) →
  name ≠ "pulse" →
  length (effectFrame sin random name a frame n).1 ≤ height a.
Proof.
  intros Hr Hname. unfold effectFrame.
  repeat (destruct (decide (name = _)); [subst; try done|]);
    cbn [ret fst].
  - by rewrite wave_height.
  - apply bounce_height.
  - apply shake_height.
  - by rewrite glitch_height.
  - apply dance_height.
  - by rewrite matrix_height.
  - by rewrite blink_height.
  - by rewrite (proj1 grid).
Qed.


End Shapes.

(** C5 (as amended).  On the grid of a new animator, for every frame index
    and every sequence of draws: wave, glitch, matrix and blink yield exactly
    [height] rows; bounce, shake and dance, and every branch of the frame
    switch other than pulse, yield at most [height] rows; pulse yields at
    most [height] rows while its scale is at most 1, and otherwise
    [height] plus its blank rows, which are at most a twentieth of
    [height].  The rows of matrix and blink have exactly [width]
    characters; so have the rows of wave when the grid is at least 4 wide
    and the rows of glitch when it is at least 5 wide. *)
Theorem effect_frame_shape sin random asciiArt frame n :
  (∀ x, (- (1) <= sin x)%Q ∧ (sin x <= 1)%Q) →
  (∀ i, (0 <= random i)%Q ∧ (random i < 1)%Q) →
  let a := new_ASCIIAnimator asciiArt in
  (length (waveEffect sin a frame) = height a ∧
   length (glitchEffect random a frame n).1 = height a ∧
   length (matrixEffect random a frame n).1 = height a ∧
   length (blinkEffect a frame) = height a) ∧
  (length (bounceEffect sin a frame) ≤ height a ∧
   length (shakeEffect random a frame n).1 ≤ height a ∧
   length (danceEffect sin random a frame n).1 ≤ height a ∧
   ∀ name, name ≠ "pulse" →
     length (effectFrame sin random name a frame n).1 ≤ height a) ∧
  (if Qltb 1 (pulseScale sin frame)
   then length (pulseEffect sin random a frame n).1
        = Z.to_nat (pulseEmptyLines sin a frame) + height a ∧
        (20 * pulseEmptyLines sin a frame ≤ Z.of_nat (height a))%Z
   else length (pulseEffect sin random a frame n).1 ≤ height a) ∧
  (Forall (λ r, length r = width a) (matrixEffect random a frame n).1 ∧
   Forall (λ r, length r = width a) (blinkEffect a frame)) ∧
  (4 ≤ width a → Forall (λ r, length r = width a) (waveEffect sin a frame)) ∧
  (5 ≤ width a →
   Forall (λ r, length r = width a) (glitchEffect random a frame n).1).
Proof.
  intros Hs Hr a. pose proof (gridShape_new asciiArt) as Hg. fold a in Hg.
  split; [|split; [|split; [|split; [|split]]]].
  - split; [by apply wave_height|]. split; [by apply glitch_height|].
    split; [by apply matrix_height|by apply blink_height].
  - split; [by apply bounce_height|]. split; [by apply shake_height|].
    split; [by apply dance_height|]. intros name Hn. by apply effectFrame_height.
  - destruct (Qltb 1 (pulseScale sin frame)) eqn:E.
    + split; [by apply pulse_height_grow|].
      apply pulseEmptyLines_bound. intros x. apply Hs.
    + by apply pulse_height_shrink.
  - split; [by apply matrix_widths|by apply blink_widths].
  - intros Hw. by apply wave_widths.
  - intros Hw. by apply glitch_widths.
Qed.

(** C5: two frames that leave the shape of the grid.  On a grid of forty rows,
    pulse at frame 6 yields forty-one rows: one blank row, then the grid.  On
    the one-row grid ab, of width 2, glitch can yield a row of five blanks. *)
Lemma frames_outside_grid_shape :
  (height (new_ASCIIAnimator tall_art) = 40 ∧
   (pulseEffect sine_at_frame_6 even_draws (new_ASCIIAnimator tall_art) 6 0).1
   = [space] :: replicate 40 ["x"%char]) ∧
  (width (new_ASCIIAnimator "ab") = 2 ∧
   height (new_ASCIIAnimator "ab") = 1 ∧
   (∀ i, (0 <= glitch_draws i)%Q ∧ (glitch_draws i < 1)%Q) ∧
   (glitchEffect glitch_draws (new_ASCIIAnimator "ab") 0 0).1
   = [list_ascii_of_string "     "]).
Proof.
  split; [by vm_compute|].
  split; [reflexivity|]. split; [reflexivity|]. split; [|vm_compute; reflexivity].
  intros [|[|[|i]]]; by vm_compute.
Qed.

(** An instance of the row counts of C5 on a two-row art, at frame 7. *)
Lemma effect_frame_shape_witness :
  let a := new_ASCIIAnimator "(o_o)
 /|\ " in
  length (waveEffect (λ _, 0%Q) a 7) = height a ∧
  length (glitchEffect glitch_draws a 7 0).1 = height a ∧
  length (matrixEffect glitch_draws a 7 0).1 = height a ∧
  length (blinkEffect a 7) = height a.
Proof.
  refine (proj1 (effect_frame_shape (λ _, 0%Q) glitch_draws _ 7 0 _ _)).
  - intros x. by vm_compute.
  - intros [|[|[|i]]]; by vm_compute.
Defined.

(** Whatever value of at least 1/2 the sine takes at frame 6 (it is about
    0.56), pulse puts a blank row above the forty rows of the grid and clips
    nothing. *)
Lemma pulse_taller_than_grid sin random n :
  (1 # 2 <= sin (inject_Z 6 * (1 # 10)))%Q →
  height (new_ASCIIAnimator tall_art) = 40 ∧
  40 < length (pulseEffect sin random (new_ASCIIAnimator tall_art) 6 n).1.
Proof.
  intros Hs. split; [by vm_compute|].
  set (a := new_ASCIIAnimator tall_art).
  set (v := sin (inject_Z 6 * (1 # 10))%Q) in *.
  assert (Qltb 1 (pulseScale sin 6) = true) as Hgrow.
  { unfold Qltb, pulseScale. fold v. apply negb_true_iff.
    destruct (Qle_bool _ _) eqn:E; [|done].
    apply Qle_bool_iff in E. lra. }
  rewrite (pulse_height_grow sin random a 6 (gridShape_new _) n Hgrow).
  assert (1 ≤ pulseEmptyLines sin a 6)%Z as Hone.
  { unfold pulseEmptyLines, pulseScale. fold v.
    apply Z.le_trans with (Qfloor (inject_Z 1)); [by rewrite Qfloor_Z|].
    apply Qfloor_resp_le.
    change (inject_Z (Z.of_nat (height a))) with (40 # 1)%Q.
    change (inject_Z 1) with 1%Q.
    apply Qle_trans with (v * 2)%Q; [lra|]. apply Qle_lteq. right. field. }
  change (height a) with 40. lia.
Qed.




(** The instance of C9 on a two-row art, right after loading.  The art
    neither starts nor ends with white space, so the rows shown are the
    padded rows of the art itself. *)
Lemma stop_restores_base_grid_witness :
  let asciiArt := "(o_o)
 /|\" in
  let p := loadPage asciiArt (Some []) in
  let stopped := stopAnimation p in
  let p' := stopAnimation (startAnimation (λ _, 0%Q) glitch_draws no_rounding "wave" 0 0 p) in
  let grid := [list_ascii_of_string "(o_o)"; list_ascii_of_string " /|\ "] in
  (artText stopped = Some (joinLines grid) ∧
   pending stopped = [] ∧
   (∀ h t, runCallback (λ _, 0%Q) glitch_draws no_rounding h t stopped = stopped) ∧
   animationId (animator stopped) = None ∧
   currentAnimation (animator stopped) = None) ∧
  (artText p' = Some (joinLines grid) ∧
   pending p' = [] ∧
   (∀ h t, runCallback (λ _, 0%Q) glitch_draws no_rounding h t p' = p') ∧
   animationId (animator p') = None ∧
   currentAnimation (animator p') = None ∧
   lines (animator p') = grid) ∧
  sourceRowsPadded asciiArt = grid ∧
  artText stopped = Some (joinLines (sourceRowsPadded asciiArt)) ∧
  artText p' = Some (joinLines (sourceRowsPadded asciiArt)).
Proof.
  destruct (stop_restores_base_grid (λ _, 0%Q) glitch_draws no_rounding "(o_o)
 /|\" [] (loadPage "(o_o)
 /|\" (Some [])) 0%Q 0%Q (reach_load _ _ _ _ _)) as (H1 & H2 & H3).
  split; [exact H1|]. split; [exact H2|]. split; [reflexivity|].
  apply H3. reflexivity.
Defined.

(** C9, counterexample to the claim as stated.  The first row of the art is
    indented and the art ends with a newline.  The constructor trims the art
    before it splits it, so the grid that [stopAnimation] shows after a
    start of wave has two rows and the first has lost its indentation; the
    source rows, right-padded to the common width, are three and the first
    keeps its indentation. *)
Example stop_shows_the_trimmed_art :
  let asciiArt := "  ^
 / \
" in
  let p' := stopAnimation (startAnimation (λ _, 0%Q) even_draws no_rounding "wave" 0 0
                             (loadPage asciiArt (Some []))) in
  artText p' = Some (joinLines [list_ascii_of_string "^   ";
                                list_ascii_of_string " / \"]) ∧
  sourceRowsPadded asciiArt = [list_ascii_of_string "  ^ ";
                               list_ascii_of_string " / \";
                               list_ascii_of_string "    "] ∧
  artText p' ≠ Some (joinLines (sourceRowsPadded asciiArt)).
Proof. split; [|split]; by vm_compute. Qed.

(** ** Further properties of the animator *)

(** *** Splitting and joining rows *)

Lemma splitLines_nonempty s : splitLines s ≠ [].
Proof.
  destruct s as [|c r]; [done|]. cbn [splitLines].
  destruct (decide (c = newline)); [done|]. by destruct (splitLines r).
Qed.

Lemma joinLines_cons l r :
  r ≠ [] → joinLines (l :: r) = l ++ newline :: joinLines r.
Proof. by destruct r. Qed.

Lemma joinLines_splitLines s : joinLines (splitLines s) = s.
Proof.
  induction s as [|c r IH]; [done|]. cbn [splitLines].
  destruct (decide (c = newline)) as [->|Hc].
  - rewrite joinLines_cons by apply splitLines_nonempty. by rewrite IH.
  - destruct (splitLines r) as [|l [|l' ls]] eqn:E.
    + by destruct (splitLines_nonempty r).
    + cbn in *. by rewrite IH.
    + rewrite joinLines_cons by done. rewrite joinLines_cons in IH by done.
      by rewrite <- IH.
Qed.

Lemma splitLines_no_newline s : Forall (λ r, newline ∉ r) (splitLines s).
Proof.
  induction s as [|c r IH]; cbn [splitLines].
  - constructor; [apply not_elem_of_nil|constructor].
  - destruct (decide (c = newline)) as [->|Hc].
    + constructor; [apply not_elem_of_nil|done].
    + destruct (splitLines r) as [|l ls].
      * constructor; [|done]. intros Hin%list_elem_of_singleton. congruence.
      * apply Forall_cons in IH as [Hl Hls]. constructor; [|done].
        rewrite not_elem_of_cons. split; [congruence|done].
Qed.

Lemma splitLines_line l : newline ∉ l → splitLines l = [l].
Proof.
  induction l as [|c r IH]; [done|]. rewrite not_elem_of_cons. intros [Hc Hr].
  cbn [splitLines]. rewrite decide_False by congruence. by rewrite IH.
Qed.

Lemma splitLines_app_newline l s :
  newline ∉ l → splitLines (l ++ newline :: s) = l :: splitLines s.
Proof.
  induction l as [|c r IH].
  - intros _. cbn. by rewrite decide_True.
  - rewrite not_elem_of_cons. intros [Hc Hr].
    cbn [app splitLines]. rewrite decide_False by congruence. by rewrite IH.
Qed.

Lemma splitLines_joinLines ls :
  ls ≠ [] → Forall (λ r, newline ∉ r) ls → splitLines (joinLines ls) = ls.
Proof.
  induction ls as [|l r IH]; [done|]. intros _ [Hl Hr]%Forall_cons.
  destruct r as [|l' r'].
  - by apply splitLines_line.
  - rewrite joinLines_cons by done. rewrite splitLines_app_newline by done.
    by rewrite IH.
Qed.

Lemma padded_no_newline asciiArt :
  Forall (λ r, newline ∉ r) (lines (new_ASCIIAnimator asciiArt)).
Proof.
  cbn [new_ASCIIAnimator lines]. apply Forall_fmap.
  eapply Forall_impl; [apply splitLines_no_newline|].
  intros l Hl. cbn. unfold padEnd. rewrite elem_of_app. intros [H|H]; [done|].
  by apply elem_of_replicate in H as [H _].
Qed.

(** X8.  Splitting at newlines and joining with newlines invert each other:
    a text split into rows and joined again is the text, and rows without
    newline (at least one row) that are joined and split again are the rows.
    The rows of a new animator are of that kind, so the text [displayFrame]
    shows for them splits back into them. *)
Theorem split_join_round_trip (s : Row) (ls : list Row) asciiArt :
  ls ≠ [] → Forall (λ r, newline ∉ r) ls →
  joinLines (splitLines s) = s ∧
  splitLines (joinLines ls) = ls ∧
  splitLines (joinLines (lines (new_ASCIIAnimator asciiArt)))
  = lines (new_ASCIIAnimator asciiArt).
Proof.
  intros Hne Hnl. split; [apply joinLines_splitLines|].
  split; [by apply splitLines_joinLines|].
  apply splitLines_joinLines; [|apply padded_no_newline].
  cbn [new_ASCIIAnimator lines]. intros H%fmap_nil_inv.
  by apply (splitLines_nonempty _ H).
Qed.

(** *** Trimming *)

Lemma trimStart_spec s :
  ∃ pre, s = pre ++ trimStart s ∧ Forall (λ c, isWhiteSpace c = true) pre ∧
         ∀ c, head (trimStart s) = Some c → isWhiteSpace c = false.
Proof.
  induction s as [|c r IH].
  - exists []. by repeat split.
  - cbn [trimStart]. destruct (isWhiteSpace c) eqn:E.
    + destruct IH as (pre & Hs & Hp & Hh). exists (c :: pre).
      split; [cbn; by rewrite <- Hs|]. split; [by constructor|done].
    + exists []. split; [done|]. split; [constructor|]. by intros c' [= <-].
Qed.

Lemma trimStart_fixed s :
  (∀ c, head s = Some c → isWhiteSpace c = false) → trimStart s = s.
Proof. destruct s as [|c r]; [done|]. intros H. cbn. by rewrite (H c eq_refl). Qed.

Lemma trim_head s c : head (trim s) = Some c → isWhiteSpace c = false.
Proof.
  destruct (trimStart_spec s) as (pre & Hs & Hpre & Hh1).
  destruct (trimStart_spec (reverse (trimStart s))) as (pre2 & Hr & _ & _).
  unfold trim. intros Hc. apply Hh1.
  rewrite <- (reverse_involutive (trimStart s)), Hr, reverse_app.
  by destruct (reverse (trimStart (reverse (trimStart s)))).
Qed.

(** X9.  [trim] removes a run of white space at each end and nothing else:
    the text is the result between two runs of white space, the result
    neither starts nor ends with white space, and trimming it again changes
    nothing. *)
Theorem trim_rule s :
  ∃ pre suf, s = pre ++ trim s ++ suf ∧
    Forall (λ c, isWhiteSpace c = true) pre ∧
    Forall (λ c, isWhiteSpace c = true) suf ∧
    (∀ c, head (trim s) = Some c → isWhiteSpace c = false) ∧
    (∀ c, last (trim s) = Some c → isWhiteSpace c = false) ∧
    trim (trim s) = trim s.
Proof.
  destruct (trimStart_spec s) as (pre & Hs & Hpre & Hh1).
  destruct (trimStart_spec (reverse (trimStart s))) as (pre2 & Hr & Hpre2 & Hh2).
  pose proof (trim_head s) as Hhead. unfold trim in *.
  set (t1 := trimStart s) in *. set (t2 := trimStart (reverse t1)) in *.
  assert (t1 = reverse t2 ++ reverse pre2) as Ht1.
  { rewrite <- reverse_app, <- Hr. by rewrite reverse_involutive. }
  exists pre, (reverse pre2). split; [by rewrite <- Ht1|]. split; [done|].
  split; [by apply Forall_reverse|]. split; [done|]. split.
  - intros c. rewrite last_reverse. apply Hh2.
  - rewrite (trimStart_fixed (reverse t2) Hhead), reverse_involutive.
    by rewrite (trimStart_fixed t2 Hh2).
Qed.

(** *** The grid of a new animator *)

Lemma max_list_attained (l : list nat) : l ≠ [] → max_list l ∈ l.
Proof.
  induction l as [|x l IH]; [done|]. intros _.
  destruct (decide (l = [])) as [->|Hne].
  - cbn. rewrite Nat.max_0_r. left.
  - specialize (IH Hne). change (max_list (x :: l)) with (x `max` max_list l).
    destruct (Nat.max_spec x (max_list l)) as [[_ ->]|[_ ->]]; [by right|left].
Qed.

Lemma splitLines_head s l ls c :
  splitLines s = l :: ls → head l = Some c → head s = Some c.
Proof.
  destruct s as [|c0 r]; cbn [splitLines].
  - by intros [= <- <-].
  - destruct (decide (c0 = newline)); [by intros [= <- <-]|].
    destruct (splitLines r); by intros [= <- <-] [= <-].
Qed.

(** X10.  The constructor builds a rectangular grid of at least one row: as
    many rows as the trimmed art has lines, each the source line followed by
    blanks only, all of the width of a longest source line (which some line
    attains).  The first source line does not start with white space: the
    indentation of the art's first line is lost. *)
Theorem constructor_grid asciiArt :
  let a := new_ASCIIAnimator asciiArt in
  1 ≤ height a ∧
  length (originalLines a) = height a ∧
  length (lines a) = height a ∧
  Forall (λ r, length r = width a) (lines a) ∧
  (∀ i (l : Row), originalLines a !! i = Some l →
     length l ≤ width a ∧
     lines a !! i = Some (l ++ replicate (width a - length l) space)) ∧
  (∃ l, l ∈ originalLines a ∧ length l = width a) ∧
  (∀ l c, originalLines a !! 0 = Some l → head l = Some c → isWhiteSpace c = false).
Proof.
  intros a. pose proof (gridShape_new asciiArt) as [Hh Hw]. fold a in Hh, Hw.
  set (src := splitLines (trim (list_ascii_of_string asciiArt))).
  assert (originalLines a = src) as Ho by done.
  assert (src ≠ []) as Hne by apply splitLines_nonempty.
  split. { change (height a) with (length src). destruct src; [done|cbn; lia]. }
  split; [done|]. split; [done|]. split; [done|]. split; [|split].
  - intros i l Hl. split.
    + change (width a) with (max_list (length <$> src)).
      apply max_list_elem_of_le. apply list_elem_of_fmap_2.
      rewrite Ho in Hl. by eapply list_elem_of_lookup_2.
    + change (lines a) with (padEnd (width a) <$> src). rewrite Ho in Hl.
      by rewrite list_lookup_fmap, Hl.
  - assert (max_list (length <$> src) ∈ length <$> src) as Hin.
    { apply max_list_attained. by intros H%fmap_nil_inv. }
    apply list_elem_of_fmap in Hin as (l & Hl & Hin). exists l. split; [done|].
    by rewrite <- Hl.
  - intros l c Hl Hc. rewrite Ho in Hl.
    apply (trim_head (list_ascii_of_string asciiArt)).
    destruct src as [|l0 ls] eqn:E; [done|].
    cbn in Hl. simplify_eq. by eapply splitLines_head.
Qed.

(** *** Shifting a row *)

(** X11.  The shift of a row by an offset, as the four effects that shift
    write it.  A positive offset puts that many blanks in front and drops as
    many characters at the end; a negative offset drops characters at the
    front and appends blanks; offset zero leaves the row as it is.  The
    two-branch variant of glitch and dance gives the same row as the
    three-branch variant of wave and shake.  The result is as long as the
    row, unless the offset exceeds the row's length: then it consists of
    blanks only and is as long as the offset. *)
Theorem shift_rule offset line :
  shiftRowElse offset line = shiftRow offset line ∧
  shiftRow offset line =
    (if decide (0 < offset)%Z
     then replicate (Z.to_nat offset) space
          ++ take (length line - Z.to_nat offset) line
     else drop (Z.to_nat (- offset)) line
          ++ replicate (Z.to_nat (- offset)) space) ∧
  shiftRow 0 line = line ∧
  length (shiftRow offset line) = length line `max` Z.to_nat (Z.abs offset) ∧
  (length line ≤ Z.to_nat (Z.abs offset) →
   shiftRow offset line = replicate (Z.to_nat (Z.abs offset)) space).
Proof.
  assert (shiftRow offset line =
    (if decide (0 < offset)%Z
     then replicate (Z.to_nat offset) space
          ++ take (length line - Z.to_nat offset) line
     else drop (Z.to_nat (- offset)) line
          ++ replicate (Z.to_nat (- offset)) space)) as Hrule.
  { unfold shiftRow, slice, sliceFrom, sliceIndex, blanks.
    destruct (decide (0 < offset)%Z) as [Hpos|Hle].
    - rewrite (proj2 (Z.ltb_lt 0 offset)) by done.
      rewrite (proj2 (Z.ltb_lt (- offset) 0)) by lia.
      replace (0 <? 0)%Z with false by done. cbn [Z.to_nat Nat.min drop].
      f_equal. f_equal. lia.
    - rewrite (proj2 (Z.ltb_ge 0 offset)) by lia.
      destruct (offset <? 0)%Z eqn:E.
      + apply Z.ltb_lt in E. rewrite (proj2 (Z.ltb_ge (- offset) 0)) by lia.
        destruct (decide (Z.to_nat (- offset) ≤ length line)).
        * by rewrite Nat.min_l by done.
        * rewrite Nat.min_r by lia. by rewrite !drop_ge by lia.
      + apply Z.ltb_ge in E. assert (offset = 0)%Z as -> by lia.
        cbn. by rewrite app_nil_r. }
  split; [apply shiftRowElse_shiftRow|]. split; [done|]. split; [done|].
  split; [apply length_shiftRow|].
  intros Hlong. rewrite Hrule. destruct (decide (0 < offset)%Z).
  - replace (length line - Z.to_nat offset) with 0 by lia.
    rewrite take_0, app_nil_r. f_equal. lia.
  - rewrite drop_ge by lia. cbn. f_equal. lia.
Qed.

(** *** Blink *)

(** X12.  Blink shows the grid unchanged while the eyes are open.  While
    they are closed every character among oO0@* is shown as a hyphen and
    every other character is unchanged, so no such character is left.
    For frame indices from 0 on the eyes are closed during the first six
    frames of every thirty, and the effect repeats every thirty frames. *)
Theorem blink_rule a frame :
  (blinkOn frame = true → blinkEffect a frame = lines a) ∧
  (blinkOn frame = false →
   Forall2 (Forall2 (λ c c', c' = if bool_decide (c ∈ blinkGlyphs)
                                  then "-"%char else c))
           (lines a) (blinkEffect a frame) ∧
   Forall (Forall (λ c', c' ∉ blinkGlyphs)) (blinkEffect a frame)) ∧
  ((0 ≤ frame)%Z → (blinkOn frame = false ↔ (frame mod 30 ≤ 5)%Z)) ∧
  ((0 ≤ frame)%Z → blinkEffect a (frame + 30) = blinkEffect a frame).
Proof.
  split; [|split; [|split]].
  - intros Hon. unfold blinkEffect. rewrite Hon. cbn [negb].
    rewrite <- (list_fmap_id (lines a)) at 2. apply list_fmap_ext. intros _ l _.
    rewrite <- (list_fmap_id l) at 2. apply list_fmap_ext. intros _ c _.
    by rewrite andb_false_r.
  - intros Hoff. unfold blinkEffect. rewrite Hoff. cbn [negb]. split.
    + apply Forall2_fmap_r, Forall_Forall2_diag, Forall_forall. intros l _.
      apply Forall2_fmap_r, Forall_Forall2_diag, Forall_forall. intros c _.
      unfold compose. by rewrite andb_true_r.
    + apply Forall_fmap, Forall_forall. intros l _. unfold compose.
      apply Forall_fmap, Forall_forall. intros c _. unfold compose.
      rewrite andb_true_r.
      destruct (bool_decide_reflect (c ∈ blinkGlyphs)) as [_|Hc]; [|exact Hc].
      Reconciler.by_evaluation.
  - intros Hf. unfold blinkOn. rewrite Z.rem_mod_nonneg by lia.
    rewrite Z.ltb_ge. done.
  - intros Hf. unfold blinkEffect, blinkOn.
    rewrite !Z.rem_mod_nonneg by lia.
    replace ((frame + 30) mod 30)%Z with (frame mod 30)%Z; [done|].
    rewrite <- (Z.mod_add frame 1 30) by lia. f_equal.
Qed.

(** *** Bounce *)

(** X13.  With a sine between -1 and 1, a bounce frame of a new animator
    has exactly [height] rows of [width] characters: at most five blank
    rows on top, as many as the bounce height of the frame, and below them
    the rows of the grid from the first on, as far as they fit. *)
Theorem bounce_rule sin asciiArt frame :
  (∀ x, (- (1) <= sin x)%Q ∧ (sin x <= 1)%Q) →
  let a := new_ASCIIAnimator asciiArt in
  let top := Z.to_nat (bounceHeight sin frame) in
  let rows := bounceEffect sin a frame in
  top ≤ 5 ∧
  length rows = height a ∧
  Forall (λ r, length r = width a) rows ∧
  (∀ i, i < top → i < height a → rows !! i = Some (blankRow a)) ∧
  (∀ i line, lines a !! i = Some line → top + i < height a →
     rows !! (top + i) = Some line).
Proof.
  intros Hs a top rows.
  pose proof (gridShape_new asciiArt) as [Hh Hw]. fold a in Hh, Hw.
  split.
  { subst top. unfold bounceHeight.
    destruct (Hs (inject_Z frame * (1 # 5))%Q) as [H1 H2].
    assert (-5 ≤ Qfloor (sin (inject_Z frame * (1 # 5))%Q * 5) ≤ 5)%Z
      by exact (scaled_sine _ 5 eq_refl H1 H2).
    lia. }
  subst rows. unfold bounceEffect. fold top. split; [|split; [|split]].
  - rewrite length_take, length_app, length_replicate. lia.
  - apply Forall_take, Forall_app. split; [|done].
    apply Forall_replicate. unfold blankRow. by rewrite length_replicate.
  - intros i Hi Hlt. rewrite lookup_take_lt by done.
    rewrite lookup_app_l by (rewrite length_replicate; lia).
    by apply lookup_replicate_2.
  - intros i line Hl Hlt. rewrite lookup_take_lt by done.
    rewrite lookup_app_r by (rewrite length_replicate; lia).
    rewrite length_replicate. by replace (top + i - top) with i by lia.
Qed.

(** *** Matrix *)

Lemma forChars_pointwise (R : ascii → ascii → Prop) (body : ascii → Rand Row) line n :
  (∀ c m, ∃ c', (body c m).1 = [c'] ∧ R c c') →
  Forall2 R line (forChars body line n).1.
Proof.
  intros Hb. revert n. induction line as [|c r IH]; intros n; [constructor|].
  rewrite forChars_cons. cbn [fst]. destruct (Hb c n) as (c' & -> & HR).
  cbn [app]. constructor; [done|apply IH].
Qed.

(** X14.  A matrix frame has the rows of the grid with some characters
    replaced: a blank stays a blank, and any other character stays as it is
    or becomes the digit 0 or 1.  This holds for every grid, frame index and
    sequence of draws. *)
Theorem matrix_keeps_the_silhouette random a frame n :
  Forall2 (Forall2 (λ c c', if decide (c = space) then c' = space
                            else c' = c ∨ c' = "0"%char ∨ c' = "1"%char))
          (lines a) (matrixEffect random a frame n).1.
Proof.
  unfold matrixEffect. apply forRows_each. intros line m _.
  rewrite bind_run. eexists. split; [reflexivity|].
  apply forChars_pointwise. intros c k.
  destruct (decide (c = space)) as [->|Hc].
  - exists space. by split.
  - rewrite bind_run. cbn [nextRandom fst snd].
    destruct (Qltb _ _).
    + rewrite bind_run. cbn [nextRandom fst snd ret]. eexists. split; [done|].
      destruct (Qltb _ _); auto.
    + exists c. split; [done|]. by left.
Qed.

(** *** Pulse *)

Lemma forRows_sublist (body : Row → Rand (list Row)) xs n :
  (∀ x m, (body x m).1 = [x] ∨ (body x m).1 = []) →
  sublist (forRows body xs n).1 xs.
Proof.
  intros Hb. revert n. induction xs as [|x r IH]; intros n; [constructor|].
  rewrite forRows_cons. cbn [fst].
  destruct (Hb x n) as [-> | ->]; cbn [app].
  - apply sublist_skip, IH.
  - apply sublist_cons, IH.
Qed.

(** X15.  While the pulse scale is at most 1, a pulse frame consists of rows
    of the grid, unchanged and in their order: rows are left out, none is
    altered, added or moved. *)
Theorem pulse_shrink_drops_rows sin random a frame n :
  Qltb 1 (pulseScale sin frame) = false →
  sublist (pulseEffect sin random a frame n).1 (lines a).
Proof.
  intros Hs. unfold pulseEffect. rewrite Hs, bind_run. cbn [ret fst app].
  apply forRows_sublist. intros line m. rewrite bind_run.
  cbn [nextRandom fst snd ret]. destruct (Qltb (1 - _) _); auto.
Qed.

Lemma forRows_pointwise {A} (R : A → Row → Prop)
      (body : A → Rand (list Row)) xs n :
  (∀ x m, ∃ r, (body x m).1 = [r] ∧ R x r) →
  Forall2 R xs (forRows body xs n).1.
Proof. intros Hb. apply forRows_each. intros x m _. apply Hb. Qed.

Lemma forChars_stretch (body : ascii → Rand Row) line n :
  (∀ c m, (body c m).1 = [c; c] ∨ (body c m).1 = [c]) →
  ∃ dups, length dups = length line ∧ (forChars body line n).1 = stretch dups line.
Proof.
  intros Hb. revert n. induction line as [|c r IH]; intros n; [by exists []|].
  rewrite forChars_cons. cbn [fst].
  destruct (IH (body c n).2) as (dups & Hlen & ->).
  destruct (Hb c n) as [-> | ->].
  - exists (true :: dups). split; [cbn; by rewrite Hlen|done].
  - exists (false :: dups). split; [cbn; by rewrite Hlen|done].
Qed.

Lemma length_stretch dups line :
  length dups = length line → length line ≤ length (stretch dups line).
Proof.
  revert dups. induction line as [|c r IH]; intros [|d dups] Hlen; try done.
  unfold stretch. cbn [zip_with concat]. rewrite length_app.
  cbn in Hlen. specialize (IH dups ltac:(lia)). unfold stretch in IH.
  destruct d; cbn; lia.
Qed.

(** X29.  While the pulse scale is above 1, a pulse frame of a new animator
    consists of its blank rows followed by one row for each row of the grid:
    the grid row with some of its characters doubled, cut to [width]
    characters.  Every such row has exactly [width] characters. *)
Theorem pulse_grow_stretches_rows sin random asciiArt frame n :
  Qltb 1 (pulseScale sin frame) = true →
  let a := new_ASCIIAnimator asciiArt in
  ∃ rows,
    (pulseEffect sin random a frame n).1
    = replicate (Z.to_nat (pulseEmptyLines sin a frame)) (blankRow a) ++ rows ∧
    Forall2 (λ line r, length r = width a ∧
                       ∃ dups, length dups = length line ∧
                               r = take (width a) (stretch dups line))
            (lines a) rows.
Proof.
  intros Hs a. pose proof (gridShape_new asciiArt) as Hg. fold a in Hg.
  unfold pulseEffect. rewrite Hs, bind_run. cbn [ret fst]. eexists. split; [done|].
  apply forRows_each. intros line m Hline. rewrite bind_run. cbn [ret fst].
  eexists. split; [reflexivity|].
  destruct (forChars_stretch
              (λ char, bind (nextRandom random)
                         (λ r, ret (if Qltb r (pulseScale sin frame - 1)
                                    then [char; char] else [char])))
              line m) as (dups & Hlen & ->).
  { intros c k. rewrite bind_run. cbn [nextRandom fst snd ret].
    destruct (Qltb (random k) _); auto. }
  assert (slice (stretch dups line) 0 (Z.of_nat (width a))
          = take (width a) (stretch dups line)) as ->.
  { unfold slice, sliceIndex.
    rewrite (proj2 (Z.ltb_ge (Z.of_nat (width a)) 0)) by lia.
    change (0 <? 0)%Z with false. change (Z.to_nat 0) with 0.
    rewrite Nat2Z.id, Nat.min_0_l, Nat.sub_0_r, drop_0.
    destruct (decide (width a ≤ length (stretch dups line))).
    - by rewrite Nat.min_l.
    - rewrite Nat.min_r by lia. by rewrite !take_ge by lia. }
  split; [|by exists dups].
  rewrite length_take. pose proof (length_stretch dups line Hlen).
  rewrite (line_width a Hg line Hline) in *. lia.
Qed.

(** X30.  With draws in [0, 1), a glitch frame has one row for each row of
    the grid, and each is of one of three kinds: the grid row unchanged; the
    grid row shifted by an offset from -5 to 5; or the grid row in which
    blanks are kept and any other character is kept or replaced by one of
    the symbols !@#$%^&*. *)
Theorem glitch_row_kinds random a frame n :
  (∀ i, (0 <= random i)%Q ∧ (random i < 1)%Q) →
  Forall2 (λ line r,
             r = line ∨
             (∃ offset, (-5 ≤ offset ≤ 5)%Z ∧ r = shiftRow offset line) ∨
             Forall2 (λ c c', if decide (c = space) then c' = space
                              else c' = c ∨ c' ∈ glitchSymbols) line r)
          (lines a) (glitchEffect random a frame n).1.
Proof.
  intros Hr. unfold glitchEffect. rewrite bind_run.
  apply forRows_pointwise. intros line m.
  rewrite bind_run. cbn [nextRandom fst snd].
  destruct (Qltb (random m) _); [|exists line; by split; [|left]].
  rewrite bind_run. cbn [nextRandom fst snd].
  destruct (Qltb (random (S m)) _).
  - rewrite bind_run. cbn [nextRandom fst snd ret].
    eexists. split; [reflexivity|]. right; left.
    exists (Qfloor (random (S (S m)) * 11) - 5)%Z.
    split; [|apply shiftRowElse_shiftRow].
    destruct (Hr (S (S m))) as [H0 H1].
    assert (0 ≤ Qfloor (random (S (S m)) * 11) < 11)%Z
      by exact (scaled_draw _ 11 eq_refl H0 H1).
    lia.
  - rewrite bind_run. eexists. split; [reflexivity|]. right; right.
    apply forChars_pointwise. intros c k.
    destruct (decide (c = space)) as [->|Hc]; [by exists space|].
    rewrite bind_run. cbn [nextRandom fst snd].
    destruct (Qltb _ _); [|exists c; split; [done|by left]].
    rewrite bind_run. cbn [nextRandom fst snd ret].
    destruct (Hr (S k)) as [H0 H1].
    assert (0 ≤ Qfloor (random (S k) * 8) < 8)%Z as Hi
      by exact (scaled_draw _ 8 eq_refl H0 H1).
    destruct (glitchSymbols !! _) as [sym|] eqn:E.
    + exists sym. split; [done|]. right. by eapply list_elem_of_lookup_2.
    + apply lookup_ge_None in E. change (length glitchSymbols) with 8 in E. lia.
Qed.

(** *** The frame loop *)

Lemma frame_fields sin random round start now p :
  let p' := frame sin random round start now p in
  pending p' = pending p ++ [(nextHandle p, start)] ∧
  nextHandle p' = Pos.succ (nextHandle p) ∧
  animationId (animator p') = Some (nextHandle p) ∧
  currentAnimation (animator p') = currentAnimation (animator p) ∧
  fps (animator p') = fps (animator p) ∧
  animationFrame (animator p')
  = Qfloor (round (round (now - start) / round (1000 / inject_Z (fps (animator p)))))%Q.
Proof.
  unfold frame.
  destruct (match currentAnimation (animator p) with
            | Some name => _ | None => _ end) as [animated calls].
  by repeat split.
Qed.

Lemma fps_stopAnimation p : fps (animator (stopAnimation p)) = fps (animator p).
Proof. unfold stopAnimation. by destruct (animationId (animator p)). Qed.

Lemma reachable_handles sin random round asciiArt elem p :
  reachable sin random round asciiArt elem p →
  (∀ cb, cb ∈ pending p → (cb.1 < nextHandle p)%positive) ∧
  fps (animator p) = 20%Z.
Proof.
  induction 1 as [|p ty start now Hp IH|p Hp IH|p h now Hp IH].
  - split; [|done]. intros cb Hcb. by apply elem_of_nil in Hcb.
  - destruct (reachable_session _ _ _ _ _ _ Hp) as (_ & Ho & _).
    destruct (stopAnimation_spec p Ho) as (_ & Hpend & _ & _ & _ & _ & Hnext).
    destruct IH as [_ Hfps]. unfold startAnimation, animate.
    cbn [animator currentAnimation]. destruct (decide (ty = "")).
    + cbn [pending animator fps]. rewrite Hpend, fps_stopAnimation.
      split; [|done]. intros cb Hcb. by apply elem_of_nil in Hcb.
    + match goal with |- context [frame _ _ _ _ _ ?q] =>
        destruct (frame_fields sin random round start now q) as (H1 & H2 & _ & _ & H5 & _)
      end.
      rewrite H1, H2, H5. cbn [pending nextHandle animator fps].
      rewrite Hpend, fps_stopAnimation. split; [|done].
      intros cb ->%list_elem_of_singleton. cbn. lia.
  - destruct (reachable_session _ _ _ _ _ _ Hp) as (_ & Ho & _).
    destruct (stopAnimation_spec p Ho) as (_ & Hpend & _).
    rewrite Hpend, fps_stopAnimation. split; [|apply IH].
    intros cb Hcb. by apply elem_of_nil in Hcb.
  - destruct IH as [Hlt Hfps]. unfold runCallback.
    destruct (list_find _ _) as [[i [h' st]]|] eqn:E; [|done].
    match goal with |- context [frame _ _ _ _ _ ?q] =>
      destruct (frame_fields sin random round st now q) as (H1 & H2 & _ & _ & H5 & _)
    end.
    rewrite H1, H2, H5. cbn [pending nextHandle animator fps]. split; [|done].
    intros cb [Hcb| ->%list_elem_of_singleton]%elem_of_app.
    + apply list_elem_of_filter in Hcb as [_ Hcb]. specialize (Hlt cb Hcb). lia.
    + cbn. lia.
Qed.

(** X16.  In every page a session can reach (load, then any starts, stops
    and frame callbacks in any order) at most one frame callback is pending:
    the one whose handle the animator remembers, and none when it remembers
    none.  Handles are never reused, the base grid is the padded art, the
    frame rate is 20, and the art element is shown exactly if the page has
    one. *)
Theorem at_most_one_loop sin random round asciiArt elem p :
  reachable sin random round asciiArt elem p →
  match animationId (animator p) with
  | Some h => ∃ start, pending p = [(h, start)] ∧ (h < nextHandle p)%positive
  | None => pending p = []
  end ∧
  lines (animator p) = paddedLines asciiArt ∧
  fps (animator p) = 20%Z ∧
  (is_Some (artText p) ↔ is_Some elem).
Proof.
  intros Hp. destruct (reachable_session _ _ _ _ _ _ Hp) as (Hl & Ho & He).
  destruct (reachable_handles _ _ _ _ _ _ Hp) as [Hlt Hfps].
  split; [|done]. unfold oneLoop in Ho.
  destruct (animationId (animator p)) as [h|]; [|done].
  destruct Ho as [start Hpend]. exists start. split; [done|].
  apply (Hlt (h, start)). rewrite Hpend. left.
Qed.


(** X18.  [startAnimation] with the empty string as name starts no loop:
    the running loop is cancelled, nothing is pending, the base grid is
    shown, and a later callback of any handle does nothing; only the name
    field keeps the empty string.  With a name that is none of the eight
    effects the loop runs, and every frame is the base grid, without a
    draw. *)
Theorem start_with_no_effect sin random round asciiArt shown p start now :
  reachable sin random round asciiArt (Some shown) p →
  let p' := startAnimation sin random round "" start now p in
  (pending p' = [] ∧
   animationId (animator p') = None ∧
   currentAnimation (animator p') = Some "" ∧
   artText p' = Some (joinLines (paddedLines asciiArt)) ∧
   (∀ h t, runCallback sin random round h t p' = p')) ∧
  (∀ name a frame n,
     name ∉ ["wave"; "pulse"; "bounce"; "shake"; "glitch"; "dance"; "matrix"; "blink"] →
     effectFrame sin random name a frame n = (lines a, n)).
Proof.
  intros Hp p'. split.
  - destruct (reachable_session _ _ _ _ _ _ Hp) as (Hl & Ho & He).
    destruct (stopAnimation_spec p Ho) as (Hl' & Hpend & Hid & _ & Hshow & _ & _).
    destruct (proj2 He (mk_is_Some _ _ eq_refl)) as [old Hold].
    subst p'. unfold startAnimation, animate. cbn [animator currentAnimation].
    rewrite decide_True by done. cbn [pending animator animationId currentAnimation artText].
    split; [done|]. split; [done|]. split; [done|].
    split; [by rewrite (Hshow old Hold), Hl|].
    intros h t. by apply runCallback_idle.
  - intros name a frame n Hname. unfold effectFrame.
    repeat (destruct (decide (name = _)) as [->|_];
            [exfalso; apply Hname; set_solver|]).
    done.
Qed.

(** *** Instances *)

(** X8 for a text of two lines and a grid of two rows. *)
Lemma split_join_round_trip_witness :
  joinLines (splitLines (list_ascii_of_string "ab
c")) = list_ascii_of_string "ab
c" ∧
  splitLines (joinLines (list_ascii_of_string <$> ["ab"; "c"]))
  = (list_ascii_of_string <$> ["ab"; "c"]) ∧
  splitLines (joinLines (lines (new_ASCIIAnimator "ab
c")))
  = lines (new_ASCIIAnimator "ab
c").
Proof.
  apply (split_join_round_trip _ (list_ascii_of_string <$> ["ab"; "c"])).
  - done.
  - Reconciler.by_evaluation.
Defined.

(** X13 on a three-row art with a sine that is constantly 1/2: two blank
    rows on top. *)
Lemma bounce_rule_witness :
  let a := new_ASCIIAnimator "ab
cd
ef" in
  let top := Z.to_nat (bounceHeight (λ _, 1 # 2) 3) in
  let rows := bounceEffect (λ _, 1 # 2) a 3 in
  top ≤ 5 ∧
  length rows = height a ∧
  Forall (λ r, length r = width a) rows ∧
  (∀ i, i < top → i < height a → rows !! i = Some (blankRow a)) ∧
  (∀ i line, lines a !! i = Some line → top + i < height a →
     rows !! (top + i) = Some line).
Proof.
  apply (bounce_rule (λ _, 1 # 2)). intros x. by vm_compute.
Defined.

(** X15 at frame 0 with a sine that is constantly 0: the scale is 1. *)
Lemma pulse_shrink_drops_rows_witness :
  sublist (pulseEffect (λ _, 0%Q) even_draws (new_ASCIIAnimator "ab
cd") 0 0).1 (lines (new_ASCIIAnimator "ab
cd")).
Proof.
  apply (pulse_shrink_drops_rows (λ _, 0%Q)). reflexivity.
Defined.

(** X16 for the page in which wave was started right after loading. *)
Lemma at_most_one_loop_witness :
  let p := startAnimation (λ _, 0%Q) even_draws no_rounding "wave" 0 0 (loadPage "ab
cd" (Some [])) in
  match animationId (animator p) with
  | Some h => ∃ start, pending p = [(h, start)] ∧ (h < nextHandle p)%positive
  | None => pending p = []
  end ∧
  lines (animator p) = paddedLines "ab
cd" ∧
  fps (animator p) = 20%Z ∧
  (is_Some (artText p) ↔ is_Some (Some ([] : Row))).
Proof.
  apply (at_most_one_loop (λ _, 0%Q) even_draws no_rounding). apply reach_start, reach_load.
Defined.


(** X18 right after loading. *)
Lemma start_with_no_effect_witness :
  let p' := startAnimation (λ _, 0%Q) even_draws no_rounding "" 0 0 (loadPage "ab
cd" (Some [])) in
  (pending p' = [] ∧
   animationId (animator p') = None ∧
   currentAnimation (animator p') = Some "" ∧
   artText p' = Some (joinLines (paddedLines "ab
cd")) ∧
   (∀ h t, runCallback (λ _, 0%Q) even_draws no_rounding h t p' = p')) ∧
  (∀ name a frame n,
     name ∉ ["wave"; "pulse"; "bounce"; "shake"; "glitch"; "dance"; "matrix"; "blink"] →
     effectFrame (λ _, 0%Q) even_draws name a frame n = (lines a, n)).
Proof.
  apply (start_with_no_effect (λ _, 0%Q) even_draws no_rounding "ab
cd" []). apply reach_load.
Defined.

(** *** The director *)

Lemma session_draw random asciiArt elem p :
  session asciiArt elem p → session asciiArt elem (draw random p).2.
Proof. done. Qed.

(** A started animation with a name runs: one callback is pending. *)
Lemma start_running sin random round asciiArt elem ty start now p :
  session asciiArt elem p → ty ≠ "" →
  let p' := startAnimation sin random round ty start now p in
  session asciiArt elem p' ∧
  currentAnimation (animator p') = Some ty ∧
  pending p' = [(nextHandle p, start)].
Proof.
  intros Hs Hty p'. split; [by apply session_start|].
  destruct Hs as (_ & Ho & _).
  destruct (stopAnimation_spec p Ho) as (_ & Hpend & _ & _ & _ & _ & Hnext).
  subst p'. unfold startAnimation, animate. cbn [animator currentAnimation].
  rewrite decide_False by done.
  match goal with |- context [frame _ _ _ _ _ ?q] =>
    destruct (frame_fields sin random round start now q) as (H1 & _ & _ & H4 & _)
  end.
  rewrite H1, H4. cbn [pending nextHandle animator currentAnimation].
  by rewrite Hpend, Hnext.
Qed.

Lemma animations_named name : name ∈ animations → name ≠ "".
Proof. intros Hin ->. revert Hin. Reconciler.by_evaluation. Qed.

Lemma randomAnimation_spec sin random round asciiArt elem clock start now st :
  (∀ i, (0 <= random i)%Q ∧ (random i < 1)%Q) →
  session asciiArt elem (page st) →
  ∃ st' name r2 r3,
    randomAnimation sin random round clock start now st = Some st' ∧
    name ∈ animations ∧
    session asciiArt elem (page st') ∧
    currentAnimation (animator (page st')) = Some name ∧
    pending (page st') = [(nextHandle (page st), start)] ∧
    ((0 <= r2)%Q ∧ (r2 < 1)%Q) ∧ ((0 <= r3)%Q ∧ (r3 < 1)%Q) ∧
    timeouts st' = timeouts st ++ [((clock + animDuration r2)%Q, StopTimeout);
                                   ((clock + nextDelay r3)%Q, NextTimeout)].
Proof.
  intros Hr Hs. unfold randomAnimation. cbn [draw].
  set (r1 := random (randomCalls (page st))).
  assert (0 ≤ Qfloor (r1 * inject_Z (Z.of_nat (length animations))) < 8)%Z as Hi
    by (destruct (Hr (randomCalls (page st))); by apply (scaled_draw _ 8)).
  set (idx := Qfloor (r1 * inject_Z (Z.of_nat (length animations)))) in *.
  rewrite (proj2 (Z.ltb_ge idx 0)) by lia.
  destruct (animations !! Z.to_nat idx) as [name|] eqn:E.
  2: { apply lookup_ge_None in E. change (length animations) with 8 in E. lia. }
  set (p1 := mkPage (animator (page st)) (artText (page st)) (pending (page st))
                    (nextHandle (page st)) (S (randomCalls (page st)))).
  assert (session asciiArt elem p1) as Hs1 by exact Hs.
  assert (name ∈ animations) as Hname by (by eapply list_elem_of_lookup_2).
  destruct (start_running sin random round _ _ name start now p1 Hs1 (animations_named _ Hname))
    as (Hs2 & Hcur & Hpend).
  set (p2 := startAnimation sin random round name start now p1) in *.
  eexists _, name, (random (randomCalls p2)), (random (S (randomCalls p2))).
  split; [reflexivity|]. split; [done|]. split; [exact Hs2|].
  split; [exact Hcur|]. split; [exact Hpend|].
  split; [apply Hr|]. split; [apply Hr|]. reflexivity.
Qed.

(** X19.  With draws in [0, 1), [randomAnimation] never throws and always
    starts one of the eight effects, on a loop of its own (exactly one frame
    callback is pending afterwards).  It registers a stop timeout that is due
    at least 5 and less than 15 seconds later and a timeout for the next
    [randomAnimation] that is due at least 5 and less than 60 seconds later;
    the timeouts registered before stay registered. *)
Theorem director_starts_an_effect sin random round asciiArt elem clock start now st :
  (∀ i, (0 <= random i)%Q ∧ (random i < 1)%Q) →
  session asciiArt elem (page st) →
  ∃ st' name tstop tnext,
    randomAnimation sin random round clock start now st = Some st' ∧
    name ∈ animations ∧
    currentAnimation (animator (page st')) = Some name ∧
    pending (page st') = [(nextHandle (page st), start)] ∧
    timeouts st' = timeouts st ++ [(tstop, StopTimeout); (tnext, NextTimeout)] ∧
    (clock + 5000 <= tstop)%Q ∧ (tstop < clock + 15000)%Q ∧
    (clock + 5000 <= tnext)%Q ∧ (tnext < clock + 60000)%Q.
Proof.
  intros Hr Hs.
  destruct (randomAnimation_spec sin random round _ _ clock start now st Hr Hs)
    as (st' & name & r2 & r3 & Hrun & Hname & _ & Hcur & Hpend & [H2 H2'] & [H3 H3'] & Ht).
  exists st', name, (clock + animDuration r2)%Q, (clock + nextDelay r3)%Q.
  unfold animDuration, nextDelay. repeat split; try done; lra.
Qed.

(** X20.  The stop timeout of an animation is not cleared when the next
    animation starts, and it stops that animation when it runs.  After
    [randomAnimation], the run of its next timeout and then the run of its
    stop timeout, the animator is idle, while the stop timeout of the second
    animation, due at least 5 seconds after that animation began, is still
    registered.  There are draws for which the next timeout is due before
    the stop timeout, and the stop timeout less than 5 seconds after the
    next one. *)
Theorem stop_timeout_outlives_its_animation
        sin random round asciiArt elem clock start now p :
  (∀ i, (0 <= random i)%Q ∧ (random i < 1)%Q) →
  session asciiArt elem p →
  (∃ st1 tstop1 tnext1,
     randomAnimation sin random round clock start now (mkStage p []) = Some st1 ∧
     timeouts st1 = [(tstop1, StopTimeout); (tnext1, NextTimeout)] ∧
     ∀ start2 now2, ∃ st2 name2 tstop2 tnext2,
       runTimeout sin random round 1 tnext1 start2 now2 st1 = Some st2 ∧
       name2 ∈ animations ∧
       currentAnimation (animator (page st2)) = Some name2 ∧
       pending (page st2) = [(nextHandle (page st1), start2)] ∧
       timeouts st2 = [(tstop1, StopTimeout); (tstop2, StopTimeout);
                       (tnext2, NextTimeout)] ∧
       (tnext1 + 5000 <= tstop2)%Q ∧
       ∀ clock3 start3 now3, ∃ st3,
         runTimeout sin random round 0 clock3 start3 now3 st2 = Some st3 ∧
         pending (page st3) = [] ∧
         currentAnimation (animator (page st3)) = None ∧
         timeouts st3 = [(tstop2, StopTimeout); (tnext2, NextTimeout)]) ∧
  (∃ r2 r3, ((0 <= r2)%Q ∧ (r2 < 1)%Q) ∧ ((0 <= r3)%Q ∧ (r3 < 1)%Q) ∧
            (nextDelay r3 < animDuration r2)%Q ∧
            (animDuration r2 < nextDelay r3 + 5000)%Q).
Proof.
  intros Hr Hs. split.
  - destruct (randomAnimation_spec sin random round _ _ clock start now (mkStage p []) Hr Hs)
      as (st1 & name & r2 & r3 & Hrun & _ & Hs1 & _ & _ & _ & _ & Ht1).
    cbn [timeouts app] in Ht1.
    exists st1, (clock + animDuration r2)%Q, (clock + nextDelay r3)%Q.
    split; [done|]. split; [done|]. intros start2 now2.
    set (tnext1 := (clock + nextDelay r3)%Q).
    destruct (randomAnimation_spec sin random round asciiArt elem tnext1 start2 now2
                (mkStage (page st1) (delete 1 (timeouts st1))) Hr Hs1)
      as (st2 & name2 & r2' & r3' & Hrun2 & Hname2 & Hs2 & Hcur2 & Hpend2
          & [H2 H2'] & _ & Ht2).
    rewrite Ht1 in Hrun2, Ht2. cbn [timeouts delete list_delete app page] in Hrun2, Ht2.
    exists st2, name2, (tnext1 + animDuration r2')%Q, (tnext1 + nextDelay r3')%Q.
    split. { unfold runTimeout. rewrite Ht1. cbn [lookup list_lookup]. exact Hrun2. }
    split; [done|]. split; [done|]. split; [done|]. split; [done|].
    split. { unfold animDuration. lra. }
    intros clock3 start3 now3. eexists. split.
    { unfold runTimeout. rewrite Ht2. cbn [lookup list_lookup]. reflexivity. }
    destruct Hs2 as (_ & Ho2 & _).
    destruct (stopAnimation_spec (page st2) Ho2) as (_ & Hp3 & _ & Hc3 & _).
    cbn [page timeouts]. split; [exact Hp3|]. split; [exact Hc3|]. reflexivity.
  - exists (2 # 5)%Q, 0%Q. by vm_compute.
Qed.

(** X19 for the stage right after loading, with the example draws. *)
Lemma director_starts_an_effect_witness :
  let st := loadStage "ab
cd" (Some []) 0 in
  ∃ st' name tstop tnext,
    randomAnimation (λ _, 0%Q) director_draws no_rounding 3000 0 0 st = Some st' ∧
    name ∈ animations ∧
    currentAnimation (animator (page st')) = Some name ∧
    pending (page st') = [(nextHandle (page st), 0%Q)] ∧
    timeouts st' = timeouts st ++ [(tstop, StopTimeout); (tnext, NextTimeout)] ∧
    (3000 + 5000 <= tstop)%Q ∧ (tstop < 3000 + 15000)%Q ∧
    (3000 + 5000 <= tnext)%Q ∧ (tnext < 3000 + 60000)%Q.
Proof.
  apply (director_starts_an_effect (λ _, 0%Q) director_draws no_rounding "ab
cd" (Some [])).
  - intros [|[|[|[|[|i]]]]]; by vm_compute.
  - apply session_load.
Defined.

(** X20 for the page right after loading, with the example draws: the
    second animation begins after 5 s, and the first stop timeout, due after
    9 s, stops it. *)
Lemma stop_timeout_outlives_its_animation_witness :
  let p := loadPage "ab
cd" (Some []) in
  (∃ st1 tstop1 tnext1,
     randomAnimation (λ _, 0%Q) director_draws no_rounding 0 0 0 (mkStage p []) = Some st1 ∧
     timeouts st1 = [(tstop1, StopTimeout); (tnext1, NextTimeout)] ∧
     ∀ start2 now2, ∃ st2 name2 tstop2 tnext2,
       runTimeout (λ _, 0%Q) director_draws no_rounding 1 tnext1 start2 now2 st1 = Some st2 ∧
       name2 ∈ animations ∧
       currentAnimation (animator (page st2)) = Some name2 ∧
       pending (page st2) = [(nextHandle (page st1), start2)] ∧
       timeouts st2 = [(tstop1, StopTimeout); (tstop2, StopTimeout);
                       (tnext2, NextTimeout)] ∧
       (tnext1 + 5000 <= tstop2)%Q ∧
       ∀ clock3 start3 now3, ∃ st3,
         runTimeout (λ _, 0%Q) director_draws no_rounding 0 clock3 start3 now3 st2 = Some st3 ∧
         pending (page st3) = [] ∧
         currentAnimation (animator (page st3)) = None ∧
         timeouts st3 = [(tstop2, StopTimeout); (tnext2, NextTimeout)]) ∧
  (∃ r2 r3, ((0 <= r2)%Q ∧ (r2 < 1)%Q) ∧ ((0 <= r3)%Q ∧ (r3 < 1)%Q) ∧
            (nextDelay r3 < animDuration r2)%Q ∧
            (animDuration r2 < nextDelay r3 + 5000)%Q).
Proof.
  apply (stop_timeout_outlives_its_animation (λ _, 0%Q) director_draws no_rounding "ab
cd" (Some []) 0 0 0).
  - intros [|[|[|[|[|i]]]]]; by vm_compute.
  - apply session_load.
Defined.

(** X29 on a two-row art at frame 6, with the sine of the pulse example. *)
Lemma pulse_grow_stretches_rows_witness :
  let a := new_ASCIIAnimator "ab
cd" in
  ∃ rows,
    (pulseEffect sine_at_frame_6 even_draws a 6 0).1
    = replicate (Z.to_nat (pulseEmptyLines sine_at_frame_6 a 6)) (blankRow a) ++ rows ∧
    Forall2 (λ line r, length r = width a ∧
                       ∃ dups, length dups = length line ∧
                               r = take (width a) (stretch dups line))
            (lines a) rows.
Proof.
  apply (pulse_grow_stretches_rows sine_at_frame_6 even_draws "ab
cd" 6 0). reflexivity.
Defined.

(** X30 on a two-row art with the draws of the glitch example. *)
Lemma glitch_row_kinds_witness :
  let a := new_ASCIIAnimator "ab
cd" in
  Forall2 (λ line r,
             r = line ∨
             (∃ offset, (-5 ≤ offset ≤ 5)%Z ∧ r = shiftRow offset line) ∨
             Forall2 (λ c c', if decide (c = space) then c' = space
                              else c' = c ∨ c' ∈ glitchSymbols) line r)
          (lines a) (glitchEffect glitch_draws a 0 0).1.
Proof.
  apply (glitch_row_kinds glitch_draws).
  intros [|[|[|i]]]; by vm_compute.
Defined.

End AnimatorProofs.

(** ** Properties of the beacon feed and the status widgets *)

Module WidgetsProofs.

Import Widgets.

Local Open Scope nat_scope.

(** *** [escapeHtml] *)

Lemma escapeChar_cases c :
  (c = "&"%char ∧ escapeChar c = txt "&amp;") ∨
  (c = nbsp ∧ escapeChar c = txt "&nbsp;") ∨
  (c = "<"%char ∧ escapeChar c = txt "&lt;") ∨
  (c = ">"%char ∧ escapeChar c = txt "&gt;") ∨
  (escapeChar c = [c] ∧ c ≠ "&"%char ∧ c ≠ nbsp ∧ c ≠ "<"%char ∧ c ≠ ">"%char).
Proof.
  unfold escapeChar, nbsp.
  destruct (decide (c = "&"%char)) as [->|H1]; [by left|].
  destruct (decide (c = ascii_of_nat 160)) as [->|H2]; [by right; left|].
  destruct (decide (c = "<"%char)) as [->|H3]; [by right; right; left|].
  destruct (decide (c = ">"%char)) as [->|H4]; [by right; right; right; left|].
  by repeat right.
Qed.

Lemma escapeHtml_cons c r : escapeHtml (c :: r) = escapeChar c ++ escapeHtml r.
Proof. reflexivity. Qed.

Lemma escapeHtml_app s t : escapeHtml (s ++ t) = escapeHtml s ++ escapeHtml t.
Proof. unfold escapeHtml. apply bind_app. Qed.

Lemma escapeHtml_no_bracket s x :
  x ∈ escapeHtml s → x ≠ "<"%char ∧ x ≠ ">"%char ∧ x ≠ nbsp.
Proof.
  unfold escapeHtml. rewrite list_elem_of_bind. intros (c & Hx & _).
  destruct (escapeChar_cases c)
    as [[-> Hc]|[[-> Hc]|[[-> Hc]|[[-> Hc]|(Hc & H1 & H2 & H3 & H4)]]]];
    rewrite Hc in Hx.
  5: { apply list_elem_of_singleton in Hx. by subst. }
  all: unfold txt in Hx; cbn in Hx;
    repeat (apply elem_of_cons in Hx as [->|Hx]; [by repeat split|]);
    by apply elem_of_nil in Hx.
Qed.

Lemma escapeHtml_inj s t : escapeHtml s = escapeHtml t → s = t.
Proof.
  revert t. induction s as [|c r IH]; intros [|c' r'] H.
  - done.
  - exfalso. rewrite escapeHtml_cons in H.
    destruct (escapeChar_cases c')
      as [[_ Hc]|[[_ Hc]|[[_ Hc]|[[_ Hc]|(Hc & _)]]]]; rewrite Hc in H; done.
  - exfalso. rewrite escapeHtml_cons in H.
    destruct (escapeChar_cases c)
      as [[_ Hc]|[[_ Hc]|[[_ Hc]|[[_ Hc]|(Hc & _)]]]]; rewrite Hc in H; done.
  - rewrite !escapeHtml_cons in H.
    destruct (escapeChar_cases c)
      as [[-> Hc]|[[-> Hc]|[[-> Hc]|[[-> Hc]|(Hc & H1 & H2 & H3 & H4)]]]];
    destruct (escapeChar_cases c')
      as [[-> Hc']|[[-> Hc']|[[-> Hc']|[[-> Hc']|(Hc' & H1' & H2' & H3' & H4')]]]];
    rewrite ?Hc, ?Hc' in H; unfold txt, nbsp in *; cbn in H;
    try discriminate H; simplify_eq; try done; f_equal; by apply IH.
Qed.

(** X21.  The markup [escapeHtml] returns contains neither angle bracket
    (nor a no-break space), so it cannot open or close a tag.  It determines
    the text: different texts have different markup.  It is computed
    character by character, so the markup of a concatenation is the
    concatenation of the markups; it is never shorter than the text, and a
    text without ampersand, angle bracket and no-break space is its own
    markup. *)
Theorem escapeHtml_is_safe_and_faithful s t :
  ("<"%char ∉ escapeHtml s) ∧ (">"%char ∉ escapeHtml s) ∧
  (escapeHtml s = escapeHtml t → s = t) ∧
  escapeHtml (s ++ t) = escapeHtml s ++ escapeHtml t ∧
  length s ≤ length (escapeHtml s) ∧
  (Forall (λ c, c ∉ ["&"%char; "<"%char; ">"%char; ascii_of_nat 160]) s →
   escapeHtml s = s).
Proof.
  split. { intros H. by destruct (escapeHtml_no_bracket _ _ H) as (? & _). }
  split. { intros H. by destruct (escapeHtml_no_bracket _ _ H) as (_ & ? & _). }
  split; [apply escapeHtml_inj|]. split; [apply escapeHtml_app|]. split.
  - induction s as [|c r IH]; [done|]. rewrite escapeHtml_cons, length_app. cbn.
    destruct (escapeChar_cases c)
      as [[_ Hc]|[[_ Hc]|[[_ Hc]|[[_ Hc]|(Hc & _)]]]]; rewrite Hc; cbn; lia.
  - induction 1 as [|c r Hc _ IH]; [done|]. rewrite escapeHtml_cons, IH.
    destruct (escapeChar_cases c)
      as [[-> _]|[[-> _]|[[-> _]|[[-> _]|(-> & _)]]]]; try done;
      exfalso; apply Hc; unfold nbsp; set_solver.
Qed.

(** *** The beacon feed *)

Lemma foldl_push {A B} (f : A → B) (acc : list B) (l : list A) :
  foldl (λ out x, out ++ [f x]) acc l = acc ++ (f <$> l).
Proof.
  revert acc. induction l as [|x l IH]; intros acc; cbn.
  - by rewrite app_nil_r.
  - by rewrite IH, <- app_assoc.
Qed.

Lemma feed_fold acc (bs : list Beacon) :
  foldl (λ feed beacon,
           if isErrorBeacon beacon then feed
           else feed ++ [Entry (beaconEntry beacon)]) acc bs
  = acc ++ (Entry ∘ beaconEntry <$> filter (λ b, isErrorBeacon b = false) bs).
Proof.
  revert acc. induction bs as [|b bs IH]; intros acc; cbn [foldl].
  - by rewrite filter_nil, app_nil_r.
  - rewrite IH. destruct (isErrorBeacon b) eqn:E.
    + by rewrite filter_cons_False by congruence.
    + rewrite filter_cons_True by done. by rewrite fmap_cons, <- app_assoc.
Qed.

Lemma updateBeacon_entries bs :
  bs ≠ [] →
  updateBeacon (Some bs)
  = (Entry ∘ beaconEntry <$> filter (λ b, isErrorBeacon b = false) bs).
Proof. destruct bs as [|b bs]; [done|]. intros _. unfold updateBeacon. by rewrite feed_fold. Qed.

Lemma markup_safe (s : Text) :
  ("<"%char ∉ escapeHtml s) ∧ (">"%char ∉ escapeHtml s).
Proof.
  split; intros H; by destruct (escapeHtml_no_bracket _ _ H) as (? & ? & _).
Qed.

Lemma tweetLine_safe tweet markup :
  markup ∈ [(tweetLine tweet).1; (tweetLine tweet).2] →
  ("<"%char ∉ markup) ∧ (">"%char ∉ markup).
Proof.
  intros [->|[->|[]%elem_of_nil]%elem_of_cons]%elem_of_cons;
    cbn [tweetLine fst snd]; [apply markup_safe|].
  rewrite !not_elem_of_app.
  destruct (markup_safe (take 150 (orElse (tweet_text tweet)
                                     (orElse (tweet_content tweet) [])))) as [H1 H2].
  destruct (_ <? _).
  - split; (split; [done|Reconciler.by_evaluation]).
  - split; (split; [done|apply not_elem_of_nil]).
Qed.

Lemma postLine_safe post markup :
  markup ∈ [(postLine post).1; (postLine post).2] →
  ("<"%char ∉ markup) ∧ (">"%char ∉ markup).
Proof.
  intros [->|[->|[]%elem_of_nil]%elem_of_cons]%elem_of_cons;
    cbn [postLine fst snd]; [|apply markup_safe].
  rewrite !not_elem_of_cons.
  destruct (markup_safe (orElse (post_author post) (txt "unknown"))) as [H1 H2].
  by repeat split.
Qed.

Lemma entry_markup_safe b markup :
  markup ∈ entryMarkup (Entry (beaconEntry b)) →
  ("<"%char ∉ markup) ∧ (">"%char ∉ markup).
Proof.
  unfold beaconEntry.
  assert (∀ ts, markup ∈ (tweetLine <$> ts) ≫= (λ l, [l.1; l.2]) →
                ("<"%char ∉ markup) ∧ (">"%char ∉ markup)) as Htweets.
  { intros ts (l & Hm & (x & -> & _)%list_elem_of_fmap)%list_elem_of_bind.
    by eapply tweetLine_safe. }
  assert (∀ ps, markup ∈ (postLine <$> ps) ≫= (λ l, [l.1; l.2]) →
                ("<"%char ∉ markup) ∧ (">"%char ∉ markup)) as Hposts.
  { intros ps (l & Hm & (x & -> & _)%list_elem_of_fmap)%list_elem_of_bind.
    by eapply postLine_safe. }
  assert (markup ∈ entryMarkup
            (Entry match tweets b with
                   | Some ts =>
                       Signals (orElse (phase b) (txt "UNKNOWN")) (beacon_timestamp b)
                         (foldl (λ tweetsHtml tweet, tweetsHtml ++ [tweetLine tweet]) [] ts)
                         (match tweet_count b with
                          | Some n => if decide (n = 0%Z) then None else Some n
                          | None => None
                          end)
                   | None =>
                       match posts b with
                       | Some (p :: ps) =>
                           Intercept (beacon_timestamp b)
                             (foldl (λ postsHtml post, postsHtml ++ [postLine post])
                                    [] (p :: ps))
                       | _ => EmptyEntry
                       end
                   end) →
          ("<"%char ∉ markup) ∧ (">"%char ∉ markup)) as Hrest.
  { destruct (tweets b) as [ts|].
    - cbn [entryMarkup]. rewrite foldl_push, app_nil_l. apply Htweets.
    - destruct (posts b) as [[|p ps]|]; try (by intros []%elem_of_nil).
      cbn [entryMarkup]. rewrite foldl_push, app_nil_l. apply Hposts. }
  destruct (formatted b) as [[|c r]|]; [exact Hrest| |exact Hrest].
  intros ->%list_elem_of_singleton. apply markup_safe.
Qed.

(** X22.  For a non-empty array of beacons the feed gets one entry for
    every beacon that is not a lone error tweet, in the order of the array,
    and nothing else: never the NO SIGNAL banner, so an array of error
    beacons only leaves the feed empty.  A missing or empty array gives the
    banner alone.  No line of an entry (formatted text, author, or text of a
    tweet or post) contains an angle bracket. *)
Theorem beacon_feed_entries (bs : list Beacon) :
  bs ≠ [] →
  updateBeacon (Some bs)
  = (Entry ∘ beaconEntry <$> filter (λ b, isErrorBeacon b = false) bs) ∧
  (NoSignal ∉ updateBeacon (Some bs)) ∧
  length (updateBeacon (Some bs)) ≤ length bs ∧
  (Forall (λ b, isErrorBeacon b = true) bs → updateBeacon (Some bs) = []) ∧
  (∀ child markup, child ∈ updateBeacon (Some bs) → markup ∈ entryMarkup child →
     ("<"%char ∉ markup) ∧ (">"%char ∉ markup)) ∧
  updateBeacon None = [NoSignal] ∧ updateBeacon (Some []) = [NoSignal].
Proof.
  intros Hne. rewrite (updateBeacon_entries bs Hne).
  split; [done|]. split; [|split; [|split; [|split; [|done]]]].
  - intros (b & Hb & _)%list_elem_of_fmap. done.
  - rewrite length_fmap. apply length_filter.
  - intros Hall. rewrite ReconcilerProofs.filter_none; [done|]. intros b Hb Hf.
    eapply Forall_forall in Hall; [|done]. congruence.
  - intros child markup (b & -> & _)%list_elem_of_fmap. apply entry_markup_safe.
Qed.

(** *** The beacon counter *)

Lemma small_counts_fit :
  forallb (λ i, length (txt (pretty (Z.of_nat i))) <=? 3) (seq 0 1000) = true.
Proof. by vm_compute. Qed.

(** X23.  [updateStats] leaves the counters alone when the statistics or
    the count are missing.  Otherwise the counter shows the decimal form of
    the count behind as many zeros as bring it to three characters, and the
    mobile counter, if the page has one, shows the same text; for a count
    from 0 to 999 these are exactly three characters. *)
Theorem beacon_counter_has_three_digits (n : Z) (c : Counters) :
  updateStats None c = c ∧
  updateStats (Some (mkStats None)) c = c ∧
  let c' := updateStats (Some (mkStats (Some n))) c in
  let digits := txt (pretty n) in
  beaconCount c' = replicate (3 - length digits) "0"%char ++ digits ∧
  length (beaconCount c') = 3 `max` length digits ∧
  mobileBeaconCount c'
  = (match mobileBeaconCount c with Some _ => Some (beaconCount c') | None => None end) ∧
  ((0 ≤ n < 1000)%Z → length (beaconCount c') = 3).
Proof.
  split; [done|]. split; [done|]. intros c' digits.
  assert (length (beaconCount c') = 3 `max` length digits) as Hlen.
  { cbn. unfold padStart. fold digits. rewrite length_app, length_replicate. lia. }
  split; [done|]. split; [done|].
  split; [subst c'; cbn; by destruct (mobileBeaconCount c)|].
  intros Hn. rewrite Hlen.
  pose proof small_counts_fit as Hall. rewrite forallb_forall in Hall.
  specialize (Hall (Z.to_nat n)). rewrite Z2Nat.id in Hall by lia.
  fold digits in Hall. apply Nat.leb_le in Hall; [lia|].
  apply in_seq. lia.
Qed.

(** *** The memory display *)

Lemma Math_max_spec x y : (Math_max x y == x ∧ y <= x)%Q ∨ (Math_max x y == y ∧ x <= y)%Q.
Proof.
  unfold Math_max. destruct (Qle_bool x y) eqn:E.
  - right. split; [reflexivity|]. by apply Qle_bool_iff.
  - left. split; [reflexivity|]. apply Qlt_le_weak, Qnot_le_lt. intros H.
    apply Qle_bool_iff in H. congruence.
Qed.

Lemma Math_min_spec x y : (Math_min x y == x ∧ x <= y)%Q ∨ (Math_min x y == y ∧ y <= x)%Q.
Proof.
  unfold Math_min. destruct (Qle_bool x y) eqn:E.
  - left. split; [reflexivity|]. by apply Qle_bool_iff.
  - right. split; [reflexivity|]. apply Qlt_le_weak, Qnot_le_lt. intros H.
    apply Qle_bool_iff in H. congruence.
Qed.

Lemma clamp_between (x lo hi : Q) :
  (10 <= lo)%Q → (hi <= 99)%Q → (lo <= x)%Q → (x <= hi)%Q →
  (lo <= Math_min 99 (Math_max 10 x) ∧ Math_min 99 (Math_max 10 x) <= hi)%Q.
Proof.
  intros H10 H99 Hlo Hhi.
  destruct (Math_min_spec 99 (Math_max 10 x)) as [[E H]|[E H]];
    destruct (Math_max_spec 10 x) as [[E' H']|[E' H']]; rewrite ?E, ?E' in *;
    split; lra.
Qed.

(** What a rounding to nearest gives between two numbers it leaves as they
    are. *)
Lemma round_between (round : Q → Q) (lo hi : Z) (x : Q) :
  (∀ x y, x <= y → round x <= round y)%Q →
  (round (lo # 2) == lo # 2)%Q → (round (hi # 2) == hi # 2)%Q →
  (lo # 2 <= x)%Q → (x <= hi # 2)%Q →
  (lo # 2 <= round x ∧ round x <= hi # 2)%Q.
Proof.
  intros Hmono Elo Ehi Hlo Hhi. split.
  - rewrite <- Elo. by apply Hmono.
  - rewrite <- Ehi. by apply Hmono.
Qed.

Lemma half_of_double (n : Z) : (inject_Z n == (2 * n) # 2)%Q.
Proof. unfold Qeq, inject_Z. cbn. lia. Qed.

(** X24.  Whatever the display shows, whatever the draw and however the
    operations round, the memory value [updateMemory] writes is an integer
    from 10 to 99, and the mobile display, if the page has one, shows the
    same text.  When the display shows a number from 15 to 94 and the draw
    is in [0, 1), the new value differs from it by at most 5, for every
    rounding that is monotone and leaves the halves of the integers up to
    198 in magnitude as they are, as the rounding of doubles does.  When no
    operation rounds, the new value is at most 4 above. *)
Theorem memory_stays_in_range (parseInt : Text → option Z) (round : Q → Q)
        (r : Q) (d : MemoryDisplays) :
  let v := memValue parseInt round (memoryDisplay d) r in
  let d' := updateMemory parseInt round r d in
  (10 ≤ v ≤ 99)%Z ∧
  memoryDisplay d' = txt (pretty v) ∧
  mobileMemory d'
  = (match mobileMemory d with Some _ => Some (memoryDisplay d') | None => None end) ∧
  (∀ b, parseInt (memoryDisplay d) = Some b → (15 ≤ b ≤ 94)%Z →
        (0 <= r)%Q → (r < 1)%Q →
        ((∀ x y, x <= y → round x <= round y)%Q →
         (∀ k, (-198 ≤ k ≤ 198)%Z → round (k # 2) == k # 2)%Q →
         (b - 5 ≤ v ≤ b + 5)%Z) ∧
        ((∀ x, round x = x) → (b - 5 ≤ v ≤ b + 4)%Z)).
Proof.
  intros v d'.
  split; [|split; [done|split; [subst d'; cbn; by destruct (mobileMemory d)|]]].
  - subst v. unfold memValue.
    set (x := round (inject_Z _ + _)%Q).
    apply AnimatorProofs.Qfloor_within.
    + destruct (Math_min_spec 99 (Math_max 10 x)) as [[-> _]|[-> _]]; [done|].
      destruct (Math_max_spec 10 x) as [[-> _]|[-> H]]; [done|exact H].
    + destruct (Math_min_spec 99 (Math_max 10 x)) as [[-> _]|[-> H]]; [done|exact H].
  - intros b Hb Hrange H0 H1. subst v. unfold memValue. rewrite Hb.
    rewrite decide_False by lia.
    assert (inject_Z 10 <= inject_Z (b - 5))%Q as H10 by (rewrite <- Zle_Qle; lia).
    assert (inject_Z (b + 5) <= inject_Z 99)%Q as H99 by (rewrite <- Zle_Qle; lia).
    split.
    + intros Hmono Hexact.
      destruct (round_between round (-1) 1 (r - (1 # 2))%Q Hmono) as [A1 A2];
        [apply Hexact; lia|apply Hexact; lia|lra|lra|].
      set (c0 := round (r - (1 # 2))%Q) in *.
      destruct (round_between round (-10) 10 (c0 * 10)%Q Hmono) as [B1 B2];
        [apply Hexact; lia|apply Hexact; lia|lra|lra|].
      set (c1 := round (c0 * 10)%Q) in *.
      destruct (round_between round (2 * (b - 5)) (2 * (b + 5)) (inject_Z b + c1)%Q Hmono)
        as [C1 C2]; [apply Hexact; lia|apply Hexact; lia| | |].
      { rewrite <- half_of_double. unfold Z.sub. rewrite inject_Z_plus.
        change (inject_Z (- (5))) with (- (5))%Q. lra. }
      { rewrite <- half_of_double, inject_Z_plus. change (inject_Z 5) with 5%Q. lra. }
      set (x := round (inject_Z b + c1)%Q) in *.
      rewrite <- half_of_double in C1, C2.
      destruct (clamp_between x (inject_Z (b - 5)) (inject_Z (b + 5))) as [D1 D2];
        [done..|].
      by apply AnimatorProofs.Qfloor_within.
    + intros Hid. rewrite !Hid.
      set (x := (inject_Z b + (r - (1 # 2)) * 10)%Q).
      assert (inject_Z (b - 5) <= x)%Q as Hlo.
      { unfold x, Z.sub. rewrite inject_Z_plus. change (inject_Z (- (5))) with (- (5))%Q. lra. }
      assert (x < inject_Z (b + 5))%Q as Hhi.
      { unfold x. rewrite inject_Z_plus. change (inject_Z 5) with 5%Q. lra. }
      assert (Math_min 99 (Math_max 10 x) == x)%Q as ->.
      { destruct (Math_min_spec 99 (Math_max 10 x)) as [[E H]|[E H]];
          destruct (Math_max_spec 10 x) as [[E' H']|[E' H']]; rewrite ?E, ?E' in *;
          change (inject_Z 10) with 10%Q in *; change (inject_Z 99) with 99%Q in *; lra. }
      destruct (AnimatorProofs.Qfloor_between x (b - 5) (b + 5) Hlo Hhi). lia.
Qed.

(** X24 in doubles, for a display that shows 50 and the largest draw below
    1: the change rounds to 5 less two units in the last place and the sum
    rounds to 55, which is the value written.  Without rounding the value
    is 54. *)
Lemma memory_stays_in_range_witness :
  let d := mkMemoryDisplays (txt "50") (Some (txt "50")) in
  let r := (4503599627370495 # 4503599627370496)%Q in
  let v := memValue (λ _, Some 50%Z) Doubles.binary64 (memoryDisplay d) r in
  let d' := updateMemory (λ _, Some 50%Z) Doubles.binary64 r d in
  let w := memValue (λ _, Some 50%Z) Animator.no_rounding (memoryDisplay d) r in
  (v = 55%Z ∧ (50 - 5 ≤ v ≤ 50 + 5)%Z ∧
   memoryDisplay d' = txt "55" ∧ mobileMemory d' = Some (txt "55")) ∧
  (w = 54%Z ∧ (50 - 5 ≤ w ≤ 50 + 4)%Z).
Proof.
  cbv zeta. split.
  - destruct (memory_stays_in_range (λ _, Some 50%Z) Doubles.binary64
                (4503599627370495 # 4503599627370496)%Q
                (mkMemoryDisplays (txt "50") (Some (txt "50"))))
      as (_ & H2 & H3 & H4).
    destruct (H4 50%Z eq_refl) as [Hb _]; [lia|done|done|].
    split; [by vm_compute|]. split.
    + apply Hb; [exact DoublesProofs.binary64_mono|exact DoublesProofs.binary64_halves].
    + split; [rewrite H2|rewrite H3, H2]; by vm_compute.
  - destruct (memory_stays_in_range (λ _, Some 50%Z) Animator.no_rounding
                (4503599627370495 # 4503599627370496)%Q
                (mkMemoryDisplays (txt "50") (Some (txt "50"))))
      as (_ & _ & _ & H4).
    destruct (H4 50%Z eq_refl) as [_ Hb]; [lia|done|done|].
    split; [by vm_compute|]. by apply Hb.
Defined.

(** *** The beacon icon *)

Lemma animateBeaconIcon_iter frames i n shown :
  frames ≠ [] → iconFrame i < length frames → beaconIcon i = Some shown →
  iconFrame (Nat.iter n (animateBeaconIcon frames) i)
  = (iconFrame i + n) `mod` length frames ∧
  is_Some (beaconIcon (Nat.iter n (animateBeaconIcon frames) i)) ∧
  (0 < n → beaconIcon (Nat.iter n (animateBeaconIcon frames) i)
           = frames !! ((iconFrame i + n - 1) `mod` length frames)).
Proof.
  intros Hne Hlt Hshown.
  assert (length frames ≠ 0) as HL by (by destruct frames).
  induction n as [|n (IH1 & [old IH2] & IH3)].
  - cbn. rewrite Nat.add_0_r, Nat.mod_small by done. split; [done|].
    split; [by rewrite Hshown|lia].
  - rewrite !Nat.iter_succ. set (j := Nat.iter n (animateBeaconIcon frames) i) in *.
    assert (animateBeaconIcon frames j
            = mkIcon ((iconFrame j + 1) `mod` length frames)
                     (Some (default (txt "undefined") (frames !! iconFrame j)))) as ->.
    { unfold animateBeaconIcon. by rewrite IH2. }
    cbn [iconFrame beaconIcon]. rewrite IH1. split; [|split; [done|]].
    + rewrite Nat.Div0.add_mod_idemp_l. f_equal. lia.
    + intros _. replace (iconFrame i + S n - 1) with (iconFrame i + n) by lia.
      destruct (frames !! ((iconFrame i + n) `mod` length frames)) as [f|] eqn:E;
        [done|].
      apply lookup_ge_None in E.
      pose proof (Nat.mod_upper_bound (iconFrame i + n) (length frames) HL). lia.
Qed.

Lemma animateBeaconIcon_absent frames n k :
  Nat.iter n (animateBeaconIcon frames) (mkIcon k None) = mkIcon k None.
Proof. induction n as [|m IH]; [done|]. by rewrite Nat.iter_succ, IH. Qed.

(** X25.  With a non-empty array of frames and an icon element, the frame
    index stays inside the array and the icon always shows a frame of the
    array, never [undefined]: after [n] ticks the index has advanced by [n]
    modulo the number of frames, so the icon runs through the frames in
    order and starts again.  Without an icon element a tick changes
    nothing. *)
Theorem beacon_icon_cycles (frames : list Text) (i : Icon) (n : nat) shown :
  frames ≠ [] → iconFrame i < length frames → beaconIcon i = Some shown →
  let j := Nat.iter n (animateBeaconIcon frames) i in
  iconFrame j < length frames ∧
  iconFrame j = (iconFrame i + n) `mod` length frames ∧
  (0 < n → ∃ f, frames !! ((iconFrame i + n - 1) `mod` length frames) = Some f
               ∧ beaconIcon j = Some f) ∧
  Nat.iter (length frames) (animateBeaconIcon frames) j
  = Nat.iter (length frames) (animateBeaconIcon frames)
      (Nat.iter (length frames) (animateBeaconIcon frames) j) ∧
  (∀ k, Nat.iter n (animateBeaconIcon frames) (mkIcon k None) = mkIcon k None).
Proof.
  intros Hne Hlt Hshown j.
  assert (length frames ≠ 0) as HL by (by destruct frames).
  destruct (animateBeaconIcon_iter frames i n shown Hne Hlt Hshown) as (H1 & [cur H2] & H3).
  fold j in H1, H2, H3.
  assert (iconFrame j < length frames) as Hj.
  { rewrite H1. by apply Nat.mod_upper_bound. }
  split; [done|]. split; [done|]. split; [|split].
  - intros Hn.
    destruct (frames !! ((iconFrame i + n - 1) `mod` length frames)) as [f|] eqn:E.
    + exists f. split; [done|]. by rewrite H3.
    + apply lookup_ge_None in E.
      pose proof (Nat.mod_upper_bound (iconFrame i + n - 1) (length frames) HL). lia.
  - set (L := length frames) in *.
    assert (0 < L) as HLpos by lia.
    destruct (animateBeaconIcon_iter frames j L cur Hne Hj H2) as (A1 & [c1 A2] & A3).
    set (j1 := Nat.iter L (animateBeaconIcon frames) j) in *.
    assert (iconFrame j1 < L) as Hj1 by (rewrite A1; by apply Nat.mod_upper_bound).
    destruct (animateBeaconIcon_iter frames j1 L c1 Hne Hj1 A2) as (B1 & [c2 B2] & B3).
    set (j2 := Nat.iter L (animateBeaconIcon frames) j1) in *.
    assert (iconFrame j1 = iconFrame j) as Hsame.
    { rewrite A1. replace (iconFrame j + L) with (iconFrame j + 1 * L) by lia.
      rewrite Nat.Div0.mod_add. by apply Nat.mod_small. }
    destruct j1 as [f1 t1], j2 as [f2 t2]. cbn in *. f_equal.
    + rewrite B1, Hsame. replace (iconFrame j + L) with (iconFrame j + 1 * L) by lia.
      rewrite Nat.Div0.mod_add. symmetry. by apply Nat.mod_small.
    + rewrite (A3 HLpos), (B3 HLpos), Hsame. done.
  - intros k. apply animateBeaconIcon_absent.
Qed.

(** *** The theme switcher *)

Lemma setButton_setButton a b button :
  setButton a (setButton b button) = setButton a button.
Proof. by destruct button. Qed.

Lemma toggles_keep_in_step saved desktop mobile n t :
  t = Nat.iter n toggleTheme (setupThemeSwitcher (servedPage saved desktop mobile)) →
  desktopButton t = setButton (themeLabel (bodyInverted t)) desktop ∧
  mobileButton t = setButton (themeLabel (bodyInverted t)) mobile ∧
  (bodyInverted t = false ↔ savedTheme t = Some "normal") ∧
  (0 < n → savedTheme t = Some (if bodyInverted t then "inverted" else "normal")).
Proof.
  revert t. induction n as [|n IH]; intros t ->.
  - cbn [Nat.iter nat_rect]. unfold setupThemeSwitcher, servedPage. cbn [savedTheme].
    destruct (decide (saved = Some "normal")) as [->|Hs]; cbn.
    + split; [done|]. split; [done|]. split; [done|lia].
    + split; [done|]. split; [done|]. split; [|lia]. split; [done|]. by intros.
  - rewrite Nat.iter_succ. destruct (IH _ eq_refl) as (Hd & Hm & Hs & _).
    set (t := Nat.iter n toggleTheme _) in *. unfold toggleTheme.
    cbn [updateThemeButton bodyInverted savedTheme desktopButton mobileButton].
    rewrite Hd, Hm, !setButton_setButton. fold (themeLabel (negb (bodyInverted t))).
    split; [done|]. split; [done|]. split; [|done].
    destruct (bodyInverted t); cbn; split; done.
Qed.

(** X26.  On the page the server sends (its body carries [inverted]),
    after the set-up and any number of clicks on a theme button: each button
    shows REVERT when the body is inverted and INVERT when it is not; after
    at least one click the stored theme names the state of the body; and a
    reload of the page, which keeps the stored theme, brings the body and
    the buttons back to that state.  Two clicks restore the state of the
    body. *)
Theorem theme_survives_reload saved desktop mobile desktop' mobile' n :
  let t := Nat.iter n toggleTheme (setupThemeSwitcher (servedPage saved desktop mobile)) in
  let reloaded := setupThemeSwitcher (servedPage (savedTheme t) desktop' mobile') in
  desktopButton t
  = setButton (if bodyInverted t then "[REVERT]" else "[INVERT]") desktop ∧
  mobileButton t
  = setButton (if bodyInverted t then "[REVERT]" else "[INVERT]") mobile ∧
  (0 < n → savedTheme t = Some (if bodyInverted t then "inverted" else "normal")) ∧
  bodyInverted reloaded = bodyInverted t ∧
  desktopButton reloaded
  = setButton (if bodyInverted t then "[REVERT]" else "[INVERT]") desktop' ∧
  mobileButton reloaded
  = setButton (if bodyInverted t then "[REVERT]" else "[INVERT]") mobile' ∧
  savedTheme reloaded = savedTheme t ∧
  bodyInverted (toggleTheme (toggleTheme t)) = bodyInverted t.
Proof.
  intros t reloaded.
  destruct (toggles_keep_in_step saved desktop mobile n t eq_refl) as (Hd & Hm & Hs & Hn).
  split; [done|]. split; [done|]. split; [done|].
  assert (bodyInverted reloaded = bodyInverted t ∧
          desktopButton reloaded = setButton (themeLabel (bodyInverted t)) desktop' ∧
          mobileButton reloaded = setButton (themeLabel (bodyInverted t)) mobile' ∧
          savedTheme reloaded = savedTheme t) as (H1 & H2 & H3 & H4).
  { subst reloaded. unfold setupThemeSwitcher, servedPage. cbn [savedTheme].
    destruct (decide (savedTheme t = Some "normal")) as [E|E]; cbn.
    - apply Hs in E. by rewrite E.
    - destruct (bodyInverted t) eqn:Eb; [done|]. exfalso. by apply E, Hs. }
  split; [done|]. split; [done|]. split; [done|]. split; [done|].
  cbn. by rewrite negb_involutive.
Qed.

(** *** The typewriter *)

Lemma charAt_lookup (text : Text) i c : text !! i = Some c → charAt text i = [c].
Proof. intros H. unfold charAt. by rewrite (drop_S _ _ _ H). Qed.

Lemma typing_prefix shown (text : Text) n :
  n < length text →
  afterTimeouts text n (typewriterEffect shown text)
  = mkTypewriter (shown ++ take (S n) text) (S n) true true 0.
Proof.
  induction n as [|n IH]; intros Hn.
  - cbn. unfold typewriterEffect, type. cbn [index elementText indicatorActive finished].
    rewrite (proj2 (Nat.ltb_lt 0 (length text))) by done.
    destruct text as [|c r]; [cbn in Hn; lia|]. done.
  - unfold afterTimeouts in *. rewrite Nat.iter_succ, IH by lia.
    unfold type. cbn [index elementText indicatorActive finished].
    rewrite (proj2 (Nat.ltb_lt (S n) (length text))) by done.
    destruct (lookup_lt_is_Some_2 text (S n) Hn) as [c Hc].
    rewrite (charAt_lookup _ _ _ Hc), <- app_assoc, <- (take_S_r _ _ _ Hc). done.
Qed.

(** X27.  [typewriterEffect] shows the text character by character behind
    what the element showed: after the call and [n] runs of its timeout
    (with [n] below the length of the text) the element shows the first
    [n + 1] characters, the typing indicator is active and a timeout is
    registered.  After as many runs as the text has characters the whole
    text is shown, the indicator is inactive, no timeout is registered, and
    the end was reached exactly once. *)
Theorem typewriter_types_the_text shown (text : Text) n :
  n < length text →
  afterTimeouts text n (typewriterEffect shown text)
  = mkTypewriter (shown ++ take (S n) text) (S n) true true 0 ∧
  afterTimeouts text (length text) (typewriterEffect shown text)
  = mkTypewriter (shown ++ text) (length text) false false 1 ∧
  afterTimeouts [] 0 (typewriterEffect shown []) = mkTypewriter shown 0 false false 1.
Proof.
  intros Hn. split; [by apply typing_prefix|]. split; [|done].
  destruct (length text) as [|m] eqn:E; [lia|].
  unfold afterTimeouts. rewrite Nat.iter_succ.
  pose proof (typing_prefix shown text m) as Hm. unfold afterTimeouts in Hm.
  rewrite Hm by lia. unfold type. cbn [index elementText indicatorActive finished].
  rewrite E, Nat.ltb_irrefl. by rewrite <- E, take_ge by lia.
Qed.

(** *** The clean-up of repeated lines *)

Import Animator.

Lemma dedupe_short seen ls :
  filter (λ l, ¬ isLong l) (dedupe seen ls) = filter (λ l, ¬ isLong l) ls.
Proof.
  revert seen. induction ls as [|line r IH]; intros seen; [done|].
  cbn [dedupe]. destruct (60 <? length (trim line)) eqn:E.
  - apply Nat.ltb_lt in E.
    rewrite (filter_cons_False _ line r) by (intros H; by apply H).
    destruct (bool_decide (trim line ∈ seen)); [apply IH|].
    rewrite filter_cons_False by (intros H; by apply H). apply IH.
  - apply Nat.ltb_ge in E.
    rewrite !filter_cons_True by (unfold isLong; lia). by rewrite IH.
Qed.

Lemma dedupe_sublist seen ls : sublist (dedupe seen ls) ls.
Proof.
  revert seen. induction ls as [|line r IH]; intros seen; [done|].
  cbn [dedupe]. destruct (60 <? length (trim line)).
  - destruct (bool_decide (trim line ∈ seen)).
    + apply sublist_cons, IH.
    + apply sublist_skip, IH.
  - apply sublist_skip, IH.
Qed.

Lemma dedupe_long_keys seen ls l :
  l ∈ dedupe seen ls → isLong l → trim l ∉ seen.
Proof.
  revert seen. induction ls as [|line r IH]; intros seen Hin Hlong.
  { by apply elem_of_nil in Hin. }
  cbn [dedupe] in Hin. destruct (60 <? length (trim line)) eqn:E.
  - destruct (bool_decide_reflect (trim line ∈ seen)) as [Hs|Hs]; [by eapply IH|].
    apply elem_of_cons in Hin as [->|Hin]; [done|].
    specialize (IH _ Hin Hlong). set_solver.
  - apply Nat.ltb_ge in E. apply elem_of_cons in Hin as [->|Hin]; [|by eapply IH].
    unfold isLong in Hlong. lia.
Qed.

Lemma dedupe_NoDup seen ls :
  NoDup (trim <$> filter isLong (dedupe seen ls)).
Proof.
  revert seen. induction ls as [|line r IH]; intros seen; [constructor|].
  cbn [dedupe]. destruct (60 <? length (trim line)) eqn:E.
  - apply Nat.ltb_lt in E.
    destruct (bool_decide (trim line ∈ seen)); [apply IH|].
    rewrite filter_cons_True by done. rewrite fmap_cons. constructor; [|apply IH].
    intros (l & Hl & Hin)%list_elem_of_fmap.
    apply list_elem_of_filter in Hin as [Hlong Hin].
    pose proof (dedupe_long_keys _ _ _ Hin Hlong) as Hn. set_solver.
  - apply Nat.ltb_ge in E.
    rewrite filter_cons_False by (unfold isLong; lia). apply IH.
Qed.

Lemma dedupe_keeps_a_copy seen ls l :
  l ∈ ls → isLong l → trim l ∉ seen →
  ∃ l', l' ∈ dedupe seen ls ∧ trim l' = trim l.
Proof.
  revert seen. induction ls as [|line r IH]; intros seen Hin Hlong Hs.
  { by apply elem_of_nil in Hin. }
  cbn [dedupe]. apply elem_of_cons in Hin as [->|Hin].
  - unfold isLong in Hlong. rewrite (proj2 (Nat.ltb_lt _ _) Hlong).
    rewrite bool_decide_eq_false_2 by done. exists line. split; [left|done].
  - destruct (60 <? length (trim line)) eqn:E.
    + destruct (bool_decide_reflect (trim line ∈ seen)) as [Hs'|Hs'].
      * by apply IH.
      * destruct (decide (trim line = trim l)) as [Heq|Hne].
        -- exists line. split; [left|done].
        -- destruct (IH ({[trim line]} ∪ seen) Hin Hlong) as (l' & Hl' & Ht).
           { rewrite not_elem_of_union, not_elem_of_singleton. by split. }
           exists l'. split; [by right|done].
    + destruct (IH seen Hin Hlong Hs) as (l' & Hl' & Ht).
      exists l'. split; [by right|done].
Qed.

Lemma dedupe_fixed seen ls :
  (∀ l, l ∈ ls → isLong l → trim l ∉ seen) →
  NoDup (trim <$> filter isLong ls) →
  dedupe seen ls = ls.
Proof.
  revert seen. induction ls as [|line r IH]; intros seen Hs Hnd; [done|].
  cbn [dedupe]. destruct (60 <? length (trim line)) eqn:E.
  - apply Nat.ltb_lt in E.
    rewrite bool_decide_eq_false_2 by (apply Hs; [left|done]).
    rewrite filter_cons_True, fmap_cons in Hnd by done.
    apply NoDup_cons in Hnd as [Hni Hnd]. f_equal. apply IH; [|done].
    intros l Hl Hlong. rewrite not_elem_of_union, not_elem_of_singleton. split.
    + intros Heq. apply Hni. rewrite <- Heq. apply list_elem_of_fmap_2.
      by apply list_elem_of_filter.
    + apply Hs; [by right|done].
  - apply Nat.ltb_ge in E.
    rewrite filter_cons_False in Hnd by (unfold isLong; lia).
    f_equal. apply IH; [|done]. intros l Hl. apply Hs. by right.
Qed.

(** X28.  The clean-up of [applyProposalHighlight] only drops lines, and
    only lines whose trimmed text is longer than 60 characters and occurred
    in an earlier line: the lines kept are in their order, all lines of at
    most 60 trimmed characters are kept, every longer text is kept once and
    not twice.  Cleaning the cleaned text again changes nothing. *)
Theorem cleanup_drops_repeated_long_lines (raw : Text) :
  let ls := splitLines raw in
  let kept := dedupe ∅ ls in
  sublist kept ls ∧
  filter (λ l, ¬ isLong l) kept = filter (λ l, ¬ isLong l) ls ∧
  NoDup (trim <$> filter isLong kept) ∧
  (∀ l, l ∈ ls → isLong l → ∃ l', l' ∈ kept ∧ trim l' = trim l) ∧
  splitLines (cleaned raw) = kept ∧
  cleaned (cleaned raw) = cleaned raw.
Proof.
  intros ls kept.
  assert (splitLines (cleaned raw) = kept) as Hsplit.
  { unfold cleaned. fold ls. fold kept. apply AnimatorProofs.splitLines_joinLines.
    - subst kept. destruct ls as [|l0 r] eqn:E.
      + by destruct (AnimatorProofs.splitLines_nonempty raw).
      + cbn [dedupe]. rewrite bool_decide_eq_false_2 by set_solver.
        by destruct (60 <? length (trim l0)).
    - eapply Forall_forall. intros l Hl.
      pose proof (AnimatorProofs.splitLines_no_newline raw) as Hall.
      eapply Forall_forall in Hall; [exact Hall|].
      eapply elem_of_sublist; [exact Hl|]. apply dedupe_sublist. }
  split; [apply dedupe_sublist|]. split; [apply dedupe_short|].
  split; [apply dedupe_NoDup|]. split.
  { intros l Hl Hlong. apply dedupe_keeps_a_copy; [done|done|set_solver]. }
  split; [done|].
  unfold cleaned at 1. rewrite Hsplit. unfold cleaned. fold ls. fold kept. f_equal.
  apply dedupe_fixed; [set_solver|apply dedupe_NoDup].
Qed.

(** *** Instances *)

(** X22 for a feed of an error beacon and a beacon with formatted text. *)
Lemma beacon_feed_entries_witness :
  let bs := [mkBeacon None (Some [mkTweet (Some (txt "error")) None None
                                          (Some (txt "rate limit")) None])
                      None None 0 None;
             mkBeacon (Some (txt "<b>signal</b>")) None None None 0 None] in
  updateBeacon (Some bs)
  = (Entry ∘ beaconEntry <$> filter (λ b, isErrorBeacon b = false) bs) ∧
  (NoSignal ∉ updateBeacon (Some bs)) ∧
  length (updateBeacon (Some bs)) ≤ length bs ∧
  (Forall (λ b, isErrorBeacon b = true) bs → updateBeacon (Some bs) = []) ∧
  (∀ child markup, child ∈ updateBeacon (Some bs) → markup ∈ entryMarkup child →
     ("<"%char ∉ markup) ∧ (">"%char ∉ markup)) ∧
  updateBeacon None = [NoSignal] ∧ updateBeacon (Some []) = [NoSignal].
Proof.
  intros bs. apply (beacon_feed_entries bs). done.
Defined.

(** X25 for the script's four frames (here numbered), after six ticks. *)
Lemma beacon_icon_cycles_witness :
  let frames := txt <$> ["0"; "1"; "2"; "3"] in
  let i := mkIcon 0 (Some []) in
  let j := Nat.iter 6 (animateBeaconIcon frames) i in
  iconFrame j < length frames ∧
  iconFrame j = (iconFrame i + 6) `mod` length frames ∧
  (0 < 6 → ∃ f, frames !! ((iconFrame i + 6 - 1) `mod` length frames) = Some f
               ∧ beaconIcon j = Some f) ∧
  Nat.iter (length frames) (animateBeaconIcon frames) j
  = Nat.iter (length frames) (animateBeaconIcon frames)
      (Nat.iter (length frames) (animateBeaconIcon frames) j) ∧
  (∀ k, Nat.iter 6 (animateBeaconIcon frames) (mkIcon k None) = mkIcon k None).
Proof.
  intros frames i. apply (beacon_icon_cycles frames i 6 []).
  - done.
  - cbn. lia.
  - reflexivity.
Defined.

(** X27 for the text abc typed behind a prompt, after one timeout. *)
Lemma typewriter_types_the_text_witness :
  afterTimeouts (txt "abc") 1 (typewriterEffect (txt "> ") (txt "abc"))
  = mkTypewriter (txt "> " ++ take 2 (txt "abc")) 2 true true 0 ∧
  afterTimeouts (txt "abc") (length (txt "abc")) (typewriterEffect (txt "> ") (txt "abc"))
  = mkTypewriter (txt "> " ++ txt "abc") (length (txt "abc")) false false 1 ∧
  afterTimeouts [] 0 (typewriterEffect (txt "> ") []) = mkTypewriter (txt "> ") 0 false false 1.
Proof.
  apply (typewriter_types_the_text (txt "> ") (txt "abc") 1). cbn. lia.
Defined.

End WidgetsProofs.
